(** * Transaction enrichment pipeline of insight-api-komodo

    A shallow embedding of [lib/transactions.js]: the identity-name
    resolver ([getIdentityFriendlyName]), the output/input mappers
    ([transformOutput], [transformInput], [transformJoinSplit]) and the
    two-wave orchestration inside [transformTransaction].

    Modelling conventions.
    - JS strings are [string]s.  The only string operations the code uses
      are [endsWith], [startsWith], [slice(0,-k)] and [indexOf(..) === 0]
      with ASCII arguments, which agree on UTF-8 bytes and UTF-16 units.
    - JS numbers that are divided or formatted (satoshi amounts) are IEEE
      binary64 values, [float]; block heights, versions and indices are
      integers and live in [Z] / [nat].
    - A JS object that the code enumerates is the list of its own
      enumerable entries in [Object.keys] order; an object the code
      builds by assignment ([identityNameCache], [nameMapping],
      [valueinFriendly], [currencyvaluesFriendly]) and the registry read
      from [protocol-addresses.json] are [gmap string _]s holding their
      own properties.  They are plain objects: a read [o[k]] that finds
      no own property falls through to [Object.prototype], and an
      assignment to ["__proto__"] creates no own property ([JsProto]).
    - A field that the code tests for truthiness is an [option]; [None]
      stands for an absent (or otherwise falsy) value.  A string is
      truthy when it is not empty.
    - The node (RPC services, best height, clock) is an external
      collaborator: its answers are functions of a hidden world state
      that every call may change.  Within one transform requests are
      answered in the order in which the code issues them.
    - The resolver is asynchronous.  What happens to a controller over
      the life of the process is a sequence of events ([Event]): a
      resolution begins (cache test and, on a miss, the request), a
      pending request is answered (cache write and callback), a script
      is decoded, the node changes. *)

From Stdlib Require Import ZArith String Ascii Floats DecimalString DecimalN Uint63.
From stdpp Require Import gmap gmultiset strings list fin_maps.

Local Open Scope string_scope.
Local Open Scope Z_scope.

(** ** JavaScript string primitives *)

Module JsString.

(** [s.endsWith(suffix)] *)
Definition endsWith (s suffix : string) : bool :=
  let n := String.length s in
  let k := String.length suffix in
  (k <=? n)%nat && String.eqb (substring (n - k) k s) suffix.

(** [s.slice(0, -k)] for [k > 0]: everything but the last [k] units. *)
Definition slice_neg (s : string) (k : nat) : string :=
  substring 0 (String.length s - k) s.

(** [s.startsWith(p)] *)
Definition startsWith (s p : string) : bool := String.prefix p s.

(** [arr.join(sep)] *)
Definition join (sep : string) (l : list string) : string :=
  String.concat sep l.

(** Truthiness of a string-valued property: absent and [""] are falsy. *)
Definition truthy (o : option string) : option string :=
  match o with
  | Some s => if String.eqb s "" then None else Some s
  | None => None
  end.

End JsString.

(** ** Plain objects

    The objects the code keeps names and amounts in are created by [{}]
    or by [JSON.parse] and inherit from [Object.prototype].  A value read
    under a name is therefore a value the code stored there or, when the
    object has no own property of that name, the member of
    [Object.prototype] of that name. *)

(** A value read where a name is expected: a string, or the member
    [member] of [Object.prototype] (a function; the prototype object
    itself for ["__proto__"]). *)
Inductive Name :=
| Text (s : string)
| Inherited (member : string).

Global Instance Name_eq_dec : EqDecision Name.
Proof. solve_decision. Defined.

Module Name.

(** Truthiness: every string but [""], every function and object. *)
Definition truthy (n : Name) : bool :=
  match n with
  | Text s => negb (String.eqb s "")
  | Inherited _ => true
  end.

(** The name used as a property key: a string is itself; a built-in
    function is its source text, the prototype object is
    ["[object Object]"]. *)
Definition toKey (n : Name) : string :=
  match n with
  | Text s => s
  | Inherited member =>
      if String.eqb member "__proto__" then "[object Object]"
      else "function " ++ (if String.eqb member "constructor" then "Object" else member)
           ++ "() { [native code] }"
  end.

End Name.

Module JsProto.

(** The property names of [Object.prototype] (ECMAScript, with Annex B). *)
Definition members : list string :=
  ["constructor"; "__defineGetter__"; "__defineSetter__"; "hasOwnProperty";
   "__lookupGetter__"; "__lookupSetter__"; "isPrototypeOf"; "propertyIsEnumerable";
   "toString"; "valueOf"; "__proto__"; "toLocaleString"].

Definition member (k : string) : bool := bool_decide (k ∈ members).

(** [o[k]] when it is truthy, for an object whose own properties hold names. *)
Definition get (own : gmap string Name) (k : string) : option Name :=
  match own !! k with
  | Some n => if Name.truthy n then Some n else None
  | None => if member k then Some (Inherited k) else None
  end.

(** [o[k]] when it is truthy, for an object whose own properties hold strings. *)
Definition getString (own : gmap string string) (k : string) : option Name :=
  match own !! k with
  | Some s => if String.eqb s "" then None else Some (Text s)
  | None => if member k then Some (Inherited k) else None
  end.

(** The own properties after [o[k] = v].  With [k = "__proto__"] and no
    own property of that name the assignment runs the inherited setter,
    which leaves the own properties as they are. *)
Definition assign {A : Type} (k : string) (v : A) (own : gmap string A) : gmap string A :=
  if String.eqb k "__proto__" && bool_decide (own !! k = None) then own
  else <[k := v]> own.

End JsProto.

(** ** Data exchanged with the node *)

(** [err] argument of a node-style callback. *)
Record RpcError := { message : string }.

Inductive RpcResult (A : Type) : Type :=
| RpcFail (err : RpcError)
| RpcOk (value : A).
Arguments RpcFail {A} err.
Arguments RpcOk {A} value.

(** Result object of the [getidentity] RPC, as far as the resolver reads it. *)
Record IdentityInfo := { friendlyname : option string }.
Record IdentityObject := { name : option string }.
Record IdentityResult := {
  identityinfo : option IdentityInfo;
  identity : option IdentityObject
}.

(** Requests sent to the node. *)
Inductive IoCall :=
| IoGetIdentity (iAddress : string)
| IoDecodeScript (scriptHex : option string).

Global Instance IoCall_eq_dec : EqDecision IoCall.
Proof. solve_decision. Defined.

(** [o && o.f] for an object [o] that may be null or undefined. *)
Definition prop {A B : Type} (o : option A) (f : A -> option B) : option B :=
  match o with
  | Some a => f a
  | None => None
  end.

(** The suffix rules of the resolver (lines 52-58). *)
Definition stripSuffixes (friendlyName : string) : string :=
  let friendlyName :=
    if JsString.endsWith friendlyName "@"
    then JsString.slice_neg friendlyName 1 else friendlyName in
  if JsString.endsWith friendlyName ".VRSC"
  then JsString.slice_neg friendlyName 5 else friendlyName.

(** Lines 46-62: the name derived from a successful lookup. *)
Definition deriveFriendlyName (iAddress : string) (ident : option IdentityResult) : string :=
  match JsString.truthy (prop (prop ident identityinfo) friendlyname) with
  | Some fn => stripSuffixes fn
  | None =>
      match JsString.truthy (prop (prop ident identity) name) with
      | Some n => n
      | None => iAddress
      end
  end.

(** ** JavaScript numbers *)

Module JsNumber.

(** The literal [1e8]. *)
Definition e8 : float := 100000000%float.

(** Exact value of a finite non-negative double times [10^f], rounded
    to the nearest integer, the larger one on a tie: the [n] of
    [Number.prototype.toFixed]. *)
Definition scaled (f : nat) (x : float) : Z :=
  match Prim2SF x with
  | S754_finite _ m e =>
      let num := Z.pos m * 10 ^ Z.of_nat f in
      if 0 <=? e then num * 2 ^ e
      else (2 * num + 2 ^ (- e)) / 2 ^ (1 - e)
  | _ => 0
  end.

Fixpoint zeros (k : nat) : string :=
  match k with
  | O => ""
  | S k => String "0" (zeros k)
  end.

(** Decimal digits of a non-negative integer, ["0"] for zero. *)
Definition digits (n : Z) : string :=
  NilZero.string_of_uint (N.to_uint (Z.to_N n)).

(** [x.toFixed(f)] for [f > 0].  [toString] stands for the runtime's
    [Number::toString], which [toFixed] falls back to for values of
    magnitude [1e21] and above. *)
Definition toFixed (toString : float -> string) (f : nat) (x : float) : string :=
  if PrimFloat.is_nan x then "NaN"
  else
    let s := if PrimFloat.ltb x 0 then "-" else "" in
    let x := PrimFloat.abs x in
    if PrimFloat.leb 1e21 x then s ++ toString x
    else
      let m := digits (scaled f x) in
      let m := if (String.length m <=? f)%nat
               then zeros (f + 1 - String.length m) ++ m else m in
      let k := String.length m in
      s ++ substring 0 (k - f) m ++ "." ++ substring (k - f) f m.

(** [Math.round(x / 1000)] for an integer [x] >= 0 (milliseconds). *)
Definition round_div_1000 (x : Z) : Z := (x + 500) / 1000.

(** A string's [length] as a number. *)
Definition of_length (s : string) : float :=
  PrimFloat.of_uint63 (Uint63.of_Z (Z.of_nat (String.length s))).

End JsNumber.

(** ** JSON payloads *)

(** Values the pipeline copies without looking inside. *)
#[local] Unset Elimination Schemes.
Inductive Json :=
| JNull
| JBool (b : bool)
| JNumber (x : float)
| JString (s : string)
| JArray (elements : list Json)
| JObject (entries : list (string * Json)).
#[local] Set Elimination Schemes.

(** A JS object the code enumerates: its entries in [Object.keys] order. *)
Module JsObject.
Abbreviation t := (list (string * Json)).

(** [Object.keys(o)] *)
Definition keys (o : t) : list string := map fst o.

End JsObject.

(** [crosschainimport] payload of an output.  The raw output and the
    transformed output share one such object. *)
Record CrossChainImport := {
  valuein : option JsObject.t;
  valueinFriendly : option (gmap string Json)
}.

(** [feepool] member of a decoded script; it becomes the [feepool]
    property of the output it was decoded for. *)
Record FeePool := {
  currencyvalues : option JsObject.t;
  currencyvaluesFriendly : option (gmap string Json)
}.

Record AcceptedNotarization := {
  currencyid : option string;
  currencyNameFriendly : option Name
}.

(** [decoded.result] of the [decodescript] RPC. *)
Module Decoded.
Record t := {
  feepool : option FeePool;
  acceptednotarization : option AcceptedNotarization;
  p2sh : option string
}.
End Decoded.

(** Reply of the [decodescript] RPC. *)
Record DecodeReply := { result : option Decoded.t }.

(** The values of [scriptDecodeType]. *)
Module DecodeType.
Inductive t := opreturn | feepool | acceptednotarization.

Global Instance eq_dec : EqDecision t.
Proof. solve_decision. Defined.
End DecodeType.

(** An entry of [protocol-addresses.json]. *)
Record ProtocolEntry := {
  pe_name : option Json;
  pe_description : option Json;
  pe_color : option Json;
  pe_icon : option Json
}.

Record Destination := { dest_address : option string }.

Record ReserveTransfer := {
  destination : option Destination;
  crosssystem : bool;
  exportto : option string
}.

(** ** Raw records supplied by the node *)

Module RawInput.
Record t := {
  prevTxId : option string;
  outputIndex : option Z;
  sequence : Z;
  script : option string;
  scriptAsm : option string;
  address : option string;
  addresses : option (list string);
  satoshis : float
}.
End RawInput.

Module RawOutput.
Record t := {
  satoshis : float;
  script : option string;
  scriptAsm : option string;
  address : option string;
  addresses : option (list string);
  identityprimary : option Json;
  currencydefinition : option Json;
  script_reserve_balance : option Json;
  finalizeNotarization : option Json;
  crosschainimport : option CrossChainImport;
  crosschainexport : option Json;
  (** present when [!= null] *)
  identitycommitment : option Json;
  reservetransfer : option ReserveTransfer;
  pbaasNotarization : option Json;
  spentTxId : option string;
  (** present when not [undefined] *)
  spentIndex : option Z;
  spentHeight : option Z
}.
End RawOutput.

Module RawJoinSplit.
Record t := { oldZatoshis : float; newZatoshis : float }.
End RawJoinSplit.

Module RawTx.
Record t := {
  hash : string;
  version : Z;
  locktime : Z;
  coinbase : bool;
  inputs : list RawInput.t;
  outputs : list RawOutput.t;
  joinSplits : list RawJoinSplit.t;
  blockHash : option string;
  height : Z;
  blockTimestamp : option Z;
  outputSatoshis : float;
  inputSatoshis : float;
  feeSatoshis : float;
  hex : string;
  fOverwintered : bool;
  nVersionGroupId : option Json;
  nExpiryHeight : option Json;
  valueBalance : option Json;
  spendDescs : option Json;
  outputDescs : option Json;
  bindingSig : option Json
}.
End RawTx.

(** [options] of the transform. *)
Record Options := { noScriptSig : bool; noAsm : bool; noSpent : bool }.

(** ** Transformed records *)

Record ScriptSig := { ss_hex : option string; ss_asm : option string }.

Module Vin.
(** A mapped input.  [doubleSpentTxID], which is always [null], is left out. *)
Record spend := {
  txid : option string;
  vout : option Z;
  sequence : Z;
  n : nat;
  scriptSig : option ScriptSig;
  addr : option string;
  valueSat : float;
  value : float
}.

(** The two shapes of a [vin] element. *)
Inductive t :=
| Coinbase (coinbase : option string) (sequence : Z) (n : nat)
| Spend (i : spend).
End Vin.

Record ScriptPubKey := {
  spk_hex : option string;
  spk_asm : option string;
  spk_addresses : option (list string);
  spk_type : option string
}.

(** Value of [other_commitment]: a one-key marker object or the
    identity commitment itself. *)
Inductive OtherCommitment :=
| Marker (key : string)
| Commitment (c : Json).

(** [spentTxId], [spentIndex], [spentHeight]: each a value or [null]. *)
Record SpentInfo := {
  si_spentTxId : option string;
  si_spentIndex : option Z;
  si_spentHeight : option Z
}.

(** The properties [transformOutput] sets and nothing modifies later. *)
Module OutputFields.
Record t := {
  value : string;
  n : nat;
  scriptPubKey : ScriptPubKey;
  identityprimary : option Json;
  currencydefinition : option Json;
  script_reserve_balance : option Json;
  addresses : option (list string);
  finalizeNotarization : option Json;
  needsScriptDecode : bool;
  scriptHex : option string;
  scriptDecodeType : option DecodeType.t;
  isProtocolAddress : bool;
  (** [protocolName], [protocolDescription], [protocolColor], [protocolIcon] *)
  protocol : option ProtocolEntry;
  originalProtocolAddress : option string;
  other_commitment : option OtherCommitment;
  reservetransfer : option ReserveTransfer;
  actualDestination : option string;
  isCrossChainToEthereum : bool;
  (** absent under [noSpent] *)
  spent : option SpentInfo
}.
End OutputFields.

(** An element of [transformed.vout].  The properties that the
    orchestrator adds or rewrites after [transformOutput] are kept
    beside the fixed ones. *)
Module Vout.
Record t := {
  fields : OutputFields.t;
  crosschainimport : option CrossChainImport;
  feepool : option FeePool;
  acceptednotarization : option AcceptedNotarization;
  p2shAddress : option string;
  isP2SH : bool
}.
End Vout.

Module JoinSplit.
Record t := { vpub_old : string; vpub_new : string; n : nat }.
End JoinSplit.

Module Tx.
Record t := {
  txid : string;
  version : Z;
  locktime : Z;
  vin : list Vin.t;
  vout : list Vout.t;
  (** present when [version >= 2] *)
  vjoinsplit : option (list JoinSplit.t);
  blockhash : option string;
  blockheight : Z;
  confirmations : Z;
  time : Z;
  (** present when [confirmations] is truthy *)
  blocktime : option Z;
  isCoinBase : bool;
  valueOut : float;
  size : float;
  (** [valueIn] and [fees] are present unless the transaction is a coinbase *)
  valueIn : option float;
  fees : option float;
  fOverwintered : bool;
  nVersionGroupId : option Json;
  nExpiryHeight : option Json;
  valueBalance : option Json;
  spendDescs : option Json;
  outputDescs : option Json;
  bindingSig : option Json
}.
End Tx.

(** ** The controller and its collaborators *)

(** Everything the controller reaches outside itself: the node services,
    the clock, [bitcore.Address], the runtime's number printer and the
    protocol-address registry read from [protocol-addresses.json] at
    load time.  [World] is the hidden state of the node. *)
Class Externals (World : Type) := {
  bitcoind_height : World -> Z;
  bitcoind_getIdentity : string -> World -> RpcResult (option IdentityResult) * World;
  client_decodeScript : option string -> World -> RpcResult DecodeReply * World;
  Date_now : World -> Z;
  (** [bitcore.Address(a).type] *)
  Address_type : string -> option string;
  (** [Number::toString], used by [toFixed] from [1e21] on *)
  Number_toString : float -> string;
  PROTOCOL_ADDRESSES_DATA : gmap string ProtocolEntry
}.

(** A [TxController] together with the node it talks to.  [io] and
    [resolutions] are bookkeeping that the code does not have: the
    requests sent to the node so far, and every completed call of
    [getIdentityFriendlyName] with the name it called back. *)
Record Controller {World : Type} := {
  identityNameCache : gmap string string;
  world : World;
  io : list IoCall;
  resolutions : list (string * Name)
}.
Arguments Controller World : clear implicits.

(** Arguments of a node-style callback [(err, value)]. *)
Record Callback (A : Type) := { cb_err : option RpcError; cb_value : A }.
Arguments cb_err {A} c.
Arguments cb_value {A} c.

(** One element of [results.scriptsDecoded]. *)
Record DecodedItem := {
  idx : nat;
  decoded : option Decoded.t;
  type : option DecodeType.t
}.

(** One element of [results.namesResolved]. *)
Record NameResult := { iAddress : string; friendlyName : Name }.

(** ** The callback monad

    A computation runs against the controller and the node, may change
    both, and hands its result to its continuation. *)

Section Monad.
Context {World : Type}.

Definition M (A : Type) : Type := Controller World -> A * Controller World.

Definition ret {A} (a : A) : M A := fun c => (a, c).

Definition bind {A B} (m : M A) (k : A -> M B) : M B :=
  fun c => let '(a, c') := m c in k a c'.

(** [async.map(l, f, cb)]: [f] is started on the elements from left to
    right and [cb] receives the results in the order of [l].  Each call
    runs to its callback before the next one starts; the lists the code
    maps over have no repeated element, so no call reads a cache entry
    that another call of the same pass writes. *)
Fixpoint asyncMap {A B} (f : A -> M B) (l : list A) : M (list B) :=
  match l with
  | [] => ret []
  | a :: l' =>
      bind (f a) (fun b => bind (asyncMap f l') (fun bs => ret (b :: bs)))
  end.
End Monad.

Declare Scope callback_scope.
Delimit Scope callback_scope with callback.
Notation "x <- m ;; k" := (bind m (fun x => k))
  (at level 100, m at next level, right associativity) : callback_scope.
Local Open Scope callback_scope.

(** ** The pipeline *)

Section Pipeline.
Context {World : Type} `{!Externals World}.

Abbreviation M := (@M World).

(** *** Identity Name Resolver *)

Definition readCache : M (gmap string string) :=
  fun c => (identityNameCache c, c).

(** [self.identityNameCache[iAddress] = friendlyName] *)
Definition writeCache (iAddress friendlyName : string) : M unit :=
  fun c => (tt, {| identityNameCache :=
                     JsProto.assign iAddress friendlyName (identityNameCache c);
                   world := world c; io := io c; resolutions := resolutions c |}).

(** [self.node.services.bitcoind.getIdentity(iAddress, ...)] *)
Definition getIdentity (iAddress : string) : M (RpcResult (option IdentityResult)) :=
  fun c =>
    let '(reply, w) := bitcoind_getIdentity iAddress (world c) in
    (reply, {| identityNameCache := identityNameCache c; world := w;
               io := (io c ++ [IoGetIdentity iAddress])%list;
               resolutions := resolutions c |}).

Definition noteResolution (iAddress : string) (friendlyName : Name) : M unit :=
  fun c => (tt, {| identityNameCache := identityNameCache c; world := world c;
                   io := io c;
                   resolutions := (resolutions c ++ [(iAddress, friendlyName)])%list |}).

Definition callback {A} (err : option RpcError) (a : A) : Callback A :=
  {| cb_err := err; cb_value := a |}.

(** Lines 40-68: the function handed to [getIdentity], which runs when
    the node has answered. *)
Definition onIdentity (iAddress : string) (reply : RpcResult (option IdentityResult))
  : M (Callback Name) :=
  match reply with
  | RpcFail err => ret (callback None (Text iAddress))
  | RpcOk ident =>
      let friendlyName := deriveFriendlyName iAddress ident in
      _ <- writeCache iAddress friendlyName ;;
      ret (callback None (Text friendlyName))
  end.

(** Lines 31-69, with the node answering at once. *)
Definition getIdentityFriendlyName (iAddress : string) : M (Callback Name) :=
  cache <- readCache ;;
  r <- match JsProto.getString cache iAddress with
       | Some cached => ret (callback None cached)
       | None =>
           reply <- getIdentity iAddress ;;
           onIdentity iAddress reply
       end ;;
  _ <- noteResolution iAddress (cb_value r) ;;
  ret r.

(** *** Mapping inputs, outputs and join-splits *)

Definition toFixed8 (x : float) : string :=
  JsNumber.toFixed Number_toString 8 x.

(** Lines 322-349. *)
Definition transformInput (options : Options) (input : RawInput.t) (index : nat) : Vin.spend :=
  {| Vin.txid := RawInput.prevTxId input;
     Vin.vout := RawInput.outputIndex input;
     Vin.sequence := RawInput.sequence input;
     Vin.n := index;
     Vin.scriptSig :=
       if noScriptSig options then None
       else Some {| ss_hex := RawInput.script input;
                    ss_asm := if noAsm options then None
                              else RawInput.scriptAsm input |};
     Vin.addr :=
       match JsString.truthy (RawInput.address input) with
       | Some a => Some a
       | None => JsString.join "," <$> RawInput.addresses input
       end;
     Vin.valueSat := RawInput.satoshis input;
     Vin.value := (RawInput.satoshis input / JsNumber.e8)%float |}.

Definition FEE_POOL_ADDRESS : string := "RQ55dLQ7uGnLx8scXfkaFV6QS6qVBGyxAG".
Definition NOTARIZATION_ADDRESS : string := "RDTq9qn1Lthv7fvsdbWz36mGp8HK9XaruZ".
Definition ETHEREUM_SYSTEM : string := "i9nwxtKuVYX4MSbeULLiK2ttVi6rUEhh4X".

Definition is_truthy (o : option string) : bool :=
  bool_decide (is_Some (JsString.truthy o)).

(** What [name], [description], [color] and [icon] are on the member
    [member] of [Object.prototype]: a built-in function has its name,
    the prototype object has none of the four. *)
Definition inheritedEntry (member : string) : ProtocolEntry :=
  {| pe_name :=
       if String.eqb member "__proto__" then None
       else Some (JString (if String.eqb member "constructor" then "Object" else member));
     pe_description := None; pe_color := None; pe_icon := None |}.

(** [PROTOCOL_ADDRESSES_DATA[outputAddress]] (line 386) *)
Definition protocolInfo (outputAddress : string) : option ProtocolEntry :=
  match PROTOCOL_ADDRESSES_DATA !! outputAddress with
  | Some entry => Some entry
  | None =>
      if JsProto.member outputAddress then Some (inheritedEntry outputAddress) else None
  end.

(** Line 385: [output.address || (output.addresses && output.addresses[0])] *)
Definition outputAddressOf (output : RawOutput.t) : option string :=
  match JsString.truthy (RawOutput.address output) with
  | Some a => Some a
  | None => JsString.truthy (prop (RawOutput.addresses output) head)
  end.

(** Lines 351-449. *)
Definition transformOutput (options : Options) (output : RawOutput.t) (index : nat) : Vout.t :=
  let hasScript := is_truthy (RawOutput.script output) in
  (* line 378 *)
  let isOpReturn :=
    match JsString.truthy (RawOutput.scriptAsm output) with
    | Some asm => JsString.startsWith asm "OP_RETURN"
    | None => false
    end && hasScript && negb (is_truthy (RawOutput.address output)) in
  (* line 385 *)
  let outputAddress := outputAddressOf output in
  let protocol := prop outputAddress protocolInfo in
  let onProtocolAddress (a : string) :=
    bool_decide (is_Some protocol) && bool_decide (outputAddress = Some a)
    && hasScript in
  let isFeePool := onProtocolAddress FEE_POOL_ADDRESS in
  let isNotarization := onProtocolAddress NOTARIZATION_ADDRESS in
  let needsDecode := isOpReturn || isFeePool || isNotarization in
  (* line 420 *)
  let destinationAddress :=
    JsString.truthy
      (prop (prop (RawOutput.reservetransfer output) destination) dest_address) in
  {| Vout.fields :=
       {| OutputFields.value := toFixed8 (RawOutput.satoshis output / JsNumber.e8)%float;
          OutputFields.n := index;
          OutputFields.scriptPubKey :=
            {| spk_hex := RawOutput.script output;
               spk_asm := if noAsm options then None else RawOutput.scriptAsm output;
               spk_addresses := (fun a => [a]) <$> JsString.truthy (RawOutput.address output);
               spk_type := prop (JsString.truthy (RawOutput.address output)) Address_type |};
          OutputFields.identityprimary := RawOutput.identityprimary output;
          OutputFields.currencydefinition := RawOutput.currencydefinition output;
          OutputFields.script_reserve_balance := RawOutput.script_reserve_balance output;
          OutputFields.addresses := RawOutput.addresses output;
          OutputFields.finalizeNotarization := RawOutput.finalizeNotarization output;
          OutputFields.needsScriptDecode := needsDecode;
          OutputFields.scriptHex := if needsDecode then RawOutput.script output else None;
          OutputFields.scriptDecodeType :=
            if isNotarization then Some DecodeType.acceptednotarization
            else if isFeePool then Some DecodeType.feepool
            else if isOpReturn then Some DecodeType.opreturn
            else None;
          OutputFields.isProtocolAddress := bool_decide (is_Some protocol);
          OutputFields.protocol := protocol;
          OutputFields.originalProtocolAddress :=
            if bool_decide (is_Some protocol) then outputAddress else None;
          OutputFields.other_commitment :=
            if bool_decide (is_Some (RawOutput.pbaasNotarization output))
            then Some (Marker "pbaasNotarization")
            else if bool_decide (is_Some (RawOutput.reservetransfer output))
            then Some (Marker "reservetransfer")
            else match RawOutput.identitycommitment output with
                 | Some c => Some (Commitment c)
                 | None =>
                     if bool_decide (is_Some (RawOutput.crosschainexport output))
                     then Some (Marker "crosschainexport")
                     else if bool_decide (is_Some (RawOutput.crosschainimport output))
                     then Some (Marker "crosschainimport")
                     else None
                 end;
          OutputFields.reservetransfer := RawOutput.reservetransfer output;
          OutputFields.actualDestination := destinationAddress;
          OutputFields.isCrossChainToEthereum :=
            match RawOutput.reservetransfer output with
            | Some rt =>
                bool_decide (is_Some destinationAddress) && crosssystem rt
                && bool_decide (exportto rt = Some ETHEREUM_SYSTEM)
            | None => false
            end;
          OutputFields.spent :=
            if noSpent options then None
            else Some {| si_spentTxId := JsString.truthy (RawOutput.spentTxId output);
                         si_spentIndex := RawOutput.spentIndex output;
                         si_spentHeight :=
                           match RawOutput.spentHeight output with
                           | Some 0 => None
                           | h => h
                           end |} |};
     Vout.crosschainimport := RawOutput.crosschainimport output;
     Vout.feepool := None;
     Vout.acceptednotarization := None;
     Vout.p2shAddress := None;
     Vout.isP2SH := false |}.

(** Lines 451-458. *)
Definition transformJoinSplit (options : Options) (jsdesc : RawJoinSplit.t) (index : nat) : JoinSplit.t :=
  {| JoinSplit.vpub_old := toFixed8 (RawJoinSplit.oldZatoshis jsdesc / JsNumber.e8)%float;
     JoinSplit.vpub_new := toFixed8 (RawJoinSplit.newZatoshis jsdesc / JsNumber.e8)%float;
     JoinSplit.n := index |}.

(** *** Enrichment orchestrator *)

(** Lines 143-145 and 194-196: push an identity address not seen yet. *)
Definition pushNew (iAddressesToResolve : list string) (iAddress : string) : list string :=
  if JsString.startsWith iAddress "i" && bool_decide (iAddress ∉ iAddressesToResolve)
  then (iAddressesToResolve ++ [iAddress])%list
  else iAddressesToResolve.

(** Lines 141-147: the identity addresses of one output's [valuein]. *)
Definition collectValuein (iAddressesToResolve : list string) (vout : Vout.t)
  : list string :=
  match prop (Vout.crosschainimport vout) valuein with
  | Some o => foldl pushNew iAddressesToResolve (JsObject.keys o)
  | None => iAddressesToResolve
  end.

(** Lines 140-151, one output of the scan. *)
Definition scanOutput (acc : list string * list nat) (entry : nat * Vout.t)
  : list string * list nat :=
  let '(iAddressesToResolve, scriptsToDecodeIndices) := acc in
  let '(idx, vout) := entry in
  (collectValuein iAddressesToResolve vout,
   if OutputFields.needsScriptDecode (Vout.fields vout)
   then (scriptsToDecodeIndices ++ [idx])%list
   else scriptsToDecodeIndices).

Definition scan (vout : list Vout.t) : list string * list nat :=
  foldl scanOutput ([], []) (imap pair vout).

(** [self.node.services.bitcoind.client.decodeScript(scriptHex, ...)] *)
Definition decodeScript (scriptHex : option string) : M (RpcResult DecodeReply) :=
  fun c =>
    let '(reply, w) := client_decodeScript scriptHex (world c) in
    (reply, {| identityNameCache := identityNameCache c; world := w;
               io := (io c ++ [IoDecodeScript scriptHex])%list;
               resolutions := resolutions c |}).

(** [transformed.vout[voutIdx].scriptHex] and [.scriptDecodeType] *)
Definition scriptHexOf (vout : list Vout.t) (voutIdx : nat) : option string :=
  prop (vout !! voutIdx) (fun v => OutputFields.scriptHex (Vout.fields v)).

Definition decodeTypeOf (vout : list Vout.t) (voutIdx : nat) : option DecodeType.t :=
  prop (vout !! voutIdx) (fun v => OutputFields.scriptDecodeType (Vout.fields v)).

(** Lines 160-169, the iteratee of the decoding pass. *)
Definition decodeOne (vout : list Vout.t) (voutIdx : nat) : M DecodedItem :=
  reply <- decodeScript (scriptHexOf vout voutIdx) ;;
  match reply with
  | RpcFail err =>
      ret {| idx := voutIdx; decoded := None; type := decodeTypeOf vout voutIdx |}
  | RpcOk d =>
      ret {| idx := voutIdx; decoded := result d; type := decodeTypeOf vout voutIdx |}
  end.

(** Lines 156-171. *)
Definition scriptsDecoded (vout : list Vout.t) (scriptsToDecodeIndices : list nat)
  : M (list DecodedItem) :=
  match scriptsToDecodeIndices with
  | [] => ret []
  | _ => asyncMap (decodeOne vout) scriptsToDecodeIndices
  end.

(** Lines 177-181 and 221-224, the iteratee of both resolution waves. *)
Definition resolveOne (iAddress : string) : M NameResult :=
  r <- getIdentityFriendlyName iAddress ;;
  ret {| iAddress := iAddress; friendlyName := cb_value r |}.

(** Lines 173-182. *)
Definition namesResolved (iAddressesToResolve : list string) : M (list NameResult) :=
  match iAddressesToResolve with
  | [] => ret []
  | _ => asyncMap resolveOne iAddressesToResolve
  end.

Definition set_feepool (fp : FeePool) (v : Vout.t) : Vout.t :=
  {| Vout.fields := Vout.fields v; Vout.crosschainimport := Vout.crosschainimport v;
     Vout.feepool := Some fp;
     Vout.acceptednotarization := Vout.acceptednotarization v;
     Vout.p2shAddress := Vout.p2shAddress v; Vout.isP2SH := Vout.isP2SH v |}.

Definition set_acceptednotarization (an : AcceptedNotarization) (v : Vout.t) : Vout.t :=
  {| Vout.fields := Vout.fields v; Vout.crosschainimport := Vout.crosschainimport v;
     Vout.feepool := Vout.feepool v;
     Vout.acceptednotarization := Some an;
     Vout.p2shAddress := Vout.p2shAddress v; Vout.isP2SH := Vout.isP2SH v |}.

Definition set_p2sh (a : string) (v : Vout.t) : Vout.t :=
  {| Vout.fields := Vout.fields v; Vout.crosschainimport := Vout.crosschainimport v;
     Vout.feepool := Vout.feepool v;
     Vout.acceptednotarization := Vout.acceptednotarization v;
     Vout.p2shAddress := Some a; Vout.isP2SH := true |}.

(** Lines 186-216, one decoded item against its output. *)
Definition expandOutput (item : DecodedItem) (acc : Vout.t * list string)
  : Vout.t * list string :=
  let '(vout, iAddressesToResolve) := acc in
  (* fee pool *)
  let '(vout, iAddressesToResolve) :=
    match type item, prop (decoded item) Decoded.feepool with
    | Some DecodeType.feepool, Some fp =>
        match currencyvalues fp with
        | Some cv => (set_feepool fp vout, foldl pushNew iAddressesToResolve (JsObject.keys cv))
        | None => (vout, iAddressesToResolve)
        end
    | _, _ => (vout, iAddressesToResolve)
    end in
  (* accepted notarization *)
  let '(vout, iAddressesToResolve) :=
    match type item, prop (decoded item) Decoded.acceptednotarization with
    | Some DecodeType.acceptednotarization, Some an =>
        (set_acceptednotarization an vout,
         match JsString.truthy (currencyid an) with
         | Some c => pushNew iAddressesToResolve c
         | None => iAddressesToResolve
         end)
    | _, _ => (vout, iAddressesToResolve)
    end in
  (* OP_RETURN with P2SH *)
  let vout :=
    match type item, JsString.truthy (prop (decoded item) Decoded.p2sh) with
    | Some DecodeType.opreturn, Some a => set_p2sh a vout
    | _, _ => vout
    end in
  (vout, iAddressesToResolve).

Definition expandItem (acc : list Vout.t * list string) (item : DecodedItem)
  : list Vout.t * list string :=
  let '(vouts, iAddressesToResolve) := acc in
  match vouts !! idx item with
  | Some vout =>
      let '(vout, iAddressesToResolve) := expandOutput item (vout, iAddressesToResolve) in
      (<[idx item := vout]> vouts, iAddressesToResolve)
  | None => (vouts, iAddressesToResolve)
  end.

(** [nameMapping[iAddress] || iAddress] *)
Definition friendly (nameMapping : gmap string Name) (iAddress : string) : Name :=
  match JsProto.get nameMapping iAddress with
  | Some n => n
  | None => Text iAddress
  end.

(** The property key that [friendlyName] is when the code files an
    amount under it. *)
Definition friendlyKey (nameMapping : gmap string Name) (iAddress : string) : string :=
  Name.toKey (friendly nameMapping iAddress).

(** Lines 246-250 and 255-259: the friendly-keyed copy of a mapping,
    filled entry by entry in enumeration order. *)
Definition friendlyKeyed (nameMapping : gmap string Name) (o : JsObject.t)
  : gmap string Json :=
  foldl (fun acc '(iAddress, amount) =>
           JsProto.assign (friendlyKey nameMapping iAddress) amount acc)
        ∅ o.

(** Lines 238-241.  The addresses are collected ones, which start with "i". *)
Definition buildNameMapping (names : list NameResult) : gmap string Name :=
  foldl (fun m r => JsProto.assign (iAddress r) (friendlyName r) m) ∅ names.

(** Lines 244-267, one output of the merge pass. *)
Definition applyNames (nameMapping : gmap string Name) (vout : Vout.t) : Vout.t :=
  {| Vout.fields := Vout.fields vout;
     Vout.crosschainimport :=
       match Vout.crosschainimport vout with
       | Some cci =>
           match valuein cci with
           | Some vi => Some {| valuein := Some vi;
                                valueinFriendly := Some (friendlyKeyed nameMapping vi) |}
           | None => Some cci
           end
       | None => None
       end;
     Vout.feepool :=
       match Vout.feepool vout with
       | Some fp =>
           match currencyvalues fp with
           | Some cv => Some {| currencyvalues := Some cv;
                                currencyvaluesFriendly := Some (friendlyKeyed nameMapping cv) |}
           | None => Some fp
           end
       | None => None
       end;
     Vout.acceptednotarization :=
       match Vout.acceptednotarization vout with
       | Some an =>
           match JsString.truthy (currencyid an) with
           | Some c => Some {| currencyid := Some c;
                               currencyNameFriendly := Some (friendly nameMapping c) |}
           | None => Some an
           end
       | None => None
       end;
     Vout.p2shAddress := Vout.p2shAddress vout;
     Vout.isP2SH := Vout.isP2SH vout |}.

(** Lines 184-234: expansion of the decoded items and the second wave.
    Returns the outputs and the combined [results.namesResolved]. *)
Definition expandAndResolve (vout : list Vout.t) (iAddressesToResolve : list string)
    (items : list DecodedItem) (names : list NameResult)
  : M (list Vout.t * list NameResult) :=
  match items with
  | [] => ret (vout, names)
  | _ =>
      let '(vout, iAddressesToResolve) := foldl expandItem (vout, iAddressesToResolve) items in
      if (length names <? length iAddressesToResolve)%nat
      then
        let newAddresses := drop (length names) iAddressesToResolve in
        newResults <- asyncMap resolveOne newAddresses ;;
        ret (vout, (names ++ newResults)%list)
      else ret (vout, names)
  end.

(** *** Transaction transformer *)

Definition readWorld {A} (f : World -> A) : M A := fun c => (f (world c), c).

(** Lines 120-130.  [None]: [transaction.inputs[0]] is undefined and the
    property access throws. *)
Definition transformVin (transaction : RawTx.t) (options : Options) : option (list Vin.t) :=
  if RawTx.coinbase transaction then
    match RawTx.inputs transaction with
    | input0 :: _ =>
        Some [Vin.Coinbase (RawInput.script input0) (RawInput.sequence input0) 0]
    | [] => None
    end
  else Some (imap (fun index input => Vin.Spend (transformInput options input index))
                  (RawTx.inputs transaction)).

(** Lines 274-316: the object handed to the callback.  [now] is
    [Date.now()] in milliseconds. *)
Definition finishTransformed (transaction : RawTx.t) (options : Options)
    (confirmations : Z) (vin : list Vin.t) (vout : list Vout.t) (now : Z) : Tx.t :=
  let time :=
    match RawTx.blockTimestamp transaction with
    | Some 0 | None => JsNumber.round_div_1000 now
    | Some t => t
    end in
  let sapling := RawTx.fOverwintered transaction && (4 <=? RawTx.version transaction) in
  {| Tx.txid := RawTx.hash transaction;
     Tx.version := RawTx.version transaction;
     Tx.locktime := RawTx.locktime transaction;
     Tx.vin := vin;
     Tx.vout := vout;
     Tx.vjoinsplit :=
       if 2 <=? RawTx.version transaction
       then Some (imap (fun index jsdesc => transformJoinSplit options jsdesc index)
                       (RawTx.joinSplits transaction))
       else None;
     Tx.blockhash := RawTx.blockHash transaction;
     Tx.blockheight := RawTx.height transaction;
     Tx.confirmations := confirmations;
     Tx.time := time;
     Tx.blocktime := if confirmations =? 0 then None else Some time;
     Tx.isCoinBase := RawTx.coinbase transaction;
     Tx.valueOut := (RawTx.outputSatoshis transaction / JsNumber.e8)%float;
     Tx.size := (JsNumber.of_length (RawTx.hex transaction) / 2)%float;
     Tx.valueIn :=
       if RawTx.coinbase transaction then None
       else Some (RawTx.inputSatoshis transaction / JsNumber.e8)%float;
     Tx.fees :=
       if RawTx.coinbase transaction then None
       else Some (RawTx.feeSatoshis transaction / JsNumber.e8)%float;
     Tx.fOverwintered := RawTx.fOverwintered transaction;
     Tx.nVersionGroupId :=
       if RawTx.fOverwintered transaction then RawTx.nVersionGroupId transaction else None;
     Tx.nExpiryHeight :=
       if RawTx.fOverwintered transaction then RawTx.nExpiryHeight transaction else None;
     Tx.valueBalance := if sapling then RawTx.valueBalance transaction else None;
     Tx.spendDescs := if sapling then RawTx.spendDescs transaction else None;
     Tx.outputDescs := if sapling then RawTx.outputDescs transaction else None;
     Tx.bindingSig := if sapling then RawTx.bindingSig transaction else None |}.

(** Lines 273-319. *)
Definition continueTransform (transaction : RawTx.t) (options : Options)
    (confirmations : Z) (vin : list Vin.t) (vout : list Vout.t) : M (Callback Tx.t) :=
  now <- readWorld Date_now ;;
  ret (callback None (finishTransformed transaction options confirmations vin vout now)).

(** Lines 109-112. *)
Definition confirmationsOf (transaction : RawTx.t) (height : Z) : Z :=
  if 0 <=? RawTx.height transaction
  then height - RawTx.height transaction + 1
  else 0.

(** Line 132: the outputs as [transformOutput] leaves them. *)
Definition mapOutputs (transaction : RawTx.t) (options : Options) : list Vout.t :=
  imap (fun index output => transformOutput options output index)
       (RawTx.outputs transaction).

(** Lines 135-271: scan, first wave (decoding, then resolution, in the
    order in which [async.parallel] starts them), expansion, second wave
    and merge pass over [transformed.vout]. *)
Definition enrich (vout : list Vout.t) : M (list Vout.t) :=
  let '(iAddressesToResolve, scriptsToDecodeIndices) := scan vout in
  items <- scriptsDecoded vout scriptsToDecodeIndices ;;
  names <- namesResolved iAddressesToResolve ;;
  expanded <- expandAndResolve vout iAddressesToResolve items names ;;
  let '(vout, names) := expanded in
  let nameMapping := buildNameMapping names in
  ret (map (applyNames nameMapping) vout).

(** Lines 102-320.  The result is [None] when the code throws before it
    reaches its callback, otherwise the arguments of the callback. *)
Definition transformTransaction (transaction : RawTx.t) (options : Options)
  : M (option (Callback Tx.t)) :=
  height <- readWorld bitcoind_height ;;
  let confirmations := confirmationsOf transaction height in
  match transformVin transaction options with
  | None => ret None
  | Some vin =>
      vout <- enrich (mapOutputs transaction options) ;;
      r <- continueTransform transaction options confirmations vin vout ;;
      ret (Some r)
  end.

End Pipeline.

(** ** A small concrete node

    The world counts the requests answered so far.  Five identities are
    registered; every other lookup fails.  One script decodes to a fee
    pool, one to an accepted notarization, one to a P2SH address. *)

Module Demo.

(** The identity object of an identity registered as [fn]. *)
Definition identityNamed (fn : string) : option IdentityResult :=
  Some {| identityinfo := Some {| friendlyname := Some fn |};
          identity := Some {| name := Some "unused" |} |}.

Definition registered (fn : string) : RpcResult (option IdentityResult) :=
  RpcOk (identityNamed fn).

Definition notFound : RpcError := {| message := "Identity not found" |}.

Definition getIdentity (iAddress : string) (w : nat)
  : RpcResult (option IdentityResult) * nat :=
  (if String.eqb iAddress "iAAA" then registered "alice.VRSC@"
   else if String.eqb iAddress "iCCC" then registered "alice@"
   else if String.eqb iAddress "iDDD" then registered "dave@"
   else if String.eqb iAddress "iEEE" then registered "@"
   else if String.eqb iAddress "iFFF" then registered ".VRSC@"
   else RpcFail notFound,
   S w).

Definition decodeScript (scriptHex : option string) (w : nat)
  : RpcResult DecodeReply * nat :=
  (if bool_decide (scriptHex = Some "c0ffee") then
     RpcOk {| result := Some
       {| Decoded.feepool := Some
            {| currencyvalues := Some [("iDDD", JNumber 7); ("iAAA", JNumber 9)];
               currencyvaluesFriendly := None |};
          Decoded.acceptednotarization := None;
          Decoded.p2sh := None |} |}
   else if bool_decide (scriptHex = Some "c0ffee00") then
     RpcOk {| result := Some
       {| Decoded.feepool := Some
            {| currencyvalues := Some [("iEEE", JNumber 7)];
               currencyvaluesFriendly := None |};
          Decoded.acceptednotarization := None;
          Decoded.p2sh := None |} |}
   else RpcFail {| message := "TX decode failed" |},
   S w).

Definition entry : ProtocolEntry :=
  {| pe_name := Some (JString "Fee Pool"); pe_description := None;
     pe_color := None; pe_icon := None |}.

#[global] Instance externals : Externals nat := {|
  bitcoind_height := fun _ => 105;
  bitcoind_getIdentity := getIdentity;
  client_decodeScript := decodeScript;
  Date_now := fun w => 1700000000000 + Z.of_nat w;
  Address_type := fun _ => Some "pubkeyhash";
  Number_toString := fun _ => "1e+21";
  PROTOCOL_ADDRESSES_DATA :=
    {[ "RQ55dLQ7uGnLx8scXfkaFV6QS6qVBGyxAG" := entry;
       "RDTq9qn1Lthv7fvsdbWz36mGp8HK9XaruZ" := entry ]}
|}.

(** A freshly constructed controller. *)
Definition fresh : Controller nat :=
  {| identityNameCache := ∅; world := 0%nat; io := []; resolutions := [] |}.

Definition output (satoshis : float) : RawOutput.t :=
  {| RawOutput.satoshis := satoshis;
     RawOutput.script := Some "76a914";
     RawOutput.scriptAsm := Some "OP_DUP OP_HASH160";
     RawOutput.address := Some "RPlain";
     RawOutput.addresses := None;
     RawOutput.identityprimary := None;
     RawOutput.currencydefinition := None;
     RawOutput.script_reserve_balance := None;
     RawOutput.finalizeNotarization := None;
     RawOutput.crosschainimport := None;
     RawOutput.crosschainexport := None;
     RawOutput.identitycommitment := None;
     RawOutput.reservetransfer := None;
     RawOutput.pbaasNotarization := None;
     RawOutput.spentTxId := None;
     RawOutput.spentIndex := None;
     RawOutput.spentHeight := None |}.

(** An output paying to [address] with script [script]. *)
Definition outputTo (address script : string) : RawOutput.t :=
  {| RawOutput.satoshis := 0%float;
     RawOutput.script := Some script;
     RawOutput.scriptAsm := Some "OP_DUP OP_HASH160";
     RawOutput.address := Some address;
     RawOutput.addresses := None;
     RawOutput.identityprimary := None;
     RawOutput.currencydefinition := None;
     RawOutput.script_reserve_balance := None;
     RawOutput.finalizeNotarization := None;
     RawOutput.crosschainimport := None;
     RawOutput.crosschainexport := None;
     RawOutput.identitycommitment := None;
     RawOutput.reservetransfer := None;
     RawOutput.pbaasNotarization := None;
     RawOutput.spentTxId := None;
     RawOutput.spentIndex := None;
     RawOutput.spentHeight := None |}.

(** An output carrying a cross-chain import with the given [valuein]. *)
Definition importOutput (vi : JsObject.t) : RawOutput.t :=
  {| RawOutput.satoshis := 0%float;
     RawOutput.script := Some "76a914";
     RawOutput.scriptAsm := Some "OP_DUP OP_HASH160";
     RawOutput.address := Some "RPlain";
     RawOutput.addresses := None;
     RawOutput.identityprimary := None;
     RawOutput.currencydefinition := None;
     RawOutput.script_reserve_balance := None;
     RawOutput.finalizeNotarization := None;
     RawOutput.crosschainimport := Some {| valuein := Some vi; valueinFriendly := None |};
     RawOutput.crosschainexport := None;
     RawOutput.identitycommitment := None;
     RawOutput.reservetransfer := None;
     RawOutput.pbaasNotarization := None;
     RawOutput.spentTxId := None;
     RawOutput.spentIndex := None;
     RawOutput.spentHeight := None |}.

Definition input (n : Z) : RawInput.t :=
  {| RawInput.prevTxId := Some "aa"; RawInput.outputIndex := Some n;
     RawInput.sequence := 4294967295; RawInput.script := Some "51";
     RawInput.scriptAsm := Some "OP_1"; RawInput.address := Some "RPlain";
     RawInput.addresses := None; RawInput.satoshis := 100000000%float |}.

(** A version-1 transaction with the given shape. *)
Definition tx (coinbase : bool) (height : Z) (inputs : list RawInput.t)
    (outputs : list RawOutput.t) : RawTx.t :=
  {| RawTx.hash := "f00d"; RawTx.version := 1; RawTx.locktime := 0;
     RawTx.coinbase := coinbase; RawTx.inputs := inputs; RawTx.outputs := outputs;
     RawTx.joinSplits := []; RawTx.blockHash := Some "b10c"; RawTx.height := height;
     RawTx.blockTimestamp := Some 1600000000;
     RawTx.outputSatoshis := 100000000%float;
     RawTx.inputSatoshis := 100010000%float;
     RawTx.feeSatoshis := 10000%float;
     RawTx.hex := "0100"; RawTx.fOverwintered := false;
     RawTx.nVersionGroupId := None; RawTx.nExpiryHeight := None;
     RawTx.valueBalance := None; RawTx.spendDescs := None;
     RawTx.outputDescs := None; RawTx.bindingSig := None |}.

Definition options : Options :=
  {| noScriptSig := false; noAsm := false; noSpent := false |}.

(** A cross-chain import of 100 from iAAA and 50 from iBBB. *)
Definition importTx : RawTx.t :=
  tx false 100 [input 0]
     [importOutput [("iAAA", JNumber 100); ("iBBB", JNumber 50)]].

(** A cross-chain import of 100 from iAAA and 50 from iCCC, which are
    both registered as alice. *)
Definition sameNameTx : RawTx.t :=
  tx false 100 [input 0]
     [importOutput [("iAAA", JNumber 100); ("iCCC", JNumber 50)]].


(** A fee-pool output whose script decodes to amounts of iDDD and iAAA. *)
Definition feePoolTx : RawTx.t :=
  tx false 100 [input 0] [output 123456789; outputTo FEE_POOL_ADDRESS "c0ffee"].

(** A fee-pool output whose script decodes to an amount of iEEE, the
    identity whose registered name is "@". *)
Definition emptyNameTx : RawTx.t :=
  tx false 100 [input 0] [outputTo FEE_POOL_ADDRESS "c0ffee00"].

(** A fee-pool output whose script the node cannot decode. *)
Definition failedDecodeTx : RawTx.t :=
  tx false 100 [input 0] [output 123456789; outputTo FEE_POOL_ADDRESS "bad"].

(** A coinbase record with two inputs. *)
Definition coinbaseTx : RawTx.t :=
  tx true 100 [input 0; input 1] [output 123456789].

(** A transaction that is not in a block yet. *)
Definition unconfirmedTx : RawTx.t :=
  tx false (-1) [input 0] [output 123456789].

End Demo.

(** ** Vocabulary of the properties *)

(** An identity address: a string that starts with "i". *)
Definition isIdentityAddress (a : string) : Prop := JsString.startsWith a "i" = true.

(** What [iAddressesToResolve] is at every point: identity addresses, each once. *)
Definition Collected (l : list string) : Prop :=
  NoDup l /\ Forall isIdentityAddress l.

(** An output flagged for script decode. *)
Definition flagged (v : Vout.t) : Prop :=
  OutputFields.needsScriptDecode (Vout.fields v) = true.

(** The entry a resolution leaves in [resolutions]. *)
Definition logged (r : NameResult) : string * Name := (iAddress r, friendlyName r).

(** The resolutions of [a] among the entries [l] of [resolutions]. *)
Definition resolutionsOf (a : string) (l : list (string * Name)) : list (string * Name) :=
  filter (fun e => e.1 = a) l.

(** The key under which the merge pass files an address that resolved to [n]. *)
Definition keyFor (a : string) (n : Name) : string :=
  if Name.truthy n then Name.toKey n else a.

(** The stages of one run of [enrich] on the outputs [vout], started
    from the controller [c]. *)
Section Stages.
Context {World : Type} `{!Externals World}.
Implicit Types (vout : list Vout.t) (c : Controller World).

(** The decoding pass over the flagged outputs. *)
Definition decodePass vout c := asyncMap (decodeOne vout) (scan vout).2 c.

(** The first resolution wave, over the addresses the scan collected. *)
Definition firstWave vout c := asyncMap resolveOne (scan vout).1 (decodePass vout c).2.

(** Outputs and [iAddressesToResolve] after the decoded items are applied. *)
Definition expansion vout c :=
  foldl expandItem (vout, (scan vout).1) (decodePass vout c).1.

(** The addresses found only by decoding. *)
Definition newAddresses vout c : list string :=
  drop (length (scan vout).1) (expansion vout c).2.

(** The second resolution wave. *)
Definition secondWave vout c :=
  asyncMap resolveOne (newAddresses vout c) (firstWave vout c).2.

(** [nameMapping] of the merge pass. *)
Definition nameMappingOf vout c : gmap string Name :=
  buildNameMapping ((firstWave vout c).1 ++ (secondWave vout c).1)%list.

(** The node as it is when the request for the flagged output that
    follows the flagged outputs [pre] is sent. *)
Definition worldBefore vout (pre : list nat) c : World :=
  world (asyncMap (decodeOne vout) pre c).2.

(** The item the decoding pass produces for the flagged output [j]
    that follows the flagged outputs [pre]. *)
Definition itemFor vout (pre : list nat) (j : nat) c : DecodedItem :=
  (decodeOne vout j (asyncMap (decodeOne vout) pre c).2).1.
End Stages.

(** The key under which the merge pass files the address [a] when the
    resolutions of the run are [resolved]: the name called back for [a];
    for an address that was not resolved, what the empty object
    [nameMapping] inherits under that name, and else the address. *)
Definition filedUnder (resolved : list (string * Name)) (a : string) : string :=
  match resolutionsOf a resolved with
  | (_, n) :: _ => keyFor a n
  | [] => if JsProto.member a then Name.toKey (Inherited a) else a
  end.

(** ** The controller over the life of the process

    The resolver is asynchronous: between its cache test (line 35) and
    the handling of the node's reply (lines 40-68) other callbacks of the
    process run, among them other resolutions of the same address
    ([async.map] over the transforms of a list, line 679).  The life of
    a controller is a sequence of events, each of which runs to
    completion.  The process has several controllers ([index.js] lines
    63 and 239, [addresses.js] line 12), each with a cache of its own;
    what the others do to the node is a change of the node. *)

Record Process {World : Type} := {
  controller : Controller World;
  (** the [getIdentity] requests sent and not answered yet *)
  inFlight : gmultiset string
}.
Arguments Process World : clear implicits.

Inductive Event {World : Type} :=
(** [getIdentityFriendlyName(iAddress, ...)] is called: lines 31-40 *)
| Begins (iAddress : string)
(** the node's answer to a request for [iAddress] is handled: lines 40-68 *)
| Answers (iAddress : string)
(** a [decodeScript] request is sent and answered *)
| Decodes (scriptHex : option string)
(** the node changes on its own, or serves someone else *)
| NodeChanges (change : World -> World).
Arguments Event World : clear implicits.

(** The event is part of a resolution of [a]. *)
Definition about {World : Type} (a : string) (e : Event World) : bool :=
  match e with
  | Begins b | Answers b => String.eqb b a
  | _ => false
  end.

Section Lifetime.
Context {World : Type} `{!Externals World}.

Definition sent (call : IoCall) (c : Controller World) : Controller World :=
  {| identityNameCache := identityNameCache c; world := world c;
     io := (io c ++ [call])%list; resolutions := resolutions c |}.

Definition atNode (w : World) (c : Controller World) : Controller World :=
  {| identityNameCache := identityNameCache c; world := w;
     io := io c; resolutions := resolutions c |}.

(** Lines 31-40: the cache is tested; a hit is called back at once, a
    miss sends the request and returns. *)
Definition begins (iAddress : string) (p : Process World) : Process World :=
  let c := controller p in
  match JsProto.getString (identityNameCache c) iAddress with
  | Some cached =>
      {| controller := (noteResolution iAddress cached c).2; inFlight := inFlight p |}
  | None =>
      {| controller := sent (IoGetIdentity iAddress) c;
         inFlight := {[+ iAddress +]} ⊎ inFlight p |}
  end.

(** Lines 40-68, for one of the requests in flight: the node answers as
    it is now. *)
Definition answers (iAddress : string) (p : Process World) : Process World :=
  if bool_decide (iAddress ∈ inFlight p) then
    let c := controller p in
    let '(reply, w) := bitcoind_getIdentity iAddress (world c) in
    let '(r, c') := onIdentity iAddress reply (atNode w c) in
    {| controller := (noteResolution iAddress (cb_value r) c').2;
       inFlight := inFlight p ∖ {[+ iAddress +]} |}
  else p.

Definition step (p : Process World) (e : Event World) : Process World :=
  match e with
  | Begins a => begins a p
  | Answers a => answers a p
  | Decodes scriptHex =>
      {| controller := (decodeScript scriptHex (controller p)).2; inFlight := inFlight p |}
  | NodeChanges change =>
      {| controller := atNode (change (world (controller p))) (controller p);
         inFlight := inFlight p |}
  end.

Definition run (p : Process World) (events : list (Event World)) : Process World :=
  foldl step p events.

(** The resolutions called back while the controller went from [c] to [c']. *)
Definition calledBack (c c' : Controller World) : list (string * Name) :=
  drop (length (resolutions c)) (resolutions c').

(** The controller gets from [c] to [c'] by a sequence of events that
    leaves no request behind. *)
Definition Scheduled (c c' : Controller World) : Prop :=
  forall X : gmultiset string,
    exists events : list (Event World),
      run {| controller := c; inFlight := X |} events
      = {| controller := c'; inFlight := X |}.

(** The cache serves the name [n] for [a], and no request for [a] is in flight. *)
Definition Settled (a : string) (n : Name) (p : Process World) : Prop :=
  JsProto.getString (identityNameCache (controller p)) a = Some n /\ a ∉ inFlight p.

(** The cache has no name for [a], and exactly one request for [a] is in flight. *)
Definition Asked (a : string) (p : Process World) : Prop :=
  JsProto.getString (identityNameCache (controller p)) a = None /\
  multiplicity a (inFlight p) = 1%nat.
End Lifetime.

(** [m] is a friendly-keyed copy of [source] under the naming [nameOf]:
    under a key stands the amount of the last-enumerated address that
    [nameOf] files under it, and nothing stands under ["__proto__"]. *)
Definition KeyedBy (nameOf : string -> string) (source : JsObject.t)
    (m : gmap string Json) : Prop :=
  forall (k : string) (amount : Json),
    m !! k = Some amount <->
    k <> "__proto__" /\
    exists (i : nat) (a : string),
      source !! i = Some (a, amount) /\ nameOf a = k /\
      forall (i' : nat) (a' : string) (amount' : Json),
        (i < i')%nat -> source !! i' = Some (a', amount') -> nameOf a' <> k.


(** A raw transaction the node can hand over: a coinbase has its input. *)
Definition wellFormed (transaction : RawTx.t) : Prop :=
  RawTx.coinbase transaction = true -> RawTx.inputs transaction <> [].


(** ** What the spec says, in its own words *)

(** "Strip exactly one trailing [suffix] if present": [r] is [s] without
    its final [suffix] when [s] ends with it, and [s] itself otherwise. *)
Definition StripOne (suffix s r : string) : Prop :=
  (exists p, s = p ++ suffix /\ r = p) \/
  ((forall p, s <> p ++ suffix) /\ r = s).

(** Cache idempotence as section 8 words it, for a node [E]: whenever a
    resolution looked the address up and the lookup succeeded, resolving
    the same address again sends nothing to the node and calls back the
    same name. *)
Definition cache_idempotence_as_stated {World : Type} (E : Externals World) : Prop :=
  forall (iAddress : string) (c : Controller World) ident w',
    JsProto.getString (identityNameCache c) iAddress = None ->
    bitcoind_getIdentity iAddress (world c) = (RpcOk ident, w') ->
    let first := getIdentityFriendlyName iAddress c in
    let second := getIdentityFriendlyName iAddress first.2 in
    io second.2 = io first.2 /\ cb_value second.1 = cb_value first.1.

(** The fee-pool property as section 8 words it, for a node [E]: the
    address found by decoding is resolved once, in the second wave, and
    the name that resolution called back is a key of the output's
    [currencyvaluesFriendly]. *)
Definition fee_pool_second_wave_as_stated {World : Type} (E : Externals World) : Prop :=
  forall (transaction : RawTx.t) (options : Options) (c : Controller World)
         (j : nat) (pre post : list nat) (d : Decoded.t) (fp : FeePool)
         (cv : JsObject.t) (a : string) (w' : World),
    wellFormed transaction ->
    let vout := mapOutputs transaction options in
    (scan vout).2 = (pre ++ j :: post)%list ->
    decodeTypeOf vout j = Some DecodeType.feepool ->
    client_decodeScript (scriptHexOf vout j) (worldBefore vout pre c)
      = (RpcOk {| result := Some d |}, w') ->
    Decoded.feepool d = Some fp ->
    currencyvalues fp = Some cv ->
    a ∈ JsObject.keys cv ->
    isIdentityAddress a ->
    a ∉ (scan vout).1 ->
    exists T c' wave1 wave2 n v fp' m,
      transformTransaction transaction options c = (Some (callback None T), c') /\
      resolutions c' = (resolutions c ++ wave1 ++ wave2)%list /\
      wave1.*1 = (scan vout).1 /\
      resolutionsOf a wave1 = [] /\
      resolutionsOf a wave2 = [(a, n)] /\
      Tx.vout T !! j = Some v /\
      Vout.feepool v = Some fp' /\
      currencyvaluesFriendly fp' = Some m /\
      is_Some (m !! Name.toKey n).

(** The parallel mapping as section 4.3 and the claim word it, for a
    node [E]: every address of [valuein] stands in [valueinFriendly]
    under its resolved name, or under itself when it has no resolution,
    with its amount. *)
Definition valueinFriendly_as_stated {World : Type} (E : Externals World) : Prop :=
  forall (transaction : RawTx.t) (options : Options) (c : Controller World)
         (j : nat) (output : RawOutput.t) (cci : CrossChainImport) (vi : JsObject.t),
    wellFormed transaction ->
    RawTx.outputs transaction !! j = Some output ->
    RawOutput.crosschainimport output = Some cci ->
    valuein cci = Some vi ->
    exists T c' v cci' m,
      transformTransaction transaction options c = (Some (callback None T), c') /\
      Tx.vout T !! j = Some v /\
      Vout.crosschainimport v = Some cci' /\
      valueinFriendly cci' = Some m /\
      forall (a : string) (amount : Json), (a, amount) ∈ vi ->
        (forall n, (a, n) ∈ calledBack c c' -> m !! Name.toKey n = Some amount) /\
        ((forall n, (a, n) ∉ calledBack c c') -> m !! a = Some amount).


(** ** Reading a decimal numeral *)

Definition digitValue (ch : ascii) : option Z :=
  let n := Z.of_nat (nat_of_ascii ch) in
  if (48 <=? n) && (n <=? 57) then Some (n - 48) else None.

(** The number a string of decimal digits denotes, read from the left. *)
Fixpoint readDigits (acc : Z) (s : string) : option Z :=
  match s with
  | EmptyString => Some acc
  | String ch s' =>
      match digitValue ch with
      | Some d => readDigits (10 * acc + d) s'
      | None => None
      end
  end.

(** A numeral without superfluous zeros in front: "0", or digits of
    which the first is not "0". *)
Definition canonical (whole : string) : bool :=
  match whole with
  | EmptyString => false
  | String ch rest => String.eqb whole "0" || negb (Ascii.eqb ch "0")
  end.

(** [n] is the fraction [num / den] rounded to the nearest integer,
    upwards when it lies halfway: [n - 1/2 <= num / den < n + 1/2]. *)
Definition Nearest (num den n : Z) : Prop :=
  2 * den * n <= 2 * num + den < 2 * den * (n + 1).

(** The magnitude of the double with mantissa [m] and exponent [e],
    [m * 2^e], as a fraction of integers. *)
Definition magnitudeNum (m : positive) (e : Z) : Z := Z.pos m * 2 ^ Z.max e 0.
Definition magnitudeDen (e : Z) : Z := 2 ^ Z.max (- e) 0.

(** ** More vocabulary of the transaction controller *)

(** An address the resolver has to look up: the test of line 35 fails for it. *)
Definition needsLookup (cache : gmap string string) (a : string) : bool :=
  match JsProto.getString cache a with
  | Some _ => false
  | None => true
  end.

(** The output at position [j] is flagged for script decode. *)
Definition flaggedAt (vout : list Vout.t) (j : nat) : bool :=
  match vout !! j with
  | Some v => OutputFields.needsScriptDecode (Vout.fields v)
  | None => false
  end.

(** The keys of an output's [valuein], in enumeration order. *)
Definition valueinKeys (v : Vout.t) : list string :=
  match prop (Vout.crosschainimport v) valuein with
  | Some vi => JsObject.keys vi
  | None => []
  end.

(** The addresses a decoded item names: the keys of a fee pool's
    [currencyvalues], the [currencyid] of an accepted notarization. *)
Definition decodedKeys (item : DecodedItem) : list string :=
  match type item with
  | Some DecodeType.feepool =>
      match prop (prop (decoded item) Decoded.feepool) currencyvalues with
      | Some cv => JsObject.keys cv
      | None => []
      end
  | Some DecodeType.acceptednotarization =>
      match JsString.truthy (prop (prop (decoded item) Decoded.acceptednotarization)
                                  currencyid) with
      | Some c => [c]
      | None => []
      end
  | _ => []
  end.

(** The identity addresses of [l] that are not among [seen], each at its
    first occurrence. *)
Fixpoint firstIdentities (seen l : list string) : list string :=
  match l with
  | [] => []
  | a :: l =>
      if JsString.startsWith a "i" && bool_decide (a ∉ seen)
      then a :: firstIdentities (a :: seen) l
      else firstIdentities seen l
  end.

(** What an output's decode results have to do with its declared type:
    each of [feepool], [acceptednotarization] and [p2shAddress] sits only
    on an output declared for it, and [isP2SH] goes with [p2shAddress]. *)
Definition Typed (v : Vout.t) : Prop :=
  let declared := OutputFields.scriptDecodeType (Vout.fields v) in
  (is_Some (Vout.feepool v) -> declared = Some DecodeType.feepool) /\
  (is_Some (Vout.acceptednotarization v) ->
     declared = Some DecodeType.acceptednotarization) /\
  (is_Some (Vout.p2shAddress v) -> declared = Some DecodeType.opreturn) /\
  (Vout.isP2SH v = true <-> is_Some (Vout.p2shAddress v)).

(** * The other handlers

    The rest of [lib/transactions.js], the address checks of
    [lib/addresses.js], the subscriptions of [lib/index.js] and the
    escaping that the three controllers share. *)

(** ** More JavaScript primitives *)

Module Js.

(** [s.split(sep)] for a one-character separator; [current] is the piece
    being read. *)
Fixpoint split_from (sep : ascii) (current s : string) : list string :=
  match s with
  | EmptyString => [current]
  | String ch rest =>
      if Ascii.eqb ch sep then current :: split_from sep "" rest
      else split_from sep (current ++ String ch "") rest
  end.

Definition split (sep : ascii) (s : string) : list string := split_from sep "" s.

(** [s.replace(/ch/g, by)] for a one-character pattern. *)
Fixpoint replaceAll (pattern : ascii) (replacement s : string) : string :=
  match s with
  | EmptyString => ""
  | String ch rest =>
      if Ascii.eqb ch pattern then replacement ++ replaceAll pattern replacement rest
      else String ch (replaceAll pattern replacement rest)
  end.

(** [arr.slice(start, stop)]: negative positions count from the end,
    positions are clamped to the array. *)
Definition slice {A : Type} (arr : list A) (start stop : Z) : list A :=
  let len := Z.of_nat (length arr) in
  let k := if start <? 0 then Z.max (len + start) 0 else Z.min start len in
  let final := if stop <? 0 then Z.max (len + stop) 0 else Z.min stop len in
  take (Z.to_nat (final - k)) (drop (Z.to_nat k) arr).

(** [arr.indexOf(x)], [None] for [-1]. *)
Fixpoint indexOf {A : Type} `{EqDecision A} (x : A) (arr : list A) : option nat :=
  match arr with
  | [] => None
  | y :: rest => if decide (y = x) then Some O else S <$> indexOf x rest
  end.

(** [arr.splice(index, 1)] *)
Definition splice1 {A : Type} (index : nat) (arr : list A) : list A := delete index arr.

(** [Math.ceil(n / d)] for integers [n >= 0] and [d > 0]. *)
Definition ceil_div (n d : Z) : Z := (n + d - 1) / d.

End Js.

(** The three replacements that precede the syntax highlighting
    (transactions.js line 560, addresses.js line 102). *)
Definition escapeHtml (json : string) : string :=
  Js.replaceAll ">" "&gt;" (Js.replaceAll "<" "&lt;" (Js.replaceAll "&" "&amp;" json)).

(** ** Detailed transactions

    [removeNullValues] (lines 533-546) on JSON values: arrays are mapped
    element by element; of an object the own properties whose value is
    not [null] are cleaned and assigned to a fresh [{}], in enumeration
    order; anything else is returned as it is. *)

(** [v === null] *)
Definition isNull (v : Json) : bool :=
  match v with
  | JNull => true
  | _ => false
  end.

(** [obj] has a property [k] of its own. *)
Definition hasOwn (k : string) (entries : list (string * Json)) : bool :=
  existsb (fun e => String.eqb e.1 k) entries.

Section Loops.
Variable removeNullValues : Json -> option Json.

(** [obj.map(item => this.removeNullValues(item))] *)
Fixpoint cleanItems (items : list Json) : option (list Json) :=
  match items with
  | [] => Some []
  | item :: rest =>
      match removeNullValues item, cleanItems rest with
      | Some r, Some rs => Some (r :: rs)
      | _, _ => None
      end
  end.

(** Lines 538-542, the loop over the properties: what [cleaned] has of
    its own at the end.  The assignment under "__proto__" runs the
    inherited setter and adds no property. *)
Fixpoint cleanEntries (entries : list (string * Json)) : option (list (string * Json)) :=
  match entries with
  | [] => Some []
  | (key, value) :: rest =>
      if isNull value then cleanEntries rest
      else
        match removeNullValues value, cleanEntries rest with
        | Some r, Some rs => Some (if String.eqb key "__proto__" then rs else (key, r) :: rs)
        | _, _ => None
        end
  end.
End Loops.

(** Lines 533-546; [None] when the code throws: on an object with a
    property [hasOwnProperty] of its own, [obj.hasOwnProperty(key)] calls
    a JSON value. *)
Fixpoint removeNullValues (obj : Json) : option Json :=
  match obj with
  | JArray items => JArray <$> cleanItems removeNullValues items
  | JObject entries =>
      if hasOwn "hasOwnProperty" entries then None
      else JObject <$> cleanEntries removeNullValues entries
  | _ => Some obj
  end.

(** ** Errors and node queries *)

(** An error object: what the node hands to a callback, an object
    literal [{message, code}] or [new Error(message)] (no [code]). *)
Module NodeError.
Record t := { message : string; code : option Z }.
End NodeError.

Inductive NodeResult (A : Type) : Type :=
| NodeFail (err : NodeError.t)
| NodeOk (value : A).
Arguments NodeFail {A} err.
Arguments NodeOk {A} value.

(** [summary] of [node.getAddressSummary]. *)
Module Summary.
Record t := {
  balance : float;
  totalReceived : float;
  totalSpent : float;
  unconfirmedBalance : float;
  unconfirmedAppearances : option Z;
  appearances : option Z;
  txids : option (list string);
  identityinfo : option Json;
  currencybalance : option Json;
  currencybalances : option Json
}.
End Summary.

(** [block] of [node.getBlockOverview]. *)
Record BlockOverview := { block_txids : list string }.

(** What the remaining handlers reach outside themselves. *)
Class Services (World : Type) := {
  (** the message of the error [new bitcore.Address(addr)] throws, if it throws *)
  Address_error : string -> option string;
  node_getAddressSummary : string -> World -> NodeResult Summary.t * World;
  node_getBlockOverview : string -> World -> NodeResult BlockOverview * World;
  node_getDetailedTransaction : string -> World -> NodeResult RawTx.t * World
}.

(** ** The address controller ([lib/addresses.js]) *)

Module AddressController.
Record t := {
  blockedAddresses : list string;
  protocolAddresses : list string
}.
End AddressController.

(** How a middleware ends: it answers the request or calls [next()]. *)
Inductive CheckResponse :=
| HandleErrors (err : NodeError.t)
| Status400 (error : string).

Inductive CheckOutcome :=
| Responded (response : CheckResponse)
| Next.

(** Answer of a sub-query handler. *)
Inductive SubQueryResponse :=
| SubQueryErrors (err : NodeError.t)
| Jsonp (value : float).

(** The four sub-queries ([param] of [addressSummarySubQuery]). *)
Module Param.
Inductive t := balanceSat | totalReceivedSat | totalSentSat | unconfirmedBalanceSat.
End Param.

(** [transformed] of [getAddressSummary] (lines 176-192). *)
Module AddressSummary.
Record t := {
  addrStr : string;
  balance : float;
  balanceSat : float;
  totalReceived : float;
  totalReceivedSat : float;
  totalSent : float;
  totalSentSat : float;
  unconfirmedBalance : float;
  unconfirmedBalanceSat : float;
  unconfirmedTxApperances : option Z;
  txApperances : option Z;
  transactions : option (list string);
  identityinfo : option Json;
  currencybalance : option Json;
  currencybalances : option Json
}.

(** [data[param]] *)
Definition get (data : t) (param : Param.t) : float :=
  match param with
  | Param.balanceSat => balanceSat data
  | Param.totalReceivedSat => totalReceivedSat data
  | Param.totalSentSat => totalSentSat data
  | Param.unconfirmedBalanceSat => unconfirmedBalanceSat data
  end.
End AddressSummary.

(** An unspent output as the node reports it, and as [transformUtxo] returns it. *)
Module Utxo.
Record arg := {
  arg_address : option string;
  arg_txid : option string;
  arg_outputIndex : option Z;
  arg_script : option string;
  arg_satoshis : float;
  arg_height : option Z;
  arg_timestamp : option Z
}.

Record t := {
  address : option string;
  txid : option string;
  vout : option Z;
  scriptPubKey : option string;
  amount : float;
  satoshis : float;
  height : option Z;
  confirmations : Z;
  ts : option Z
}.
End Utxo.

Section Addresses.
Context {World : Type} `{!Externals World} `{!Services World}.

(** Lines 47-49. *)
Definition isBlocked (self : AddressController.t) (address : string) : bool :=
  bool_decide (address ∈ AddressController.blockedAddresses self)
  || bool_decide (address ∈ AddressController.protocolAddresses self).

Definition mustIncludeAddress : NodeError.t :=
  {| NodeError.message := "Must include address"; NodeError.code := Some 1 |}.

(** An address the loop of [check] lets through. *)
Definition acceptable (self : AddressController.t) (a : string) : Prop :=
  isBlocked self a = false /\ Address_error a = None.

(** Lines 237-256, the loop of [check]. *)
Fixpoint checkEach (self : AddressController.t) (addresses : list string) : CheckOutcome :=
  match addresses with
  | [] => Next
  | addr :: rest =>
      if isBlocked self addr
      then Responded
             (Status400 "This address cannot be queried as it causes performance issues")
      else
        match Address_error addr with
        | Some e_message =>
            Responded (HandleErrors {| NodeError.message := "Invalid address: " ++ e_message;
                                       NodeError.code := Some 1 |})
        | None => checkEach self rest
        end
  end.

(** Lines 228-258.  The addresses are strings: a route parameter or the
    pieces of a [split]. *)
Definition check (self : AddressController.t) (addresses : list string) : CheckOutcome :=
  match addresses with
  | [] => Responded (HandleErrors mustIncludeAddress)
  | first :: _ =>
      if String.eqb first "" then Responded (HandleErrors mustIncludeAddress)
      else checkEach self addresses
  end.

(** Lines 213-216; [req.addr] is the address. *)
Definition checkAddr (self : AddressController.t) (addr : string) : CheckOutcome :=
  check self [addr].


(** Lines 169-196. *)
Definition getAddressSummary (address : string) (w : World)
  : NodeResult AddressSummary.t * World :=
  let '(reply, w') := node_getAddressSummary address w in
  match reply with
  | NodeFail err => (NodeFail err, w')
  | NodeOk summary =>
      (NodeOk
         {| AddressSummary.addrStr := address;
            AddressSummary.balance := (Summary.balance summary / JsNumber.e8)%float;
            AddressSummary.balanceSat := Summary.balance summary;
            AddressSummary.totalReceived := (Summary.totalReceived summary / JsNumber.e8)%float;
            AddressSummary.totalReceivedSat := Summary.totalReceived summary;
            AddressSummary.totalSent := (Summary.totalSpent summary / JsNumber.e8)%float;
            AddressSummary.totalSentSat := Summary.totalSpent summary;
            AddressSummary.unconfirmedBalance :=
              (Summary.unconfirmedBalance summary / JsNumber.e8)%float;
            AddressSummary.unconfirmedBalanceSat := Summary.unconfirmedBalance summary;
            AddressSummary.unconfirmedTxApperances := Summary.unconfirmedAppearances summary;
            AddressSummary.txApperances := Summary.appearances summary;
            AddressSummary.transactions := Summary.txids summary;
            AddressSummary.identityinfo := Summary.identityinfo summary;
            AddressSummary.currencybalance := Summary.currencybalance summary;
            AddressSummary.currencybalances := Summary.currencybalances summary |}, w')
  end.

(** Lines 151-167. *)
Definition addressSummarySubQuery (self : AddressController.t) (addr : string)
    (param : Param.t) (w : World) : SubQueryResponse * World :=
  if isBlocked self addr then (Jsonp 0, w)
  else
    let '(reply, w') := getAddressSummary addr w in
    match reply with
    | NodeFail err => (SubQueryErrors err, w')
    | NodeOk data => (Jsonp (AddressSummary.get data param), w')
    end.

(** A route [router.get(path, cacheShort(), checkAddr, handler)] of
    [setupRoutes] (index.js lines 264-267 and 324): the handler runs when
    the check calls [next()]. *)
Definition addrRoute {R : Type} (self : AddressController.t)
    (handler : string -> World -> R * World) (addr : string) (w : World)
  : (CheckResponse + R) * World :=
  match checkAddr self addr with
  | Responded response => (inl response, w)
  | Next => let '(r, w') := handler addr w in (inr r, w')
  end.

(** Lines 286-305; [height] is [bitcoind.height]. *)
Definition transformUtxo (height : Z) (utxoArg : Utxo.arg) : Utxo.t :=
  let confirmed :=
    match Utxo.arg_height utxoArg with
    | Some h => if 0 <? h then Some h else None
    | None => None
    end in
  {| Utxo.address := Utxo.arg_address utxoArg;
     Utxo.txid := Utxo.arg_txid utxoArg;
     Utxo.vout := Utxo.arg_outputIndex utxoArg;
     Utxo.scriptPubKey := Utxo.arg_script utxoArg;
     Utxo.amount := (Utxo.arg_satoshis utxoArg / JsNumber.e8)%float;
     Utxo.satoshis := Utxo.arg_satoshis utxoArg;
     Utxo.height := confirmed;
     Utxo.confirmations :=
       match confirmed with
       | Some h => height - h + 1
       | None => 0
       end;
     Utxo.ts :=
       match Utxo.arg_timestamp utxoArg with
       | Some 0 | None => None
       | Some t => Some t
       end |}.

End Addresses.

(** ** Listing the transactions of a block ([list], lines 615-662) *)

(** What [handleErrors] can be given by [list]. *)
Inductive Failure :=
| NodeFailure (err : NodeError.t)
| RpcFailure (err : RpcError).

(** How a step of a series ends: the code throws, the step calls back
    an error, or it calls back a value. *)
Inductive Step (A : Type) : Type :=
| Threw
| Stopped (err : Failure)
| Went (value : A).
Arguments Threw {A}.
Arguments Stopped {A} err.
Arguments Went {A} value.

Inductive ListResponse :=
| ListErrors (err : option Failure)
| ListJsonp (pagesTotal : Z) (txs : list Tx.t).

Section Listing.
Context {World : Type} `{!Externals World} `{!Services World}.

Abbreviation M := (@M World).

(** [async.mapSeries(l, f, cb)]: one element after the other, stopping
    at the first error. *)
Fixpoint mapSeries {A B : Type} (f : A -> M (Step B)) (l : list A) : M (Step (list B)) :=
  match l with
  | [] => ret (Went [])
  | a :: l' =>
      r <- f a ;;
      match r with
      | Threw => ret Threw
      | Stopped err => ret (Stopped err)
      | Went b =>
          rs <- mapSeries f l' ;;
          match rs with
          | Threw => ret Threw
          | Stopped err => ret (Stopped err)
          | Went bs => ret (Went (b :: bs))
          end
      end
  end.

(** The controller [c] facing the node in state [w]. *)
Definition withWorld (c : Controller World) (w : World) : Controller World :=
  {| identityNameCache := identityNameCache c; world := w; io := io c;
     resolutions := resolutions c |}.

(** A query of the node that leaves the controller alone. *)
Definition query {A : Type} (ask : World -> A * World) : M A :=
  fun c => let '(a, w) := ask (world c) in (a, withWorld c w).

Definition pageLength : Z := 10.

(** Lines 636-637: the transaction ids of page [page]. *)
Definition pageOf (txids : list string) (page : Z) : list string :=
  let start := page * pageLength in
  Js.slice txids start (start + pageLength).

(** Line 638. *)
Definition pagesTotalOf (txids : list string) : Z :=
  Js.ceil_div (Z.of_nat (length txids)) pageLength.

(** [transformTransaction(transaction, next)]: no options given. *)
Definition noOptions : Options :=
  {| noScriptSig := false; noAsm := false; noSpent := false |}.

(** Lines 643-650, the iteratee of the series. *)
Definition listOne (txid : string) : M (Step Tx.t) :=
  reply <- query (node_getDetailedTransaction txid) ;;
  match reply with
  | NodeFail err => ret (Stopped (NodeFailure err))
  | NodeOk transaction =>
      r <- transformTransaction transaction noOptions ;;
      match r with
      | None => ret Threw
      | Some cb =>
          match cb_err cb with
          | Some err => ret (Stopped (RpcFailure err))
          | None => ret (Went (cb_value cb))
          end
      end
  end.

(** Lines 624-662: [list] for a query with a block hash; [page] is
    [parseInt(req.query.pageNum) || 0], which is never undefined.  The
    result is [None] when the code throws before it answers. *)
Definition listBlock (blockHash : string) (page : Z) : M (option ListResponse) :=
  reply <- query (node_getBlockOverview blockHash) ;;
  match reply with
  | NodeFail err =>
      if bool_decide (NodeError.code err = Some (-5))
      then ret (Some (ListErrors None))
      else ret (Some (ListErrors (Some (NodeFailure err))))
  | NodeOk block =>
      let txids := pageOf (block_txids block) page in
      let pagesTotal := pagesTotalOf (block_txids block) in
      r <- mapSeries listOne txids ;;
      match r with
      | Threw => ret None
      | Stopped err => ret (Some (ListErrors (Some err)))
      | Went transformed => ret (Some (ListJsonp pagesTotal transformed))
      end
  end.

(** Going through [txids] from the controller [c]: each transaction is
    fetched from the node as it is then and transformed by the controller
    as it is then, with no options; [txs] are the results and [c'] is the
    controller at the end. *)
Inductive Listed : Controller World -> list string -> list Tx.t -> Controller World -> Prop :=
| Listed_nil c : Listed c [] [] c
| Listed_cons c txid txids transaction w T c1 txs c' :
    node_getDetailedTransaction txid (world c) = (NodeOk transaction, w) ->
    wellFormed transaction ->
    transformTransaction transaction noOptions (withWorld c w)
      = (Some (callback None T), c1) ->
    Listed c1 txids txs c' ->
    Listed c (txid :: txids) (T :: txs) c'.

End Listing.

(** ** Subscriptions ([lib/index.js], lines 362-402) *)

(** An [EventEmitter], known by its identity. *)
Definition Emitter := nat.

(** Lines 384-392.  The argument is an [EventEmitter]; for anything
    else [checkArgument] throws. *)
Definition subscribe (inv : list Emitter) (emitter : Emitter) : list Emitter :=
  match Js.indexOf emitter inv with
  | None => (inv ++ [emitter])%list
  | Some _ => inv
  end.

(** Lines 394-402. *)
Definition unsubscribe (inv : list Emitter) (emitter : Emitter) : list Emitter :=
  match Js.indexOf emitter inv with
  | Some index => Js.splice1 index inv
  | None => inv
  end.

(** Lines 362-367: who is sent the ['block'] event, with what. *)
Definition blockEventHandler (inv : list Emitter) (hashHex : string)
  : list (Emitter * string) :=
  (fun emitter => (emitter, hashHex)) <$> inv.

(** ** Vocabulary for the other handlers *)

(** No object inside [j], at any depth, has a property whose value is [null]. *)
Fixpoint nullFree (j : Json) : bool :=
  match j with
  | JArray items => forallb nullFree items
  | JObject entries =>
      (fix members (entries : list (string * Json)) : bool :=
         match entries with
         | [] => true
         | (_, value) :: rest => negb (isNull value) && nullFree value && members rest
         end) entries
  | _ => true
  end.

(** Some object inside [j], at any depth, has a property [k] of its own. *)
Fixpoint ownsKey (k : string) (j : Json) : bool :=
  match j with
  | JArray items => existsb (ownsKey k) items
  | JObject entries => hasOwn k entries || existsb (fun e => ownsKey k e.2) entries
  | _ => false
  end.

(** What [removeNullValues] returns for [j], when it returns: [r] has no
    [null]-valued property, no property "__proto__" and no property
    "hasOwnProperty" at any depth, and it is [j] itself exactly when [j]
    has no [null]-valued property and no property "__proto__". *)
Definition Cleaned (j r : Json) : Prop :=
  nullFree r = true /\
  ownsKey "__proto__" r = false /\
  ownsKey "hasOwnProperty" r = false /\
  (r = j <-> nullFree j = true /\ ownsKey "__proto__" j = false).

(** What the three replacements make of one character. *)
Definition escapeChar (ch : ascii) : string :=
  if Ascii.eqb ch "&" then "&amp;"
  else if Ascii.eqb ch "<" then "&lt;"
  else if Ascii.eqb ch ">" then "&gt;"
  else String ch "".

(** A text escaped character by character, in one pass. *)
Fixpoint escapeEach (s : string) : string :=
  match s with
  | EmptyString => ""
  | String ch rest => escapeChar ch ++ escapeEach rest
  end.

(** The character [ch] occurs in [s]. *)
Fixpoint occurs (ch : ascii) (s : string) : bool :=
  match s with
  | EmptyString => false
  | String c rest => Ascii.eqb c ch || occurs ch rest
  end.

(** What a client does to the subscriptions. *)
Inductive SubscriptionEvent :=
| Subscribes (emitter : Emitter)
| Unsubscribes (emitter : Emitter).

Definition applyEvent (inv : list Emitter) (event : SubscriptionEvent) : list Emitter :=
  match event with
  | Subscribes emitter => subscribe inv emitter
  | Unsubscribes emitter => unsubscribe inv emitter
  end.

(** The last thing [emitter] did in [events] was to subscribe. *)
Definition subscribedAfter (emitter : Emitter) (events : list SubscriptionEvent) : bool :=
  foldl (fun state event =>
           match event with
           | Subscribes e => if decide (e = emitter) then true else state
           | Unsubscribes e => if decide (e = emitter) then false else state
           end) false events.

(** ** The concrete node, continued

    The node knows two blocks and three transactions, of which one
    cannot be fetched, and one currency.  Addresses that start with "R"
    or "i" are valid. *)

Module DemoNode.


Definition missing : NodeError.t :=
  {| NodeError.message := "No such mempool or blockchain transaction";
     NodeError.code := Some (-5) |}.

Definition getBlockOverview (blockHash : string) (w : nat) : NodeResult BlockOverview * nat :=
  (if String.eqb blockHash "b10c" then NodeOk {| block_txids := ["f00d"; "dead"; "beef"] |}
   else if String.eqb blockHash "b10d" then NodeOk {| block_txids := ["f00d"; "beef"] |}
   else NodeFail {| NodeError.message := "Block not found"; NodeError.code := Some (-5) |},
   S w).

Definition getDetailedTransaction (txid : string) (w : nat) : NodeResult RawTx.t * nat :=
  (if String.eqb txid "f00d" then NodeOk Demo.importTx
   else if String.eqb txid "beef" then NodeOk Demo.feePoolTx
   else NodeFail missing,
   S w).

Definition summary : Summary.t :=
  {| Summary.balance := 250000000%float; Summary.totalReceived := 300000000%float;
     Summary.totalSpent := 50000000%float; Summary.unconfirmedBalance := 0%float;
     Summary.unconfirmedAppearances := Some 0; Summary.appearances := Some 2;
     Summary.txids := Some ["f00d"; "beef"]; Summary.identityinfo := None;
     Summary.currencybalance := None; Summary.currencybalances := None |}.

#[global] Instance services : Services nat := {|
  Address_error := fun a =>
    if JsString.startsWith a "R" || JsString.startsWith a "i" then None
    else Some "Checksum mismatch";
  node_getAddressSummary := fun _ w => (NodeOk summary, S w);
  node_getBlockOverview := getBlockOverview;
  node_getDetailedTransaction := getDetailedTransaction
|}.

(** An address controller that has read the registry of [Demo]. *)
Definition addresses : AddressController.t :=
  {| AddressController.blockedAddresses := ["RBlocked"];
     AddressController.protocolAddresses := [FEE_POOL_ADDRESS; NOTARIZATION_ADDRESS] |}.

(** A coinbase record that lacks its input. *)
Definition brokenCoinbaseTx : RawTx.t := Demo.tx true 100 [] [Demo.output 123456789].

(** An unspent output at [height]. *)
Definition utxo (height : Z) : Utxo.arg :=
  {| Utxo.arg_address := Some "RPlain"; Utxo.arg_txid := Some "f00d";
     Utxo.arg_outputIndex := Some 0; Utxo.arg_script := Some "76a914";
     Utxo.arg_satoshis := 123456789%float; Utxo.arg_height := Some height;
     Utxo.arg_timestamp := Some 1600000000 |}.

End DemoNode.

(** * Properties *)

(** ** Strings *)

Section StringFacts.

Lemma append_cons (ch : ascii) (a b : string) : String ch a ++ b = String ch (a ++ b).
Proof. reflexivity. Qed.

Lemma append_nil_l (a : string) : "" ++ a = a.
Proof. reflexivity. Qed.

Lemma length_append (a b : string) :
  String.length (a ++ b) = (String.length a + String.length b)%nat.
Proof. induction a as [|ch a IH]; simpl; [done | by rewrite IH]. Qed.

Lemma substring_0_all (s : string) : substring 0 (String.length s) s = s.
Proof. induction s as [|ch s IH]; simpl; [done | by rewrite IH]. Qed.

Lemma substring_0_append (a b : string) :
  substring 0 (String.length a) (a ++ b) = a.
Proof.
  induction a as [|ch a IH]; simpl.
  - by destruct b.
  - by rewrite IH.
Qed.

Lemma substring_skip_append (a b : string) :
  substring (String.length a) (String.length b) (a ++ b) = b.
Proof. induction a as [|ch a IH]; simpl; [apply substring_0_all | done]. Qed.

Lemma substring_split (s : string) (n : nat) :
  (n <= String.length s)%nat ->
  substring 0 n s ++ substring n (String.length s - n) s = s.
Proof.
  revert n. induction s as [|ch s IH]; intros [|n] Hn; simpl in *; try lia; try done.
  - by rewrite substring_0_all.
  - change (String ch (substring 0 n s ++ substring n (String.length s - n) s)
            = String ch s).
    f_equal. apply IH. lia.
Qed.

Lemma endsWith_spec (s suffix : string) :
  JsString.endsWith s suffix = true <-> exists p, s = p ++ suffix.
Proof.
  unfold JsString.endsWith. rewrite andb_true_iff, Nat.leb_le, String.eqb_eq. split.
  - intros [Hle Hsub].
    exists (substring 0 (String.length s - String.length suffix) s).
    pose proof (substring_split s (String.length s - String.length suffix)) as Hs.
    replace (String.length s - (String.length s - String.length suffix))%nat
      with (String.length suffix) in Hs by lia.
    rewrite Hsub in Hs. symmetry. apply Hs. lia.
  - intros [p ->]. rewrite length_append. split; [lia |].
    replace (String.length p + String.length suffix - String.length suffix)%nat
      with (String.length p) by lia.
    apply substring_skip_append.
Qed.

Lemma slice_neg_append (p suffix : string) :
  JsString.slice_neg (p ++ suffix) (String.length suffix) = p.
Proof.
  unfold JsString.slice_neg. rewrite length_append.
  replace (String.length p + String.length suffix - String.length suffix)%nat
    with (String.length p) by lia.
  apply substring_0_append.
Qed.

(** One suffix rule of the resolver does what the spec's words say. *)
Lemma strip_rule (suffix s : string) :
  StripOne suffix s
    (if JsString.endsWith s suffix
     then JsString.slice_neg s (String.length suffix) else s).
Proof.
  destruct (JsString.endsWith s suffix) eqn:E.
  - apply endsWith_spec in E as [p ->]. left. exists p.
    by rewrite slice_neg_append.
  - right. split; [|done]. intros p ->.
    assert (JsString.endsWith (p ++ suffix) suffix = true) by (apply endsWith_spec; eauto).
    congruence.
Qed.

Lemma stripSuffixes_spec (fn : string) :
  exists mid, StripOne "@" fn mid /\ StripOne ".VRSC" mid (stripSuffixes fn).
Proof.
  unfold stripSuffixes.
  exists (if JsString.endsWith fn "@" then JsString.slice_neg fn 1 else fn).
  split; [apply (strip_rule "@") | apply (strip_rule ".VRSC")].
Qed.

Lemma truthy_Some (o : option string) (s : string) :
  JsString.truthy o = Some s <-> o = Some s /\ s <> "".
Proof.
  unfold JsString.truthy. destruct o as [x|]; [|intuition congruence].
  destruct (String.eqb_spec x ""); intuition congruence.
Qed.

Lemma truthy_None (o : option string) :
  JsString.truthy o = None <-> o = None \/ o = Some "".
Proof.
  unfold JsString.truthy. destruct o as [x|]; [|intuition congruence].
  destruct (String.eqb_spec x ""); intuition congruence.
Qed.

End StringFacts.

(** ** Plain objects *)

Section ObjectFacts.

Lemma member_proto : JsProto.member "__proto__" = true.
Proof. reflexivity. Qed.

Lemma member_not_identity (k : string) :
  JsProto.member k = true -> JsString.startsWith k "i" = true -> k = "isPrototypeOf".
Proof.
  unfold JsProto.member, JsProto.members. intros Hm%bool_decide_eq_true Hi.
  repeat (apply elem_of_cons in Hm as [-> | Hm]; [by vm_compute in Hi || done |]).
  by apply elem_of_nil in Hm.
Qed.

Lemma getString_None (own : gmap string string) (k : string) :
  JsProto.getString own k = None <->
  own !! k = Some "" \/ (own !! k = None /\ JsProto.member k = false).
Proof.
  unfold JsProto.getString. destruct (own !! k) as [s|].
  - destruct (String.eqb_spec s ""); [subst|]; split; try done; eauto.
    intros [[= ->] | [? _]]; done.
  - destruct (JsProto.member k); split; try done; eauto. intros [? | [_ ?]]; done.
Qed.

Lemma getString_Text (own : gmap string string) (k s : string) :
  JsProto.getString own k = Some (Text s) <-> own !! k = Some s /\ s <> "".
Proof.
  unfold JsProto.getString. destruct (own !! k) as [x|].
  - destruct (String.eqb_spec x ""); [subst|]; split; try done.
    + by intros [[= <-] ?].
    + by intros [= ->].
    + by intros [[= ->] _].
  - destruct (JsProto.member k); split; try done; by intros [? _].
Qed.

Lemma getString_same (own own' : gmap string string) (k : string) :
  own' !! k = own !! k -> JsProto.getString own' k = JsProto.getString own k.
Proof. unfold JsProto.getString. by intros ->. Qed.

Lemma assign_insert {A : Type} (own : gmap string A) (k : string) (v : A) :
  k <> "__proto__" \/ is_Some (own !! k) -> JsProto.assign k v own = <[k := v]> own.
Proof.
  unfold JsProto.assign. intros [Hne | [x Hx]].
  - by destruct (String.eqb_spec k "__proto__").
  - rewrite Hx. rewrite bool_decide_eq_false_2 by done. by rewrite andb_false_r.
Qed.

Lemma assign_setter {A : Type} (own : gmap string A) (v : A) :
  own !! "__proto__" = None -> JsProto.assign "__proto__" v own = own.
Proof. unfold JsProto.assign. intros ->. by rewrite bool_decide_eq_true_2. Qed.

(** After a miss the assignment is an insertion. *)
Lemma assign_miss (own : gmap string string) (k v : string) :
  JsProto.getString own k = None -> JsProto.assign k v own = <[k := v]> own.
Proof.
  intros [Hown | [_ Hm]]%getString_None; apply assign_insert; [right; eauto | left].
  intros ->. by rewrite member_proto in Hm.
Qed.

Lemma lookup_assign_ne {A : Type} (own : gmap string A) (k k' : string) (v : A) :
  k <> k' -> JsProto.assign k v own !! k' = own !! k'.
Proof.
  intros Hne. unfold JsProto.assign.
  destruct (_ && _); [done |]. by rewrite lookup_insert_ne.
Qed.

Lemma lookup_assign_is_Some {A : Type} (own : gmap string A) (k k' : string) (v : A) :
  is_Some (own !! k') -> is_Some (JsProto.assign k v own !! k').
Proof.
  intros Hs. unfold JsProto.assign. destruct (_ && _); [done |].
  apply lookup_insert_is_Some. destruct (decide (k = k')); eauto.
Qed.

Lemma assign_no_proto {A : Type} (own : gmap string A) (k : string) (v : A) :
  own !! "__proto__" = None -> JsProto.assign k v own !! "__proto__" = None.
Proof.
  intros Hn. destruct (decide (k = "__proto__")) as [-> | Hne].
  - by rewrite assign_setter.
  - by rewrite lookup_assign_ne.
Qed.

End ObjectFacts.

(** ** Identity Name Resolver *)

Section ResolverRuns.
Context {World : Type} `{!Externals World}.
Implicit Types (c : Controller World) (iAddress : string).

(** The three ways a resolution can go. *)

Lemma resolve_hit iAddress c cached :
  JsProto.getString (identityNameCache c) iAddress = Some cached ->
  getIdentityFriendlyName iAddress c =
    (callback None cached,
     {| identityNameCache := identityNameCache c; world := world c; io := io c;
        resolutions := (resolutions c ++ [(iAddress, cached)])%list |}).
Proof.
  intros Hhit. unfold getIdentityFriendlyName, bind, readCache.
  rewrite Hhit. reflexivity.
Qed.

Lemma resolve_fail iAddress c err w' :
  JsProto.getString (identityNameCache c) iAddress = None ->
  bitcoind_getIdentity iAddress (world c) = (RpcFail err, w') ->
  getIdentityFriendlyName iAddress c =
    (callback None (Text iAddress),
     {| identityNameCache := identityNameCache c; world := w';
        io := (io c ++ [IoGetIdentity iAddress])%list;
        resolutions := (resolutions c ++ [(iAddress, Text iAddress)])%list |}).
Proof.
  intros Hmiss Hrpc. unfold getIdentityFriendlyName, bind, readCache, getIdentity.
  rewrite Hmiss, Hrpc. reflexivity.
Qed.

Lemma resolve_ok iAddress c ident w' :
  JsProto.getString (identityNameCache c) iAddress = None ->
  bitcoind_getIdentity iAddress (world c) = (RpcOk ident, w') ->
  getIdentityFriendlyName iAddress c =
    (callback None (Text (deriveFriendlyName iAddress ident)),
     {| identityNameCache :=
          <[iAddress := deriveFriendlyName iAddress ident]> (identityNameCache c);
        world := w';
        io := (io c ++ [IoGetIdentity iAddress])%list;
        resolutions :=
          (resolutions c ++ [(iAddress, Text (deriveFriendlyName iAddress ident))])%list |}).
Proof.
  intros Hmiss Hrpc.
  unfold getIdentityFriendlyName, bind, readCache, getIdentity, onIdentity, writeCache.
  rewrite Hmiss, Hrpc. unfold bind. simpl. by rewrite (assign_miss _ _ _ Hmiss).
Qed.

End ResolverRuns.

(** Case analysis on a resolution of [a] from [c]: cache hit, failed
    lookup, successful lookup; the call is rewritten to its outcome. *)
Ltac resolution_cases a c :=
  let Hcache := fresh "Hcache" in
  let Hrpc := fresh "Hrpc" in
  destruct (JsProto.getString (identityNameCache c) a) as [?cached|] eqn:Hcache;
  [ rewrite (resolve_hit _ _ _ Hcache)
  | destruct (bitcoind_getIdentity a (world c)) as [[?err|?ident] ?w'] eqn:Hrpc;
    [ rewrite (resolve_fail _ _ _ _ Hcache Hrpc)
    | rewrite (resolve_ok _ _ _ _ Hcache Hrpc) ] ].

Section ResolverFacts.
Context {World : Type} `{!Externals World}.
Implicit Types (c : Controller World) (iAddress : string).

(** A resolution never hands an error to its callback. *)
Lemma resolve_no_error iAddress c :
  cb_err (getIdentityFriendlyName iAddress c).1 = None.
Proof. resolution_cases iAddress c; done. Qed.

(** C3: on a successful lookup with a non-empty [identityinfo.friendlyname]
    the resolver removes one trailing "@" and then one trailing ".VRSC",
    so "bob.VRSC@", "bob@" and "bob.VRSC" all give "bob"; with no such
    field but a non-empty [identity.name] it returns that name as it is;
    with neither it returns the address. *)
Theorem C3_friendly_name_derivation iAddress c ident w' :
  JsProto.getString (identityNameCache c) iAddress = None ->
  bitcoind_getIdentity iAddress (world c) = (RpcOk ident, w') ->
  let fn := prop (prop ident identityinfo) friendlyname in
  let nm := prop (prop ident identity) name in
  exists resolved : string,
    cb_value (getIdentityFriendlyName iAddress c).1 = Text resolved /\
    (forall s, fn = Some s -> s <> "" ->
       (exists mid, StripOne "@" s mid /\ StripOne ".VRSC" mid resolved) /\
       (s = "bob.VRSC@" \/ s = "bob@" \/ s = "bob.VRSC" -> resolved = "bob")) /\
    (JsString.truthy fn = None -> forall s, nm = Some s -> s <> "" -> resolved = s) /\
    (JsString.truthy fn = None -> JsString.truthy nm = None -> resolved = iAddress).
Proof.
  intros Hmiss Hrpc. rewrite (resolve_ok _ _ _ _ Hmiss Hrpc). simpl.
  eexists. split; [reflexivity |].
  unfold deriveFriendlyName. repeat split.
  - assert (JsString.truthy (prop (prop ident identityinfo) friendlyname) = Some s)
      as -> by (by apply truthy_Some).
    apply stripSuffixes_spec.
  - assert (JsString.truthy (prop (prop ident identityinfo) friendlyname) = Some s)
      as -> by (by apply truthy_Some).
    by intros [-> | [-> | ->]].
  - intros -> s Hs Hne.
    by assert (JsString.truthy (prop (prop ident identity) name) = Some s)
      as -> by (by apply truthy_Some).
  - by intros -> ->.
Qed.

(** C4: when the lookup fails the resolver calls back the address itself
    with no error and leaves the cache as it was, so the next resolution
    of that address (from any state with the same cache entry) sends the
    lookup again; when the lookup succeeds the derived name is in the
    cache by the time the callback runs. *)
Theorem C4_failure_not_cached_success_cached iAddress c :
  JsProto.getString (identityNameCache c) iAddress = None ->
  let '(r, c') := getIdentityFriendlyName iAddress c in
  cb_err r = None /\
  match (bitcoind_getIdentity iAddress (world c)).1 with
  | RpcFail _ =>
      cb_value r = Text iAddress /\
      identityNameCache c' = identityNameCache c /\
      (forall later : Controller World,
         identityNameCache later !! iAddress = identityNameCache c' !! iAddress ->
         io (getIdentityFriendlyName iAddress later).2
           = (io later ++ [IoGetIdentity iAddress])%list)
  | RpcOk ident =>
      cb_value r = Text (deriveFriendlyName iAddress ident) /\
      identityNameCache c' =
        <[iAddress := deriveFriendlyName iAddress ident]> (identityNameCache c) /\
      identityNameCache c' !! iAddress = Some (deriveFriendlyName iAddress ident)
  end.
Proof.
  intros Hmiss.
  destruct (bitcoind_getIdentity iAddress (world c)) as [[err|ident] w'] eqn:Hrpc.
  - rewrite (resolve_fail _ _ _ _ Hmiss Hrpc). simpl. repeat split.
    intros later Hsame.
    assert (JsProto.getString (identityNameCache later) iAddress = None) as Hlater
      by (by rewrite (getString_same _ _ _ Hsame)).
    destruct (bitcoind_getIdentity iAddress (world later)) as [[e2|i2] w2] eqn:Hrpc2.
    + by rewrite (resolve_fail _ _ _ _ Hlater Hrpc2).
    + by rewrite (resolve_ok _ _ _ _ Hlater Hrpc2).
  - rewrite (resolve_ok _ _ _ _ Hmiss Hrpc). simpl. repeat split.
    apply lookup_insert_eq.
Qed.

End ResolverFacts.

(** ** Passes over a list *)

Section PassFacts.
Context {World : Type} `{!Externals World}.
Implicit Types (c : Controller World).

Lemma asyncMap_cons {A B} (f : A -> M B) (a : A) (l : list A) c :
  asyncMap f (a :: l) c =
    ((f a c).1 :: (asyncMap f l (f a c).2).1, (asyncMap f l (f a c).2).2).
Proof.
  simpl. unfold bind, ret. destruct (f a c) as [b c1]. simpl.
  by destruct (asyncMap f l c1).
Qed.

Lemma asyncMap_app {A B} (f : A -> M B) (l1 l2 : list A) c :
  asyncMap f (l1 ++ l2)%list c =
    (((asyncMap f l1 c).1 ++ (asyncMap f l2 (asyncMap f l1 c).2).1)%list,
     (asyncMap f l2 (asyncMap f l1 c).2).2).
Proof.
  revert c. induction l1 as [|a l1 IH]; intros c.
  - simpl. by destruct (asyncMap f l2 c).
  - change ((a :: l1) ++ l2)%list with (a :: (l1 ++ l2))%list.
    rewrite !asyncMap_cons, IH. done.
Qed.

Lemma asyncMap_length {A B} (f : A -> M B) (l : list A) c :
  length (asyncMap f l c).1 = length l.
Proof.
  revert c. induction l as [|a l IH]; intros c; [done |].
  rewrite asyncMap_cons. simpl. by rewrite IH.
Qed.

(** A property of the controller that one call preserves is preserved by the whole pass. *)
Lemma asyncMap_preserves {A B} (f : A -> M B) (P : Controller World -> Prop) (l : list A) c :
  (forall a c0, P c0 -> P (f a c0).2) -> P c -> P (asyncMap f l c).2.
Proof.
  intros Hf. revert c. induction l as [|a l IH]; intros c Hc; [done |].
  rewrite asyncMap_cons. simpl. apply IH, Hf, Hc.
Qed.

(** *** The decoding pass *)

Lemma decodeOne_run (vout : list Vout.t) (j : nat) c :
  decodeOne vout j c =
    ({| idx := j;
        decoded := match (client_decodeScript (scriptHexOf vout j) (world c)).1 with
                   | RpcFail _ => None
                   | RpcOk d => result d
                   end;
        type := decodeTypeOf vout j |},
     {| identityNameCache := identityNameCache c;
        world := (client_decodeScript (scriptHexOf vout j) (world c)).2;
        io := (io c ++ [IoDecodeScript (scriptHexOf vout j)])%list;
        resolutions := resolutions c |}).
Proof.
  unfold decodeOne, bind, decodeScript.
  by destruct (client_decodeScript _ _) as [[err|d] w].
Qed.

Lemma scriptsDecoded_asyncMap (vout : list Vout.t) (indices : list nat) :
  scriptsDecoded vout indices = asyncMap (decodeOne vout) indices.
Proof. by destruct indices. Qed.

Lemma decode_pass_idx (vout : list Vout.t) (indices : list nat) c :
  map idx (asyncMap (decodeOne vout) indices c).1 = indices.
Proof.
  revert c. induction indices as [|j indices IH]; intros c; [done |].
  rewrite asyncMap_cons. simpl. rewrite IH. by rewrite decodeOne_run.
Qed.

Lemma decode_pass_keeps (vout : list Vout.t) (indices : list nat) c :
  identityNameCache (asyncMap (decodeOne vout) indices c).2 = identityNameCache c /\
  resolutions (asyncMap (decodeOne vout) indices c).2 = resolutions c.
Proof.
  apply (asyncMap_preserves (decodeOne vout)
           (fun c' => identityNameCache c' = identityNameCache c /\
                      resolutions c' = resolutions c)); [|done].
  intros j c0 H0. by rewrite decodeOne_run.
Qed.

(** *** The resolution passes *)

Lemma namesResolved_asyncMap (addresses : list string) :
  namesResolved addresses = asyncMap resolveOne addresses.
Proof. by destruct addresses. Qed.

Lemma resolveOne_run (a : string) c :
  resolveOne a c =
    ({| iAddress := a; friendlyName := cb_value (getIdentityFriendlyName a c).1 |},
     (getIdentityFriendlyName a c).2).
Proof. unfold resolveOne, bind, ret. by destruct (getIdentityFriendlyName a c). Qed.

Lemma resolve_logs (a : string) c :
  resolutions (getIdentityFriendlyName a c).2 =
    (resolutions c ++ [(a, cb_value (getIdentityFriendlyName a c).1)])%list.
Proof. resolution_cases a c; done. Qed.

Lemma resolve_pass_addresses (addresses : list string) c :
  map iAddress (asyncMap resolveOne addresses c).1 = addresses.
Proof.
  revert c. induction addresses as [|a addresses IH]; intros c; [done |].
  rewrite asyncMap_cons. simpl. rewrite IH. by rewrite resolveOne_run.
Qed.

Lemma resolve_pass_logs (addresses : list string) c :
  resolutions (asyncMap resolveOne addresses c).2 =
    (resolutions c ++ map logged (asyncMap resolveOne addresses c).1)%list.
Proof.
  revert c. induction addresses as [|a addresses IH]; intros c.
  - simpl. by rewrite app_nil_r.
  - rewrite asyncMap_cons. simpl. rewrite IH, resolveOne_run. simpl.
    rewrite resolve_logs. by rewrite <- app_assoc.
Qed.
End PassFacts.

(** ** Scan pass *)

Section CollectFacts.

Lemma pushNew_prefix (acc : list string) (a : string) : acc `prefix_of` pushNew acc a.
Proof.
  unfold pushNew. destruct (_ && _); [by apply prefix_app_r | done].
Qed.

Lemma pushNew_collected (acc : list string) (a : string) :
  Collected acc -> Collected (pushNew acc a).
Proof.
  intros [Hnd Hi]. unfold pushNew.
  destruct (JsString.startsWith a "i") eqn:Ha; [|done].
  simpl. case_bool_decide as Hin; [|done]. split.
  - apply NoDup_app. split_and!; [done | | apply NoDup_singleton].
    intros x Hx ->%list_elem_of_singleton. done.
  - apply Forall_app. split; [done |]. by apply Forall_singleton.
Qed.

Lemma pushNew_elem (acc : list string) (a : string) :
  isIdentityAddress a -> a ∈ pushNew acc a.
Proof.
  intros Ha. unfold pushNew. rewrite Ha. simpl.
  destruct (decide (a ∈ acc)) as [Hin | Hin].
  - by rewrite bool_decide_eq_false_2 by (by intros ?).
  - rewrite bool_decide_eq_true_2 by done. set_solver.
Qed.

Lemma pushAll_prefix (keys acc : list string) : acc `prefix_of` foldl pushNew acc keys.
Proof.
  revert acc. induction keys as [|k keys IH]; intros acc; [done |].
  simpl. etrans; [apply (pushNew_prefix acc k) | apply IH].
Qed.

Lemma pushAll_collected (keys acc : list string) :
  Collected acc -> Collected (foldl pushNew acc keys).
Proof.
  revert acc. induction keys as [|k keys IH]; intros acc Hacc; [done |].
  simpl. by apply IH, pushNew_collected.
Qed.

Lemma pushAll_elem (keys acc : list string) (a : string) :
  a ∈ keys -> isIdentityAddress a -> a ∈ foldl pushNew acc keys.
Proof.
  revert acc. induction keys as [|k keys IH]; intros acc Hin Ha.
  - by apply elem_of_nil in Hin.
  - simpl. apply elem_of_cons in Hin as [-> | Hin]; [|by apply IH].
    eapply elem_of_prefix; [by apply pushNew_elem | apply pushAll_prefix].
Qed.

(** The scan, component by component. *)
Lemma scan_fold (entries : list (nat * Vout.t)) (addresses : list string) (indices : list nat) :
  foldl scanOutput (addresses, indices) entries =
    (foldl collectValuein addresses entries.*2,
     (indices ++ (filter (fun e => flagged e.2) entries).*1)%list).
Proof.
  revert addresses indices. induction entries as [|[j v] entries IH]; intros addresses indices.
  - simpl. by rewrite app_nil_r.
  - simpl. rewrite IH. f_equal. rewrite filter_cons.
    destruct (decide (flagged (j, v).2)) as [Hf | Hf]; unfold flagged in Hf; simpl in Hf.
    + rewrite Hf. simpl. by rewrite <- app_assoc.
    + apply not_true_is_false in Hf. by rewrite Hf.
Qed.

Lemma scan_indices (vout : list Vout.t) :
  (scan vout).2 = (filter (fun e => flagged e.2) (imap pair vout)).*1.
Proof. unfold scan. by rewrite scan_fold. Qed.

Lemma scan_addresses (vout : list Vout.t) :
  (scan vout).1 = foldl collectValuein [] vout.
Proof.
  unfold scan. rewrite scan_fold. simpl. f_equal.
  rewrite fmap_imap. rewrite (imap_ext _ (const id) vout) by done.
  by rewrite imap_const, list_fmap_id.
Qed.

Lemma scan_indices_NoDup (vout : list Vout.t) : NoDup (scan vout).2.
Proof.
  rewrite scan_indices.
  apply (sublist_NoDup _ ((imap pair vout).*1)).
  - rewrite fmap_imap.
    rewrite (imap_ext _ (fun j _ => id j) vout) by done.
    rewrite (imap_seq_0 vout id), list_fmap_id. apply NoDup_seq.
  - apply fmap_sublist, sublist_filter.
Qed.

Lemma scan_indices_flagged (vout : list Vout.t) (j : nat) :
  j ∈ (scan vout).2 <-> exists v, vout !! j = Some v /\ flagged v.
Proof.
  rewrite scan_indices, list_elem_of_fmap. split.
  - intros [[j' v] [-> [Hf Hin]%list_elem_of_filter]].
    apply elem_of_lookup_imap in Hin as (i & y & [= -> ->] & Hl). eauto.
  - intros (v & Hl & Hf). exists (j, v). split; [done |].
    apply list_elem_of_filter. split; [done |].
    by apply (elem_of_lookup_imap_2 pair).
Qed.

Lemma collectValuein_prefix (acc : list string) (v : Vout.t) :
  acc `prefix_of` collectValuein acc v.
Proof. unfold collectValuein. destruct (prop _ _); [apply pushAll_prefix | done]. Qed.

Lemma collectValuein_collected (acc : list string) (v : Vout.t) :
  Collected acc -> Collected (collectValuein acc v).
Proof.
  intros Hacc. unfold collectValuein.
  destruct (prop _ _); [by apply pushAll_collected | done].
Qed.

Lemma collect_prefix (vout : list Vout.t) (acc : list string) :
  acc `prefix_of` foldl collectValuein acc vout.
Proof.
  revert acc. induction vout as [|v vout IH]; intros acc; [done |].
  simpl. etrans; [apply (collectValuein_prefix acc v) | apply IH].
Qed.

Lemma collect_collected (vout : list Vout.t) (acc : list string) :
  Collected acc -> Collected (foldl collectValuein acc vout).
Proof.
  revert acc. induction vout as [|v vout IH]; intros acc Hacc; [done |].
  simpl. by apply IH, collectValuein_collected.
Qed.

Lemma Collected_nil : Collected [].
Proof. split; [apply NoDup_nil_2 | done]. Qed.

Lemma scan_addresses_collected (vout : list Vout.t) : Collected (scan vout).1.
Proof. rewrite scan_addresses. apply collect_collected, Collected_nil. Qed.

Lemma scan_addresses_elem (vout : list Vout.t) v cci vi (a : string) :
  v ∈ vout -> Vout.crosschainimport v = Some cci -> valuein cci = Some vi ->
  a ∈ JsObject.keys vi -> isIdentityAddress a -> a ∈ (scan vout).1.
Proof.
  intros Hl Hc Hv Hin Ha. rewrite scan_addresses. generalize (@nil string).
  induction vout as [|v' vout IH]; intros acc.
  - by apply elem_of_nil in Hl.
  - simpl. apply elem_of_cons in Hl as [<- | Hl]; [|by apply IH].
    eapply elem_of_prefix; [|apply collect_prefix].
    unfold collectValuein. rewrite Hc. simpl. rewrite Hv. by apply pushAll_elem.
Qed.

End CollectFacts.

(** ** Post-decode expansion *)

Section ExpandFacts.

Lemma expandOutput_fields (item : DecodedItem) (v : Vout.t) (a : list string) :
  Vout.fields (expandOutput item (v, a)).1 = Vout.fields v /\
  Vout.crosschainimport (expandOutput item (v, a)).1 = Vout.crosschainimport v.
Proof.
  unfold expandOutput.
  repeat (case_match; simpl in *; simplify_eq); done.
Qed.

Lemma expandOutput_prefix (item : DecodedItem) (v : Vout.t) (a : list string) :
  a `prefix_of` (expandOutput item (v, a)).2.
Proof.
  unfold expandOutput.
  repeat (case_match; simpl in *; simplify_eq);
    first [reflexivity | apply pushAll_prefix | apply pushNew_prefix].
Qed.

Lemma expandOutput_collected (item : DecodedItem) (v : Vout.t) (a : list string) :
  Collected a -> Collected (expandOutput item (v, a)).2.
Proof.
  intros Ha. unfold expandOutput.
  repeat (case_match; simpl in *; simplify_eq);
    first [done | by apply pushAll_collected | by apply pushNew_collected].
Qed.

(** A null payload changes nothing. *)
Lemma expandOutput_null (item : DecodedItem) (v : Vout.t) (a : list string) :
  decoded item = None -> expandOutput item (v, a) = (v, a).
Proof. intros Hd. unfold expandOutput. rewrite Hd. by destruct (type item) as [[]|]. Qed.

(** A decoded fee pool is attached and its identity addresses are collected. *)
Lemma expandOutput_feepool (item : DecodedItem) (v : Vout.t) (a : list string) d fp cv :
  type item = Some DecodeType.feepool -> decoded item = Some d ->
  Decoded.feepool d = Some fp -> currencyvalues fp = Some cv ->
  expandOutput item (v, a) = (set_feepool fp v, foldl pushNew a (JsObject.keys cv)).
Proof. intros Ht Hd Hf Hc. unfold expandOutput. rewrite Ht, Hd. simpl. by rewrite Hf, Hc. Qed.

Lemma expandItem_run (vouts : list Vout.t) (a : list string) (item : DecodedItem) (v : Vout.t) :
  vouts !! idx item = Some v ->
  expandItem (vouts, a) item =
    (<[idx item := (expandOutput item (v, a)).1]> vouts, (expandOutput item (v, a)).2).
Proof. intros Hl. unfold expandItem. rewrite Hl. by destruct (expandOutput item (v, a)). Qed.

Lemma expandItem_skip (vouts : list Vout.t) (a : list string) (item : DecodedItem) :
  vouts !! idx item = None -> expandItem (vouts, a) item = (vouts, a).
Proof. intros Hl. unfold expandItem. by rewrite Hl. Qed.

(** What one step of the expansion keeps. *)
Lemma expandItem_keeps (vouts : list Vout.t) (a : list string) (item : DecodedItem) :
  let r := expandItem (vouts, a) item in
  Vout.fields <$> r.1 = Vout.fields <$> vouts /\
  Vout.crosschainimport <$> r.1 = Vout.crosschainimport <$> vouts /\
  a `prefix_of` r.2 /\
  (Collected a -> Collected r.2) /\
  (forall j, j <> idx item -> r.1 !! j = vouts !! j).
Proof.
  destruct (vouts !! idx item) as [v|] eqn:Hl.
  - rewrite (expandItem_run _ _ _ _ Hl). cbv zeta. cbn [fst snd].
    destruct (expandOutput_fields item v a) as [Hf Hc].
    split_and!.
    + rewrite list_fmap_insert, Hf. apply list_insert_id. by rewrite list_lookup_fmap, Hl.
    + rewrite list_fmap_insert, Hc. apply list_insert_id. by rewrite list_lookup_fmap, Hl.
    + apply expandOutput_prefix.
    + apply expandOutput_collected.
    + intros j Hj. by rewrite list_lookup_insert_ne.
  - rewrite (expandItem_skip _ _ _ Hl). cbv zeta. cbn [fst snd]. by split_and!.
Qed.

Lemma expand_keeps (items : list DecodedItem) (vouts : list Vout.t) (a : list string) :
  let r := foldl expandItem (vouts, a) items in
  Vout.fields <$> r.1 = Vout.fields <$> vouts /\
  Vout.crosschainimport <$> r.1 = Vout.crosschainimport <$> vouts /\
  a `prefix_of` r.2 /\
  (Collected a -> Collected r.2) /\
  (forall j, j ∉ idx <$> items -> r.1 !! j = vouts !! j).
Proof.
  revert vouts a. induction items as [|item items IH]; intros vouts a.
  - cbv zeta. cbn [foldl fst snd]. by split_and!.
  - cbv zeta. cbn [foldl]. destruct (expandItem (vouts, a) item) as [vouts1 a1] eqn:E.
    pose proof (expandItem_keeps vouts a item) as H1. rewrite E in H1.
    cbv zeta in H1. cbn [fst snd] in H1.
    destruct H1 as (Hf1 & Hc1 & Hp1 & Hcol1 & Hj1).
    pose proof (IH vouts1 a1) as H2. cbv zeta in H2.
    destruct H2 as (Hf & Hc & Hp & Hcol & Hj).
    split_and!.
    + by rewrite Hf.
    + by rewrite Hc.
    + by etrans.
    + auto.
    + intros j Hnot. rewrite fmap_cons, not_elem_of_cons in Hnot.
      destruct Hnot as [Hne Hnot].
      rewrite Hj by done. by apply Hj1.
Qed.

(** The output an item belongs to, after the whole expansion, when no
    other item has the same index. *)
Lemma expand_at (pre post : list DecodedItem) (item : DecodedItem)
    (vouts : list Vout.t) (a : list string) (v : Vout.t) :
  idx item ∉ idx <$> pre -> idx item ∉ idx <$> post ->
  vouts !! idx item = Some v ->
  let before := foldl expandItem (vouts, a) pre in
  let r := foldl expandItem (vouts, a) (pre ++ item :: post) in
  r.1 !! idx item = Some (expandOutput item (v, before.2)).1 /\
  (expandOutput item (v, before.2)).2 `prefix_of` r.2.
Proof.
  intros Hpre Hpost Hl. cbv zeta. rewrite foldl_app. cbn [foldl].
  destruct (expand_keeps pre vouts a) as (_ & _ & _ & _ & Hj).
  specialize (Hj _ Hpre). rewrite Hl in Hj.
  destruct (foldl expandItem (vouts, a) pre) as [vouts1 a1]. cbn [fst snd] in *.
  rewrite (expandItem_run _ _ _ _ Hj).
  destruct (expand_keeps post (<[idx item:=(expandOutput item (v, a1)).1]> vouts1)
              (expandOutput item (v, a1)).2) as (_ & _ & Hp & _ & Hj2).
  split; [|done]. rewrite (Hj2 _ Hpost).
  apply list_lookup_insert_eq. by eapply lookup_lt_Some.
Qed.

End ExpandFacts.

(** ** Merge pass *)

Section MergeFacts.
Implicit Types (nm : gmap string Name) (o : JsObject.t).

Lemma friendly_keyFor nm (a : string) (n : Name) :
  nm !! a = Some n -> friendlyKey nm a = keyFor a n.
Proof.
  intros Hl. unfold friendlyKey, friendly, JsProto.get, keyFor. rewrite Hl.
  by destruct (Name.truthy n).
Qed.

Lemma friendly_unresolved nm (a : string) :
  nm !! a = None ->
  friendlyKey nm a = if JsProto.member a then Name.toKey (Inherited a) else a.
Proof.
  intros Hl. unfold friendlyKey, friendly, JsProto.get. rewrite Hl.
  by destruct (JsProto.member a).
Qed.

Lemma identity_not_proto (a : string) : isIdentityAddress a -> a <> "__proto__".
Proof. by intros Hi ->. Qed.

Lemma toKey_Inherited (member : string) : Name.toKey (Inherited member) <> "__proto__".
Proof.
  unfold Name.toKey. destruct (String.eqb member "__proto__"); [done |].
  intros Heq. apply (f_equal (fun s => String.get 0 s)) in Heq. by vm_compute in Heq.
Qed.

(** Only the name "__proto__" makes the key of an identity address "__proto__". *)
Lemma keyFor_proto (a : string) (n : Name) :
  isIdentityAddress a -> keyFor a n <> "__proto__" <-> n <> Text "__proto__".
Proof.
  intros Hi. unfold keyFor. destruct n as [s | member]; simpl.
  - destruct (String.eqb_spec s ""); simpl.
    + subst. split; [done |]. intros _. by apply identity_not_proto.
    + split; intros H ?; apply H; congruence.
  - split; [done |]. intros _. apply toKey_Inherited.
Qed.

Lemma buildNameMapping_snoc (names : list NameResult) (r : NameResult) :
  buildNameMapping (names ++ [r])%list
  = JsProto.assign (iAddress r) (friendlyName r) (buildNameMapping names).
Proof. unfold buildNameMapping. by rewrite foldl_app. Qed.

(** With every address resolved once, the mapping holds exactly the
    names the resolutions called back. *)
Lemma buildNameMapping_lookup (names : list NameResult) (a : string) (n : Name) :
  Collected (iAddress <$> names) ->
  buildNameMapping names !! a = Some n <-> (a, n) ∈ logged <$> names.
Proof.
  induction names as [|r names IH] using rev_ind; intros [Hnd Hid].
  - unfold buildNameMapping. simpl. rewrite lookup_empty. split; [done |].
    intros Hin. by apply elem_of_nil in Hin.
  - rewrite buildNameMapping_snoc, fmap_app, elem_of_app.
    rewrite fmap_app in Hnd, Hid. apply NoDup_app in Hnd as (Hnd & Hfresh & _).
    apply Forall_app in Hid as [Hid Hr]. simpl in Hr. apply Forall_cons in Hr as [Hr _].
    specialize (IH (conj Hnd Hid)). simpl. rewrite list_elem_of_singleton.
    rewrite assign_insert by (left; by apply identity_not_proto).
    destruct (decide (iAddress r = a)) as [<- | Hne].
    + rewrite lookup_insert_eq. split.
      * intros [= <-]. by right.
      * intros [Hin | [= <-]]; [|done]. exfalso.
        apply (Hfresh (iAddress r)); [|by apply list_elem_of_singleton].
        apply list_elem_of_fmap in Hin as (r' & [= Ha Hn] & Hin).
        apply list_elem_of_fmap. eauto.
    + rewrite lookup_insert_ne by done. rewrite IH. split; [by left |].
      intros [Hin | [= Ha _]]; [done | by subst].
Qed.

Lemma friendlyKeyed_snoc nm o (a : string) (v : Json) :
  friendlyKeyed nm (o ++ [(a, v)])%list
  = JsProto.assign (friendlyKey nm a) v (friendlyKeyed nm o).
Proof. unfold friendlyKeyed. by rewrite foldl_app. Qed.

(** The copy never has a property ["__proto__"] of its own. *)
Lemma friendlyKeyed_no_proto nm o : friendlyKeyed nm o !! "__proto__" = None.
Proof.
  induction o as [|[a0 v0] o IH] using rev_ind; [done |].
  rewrite friendlyKeyed_snoc. by apply assign_no_proto.
Qed.

Lemma friendlyKeyed_snoc_key nm o (a : string) (v : Json) :
  friendlyKey nm a <> "__proto__" ->
  friendlyKeyed nm (o ++ [(a, v)])%list = <[friendlyKey nm a := v]> (friendlyKeyed nm o).
Proof. intros Hne. rewrite friendlyKeyed_snoc. apply assign_insert. by left. Qed.

Lemma friendlyKeyed_snoc_proto nm o (a : string) (v : Json) :
  friendlyKey nm a = "__proto__" ->
  friendlyKeyed nm (o ++ [(a, v)])%list = friendlyKeyed nm o.
Proof.
  intros Heq. rewrite friendlyKeyed_snoc, Heq. apply assign_setter, friendlyKeyed_no_proto.
Qed.

(** The friendly-keyed copy, entry by entry: under a key stands the
    amount of the last-enumerated address filed under that key. *)
Lemma friendlyKeyed_lookup nm o (k : string) (v : Json) :
  friendlyKeyed nm o !! k = Some v <->
  k <> "__proto__" /\
  exists i a, o !! i = Some (a, v) /\ friendlyKey nm a = k /\
    forall i' a' v', (i < i')%nat -> o !! i' = Some (a', v') -> friendlyKey nm a' <> k.
Proof.
  destruct (decide (k = "__proto__")) as [-> | Hk].
  { rewrite friendlyKeyed_no_proto. split; [done | by intros [? _]]. }
  revert v. induction o as [|[a0 v0] o IH] using rev_ind; intros v.
  - unfold friendlyKeyed. simpl. rewrite lookup_empty. split; [done |].
    by intros (_ & i & a & Hl & _).
  - destruct (decide (friendlyKey nm a0 = k)) as [<- | Hne].
    + rewrite friendlyKeyed_snoc_key by done.
      rewrite lookup_insert_eq. split.
      * intros [= <-]. split; [done |]. exists (length o), a0. split_and!; [|done|].
        -- by rewrite lookup_app_r, Nat.sub_diag by lia.
        -- intros i' a' v' Hlt Hl. apply lookup_lt_Some in Hl.
           rewrite length_app in Hl. simpl in Hl. lia.
      * intros (_ & i & a & Hl & Hkey & Hlast).
        destruct (decide (i = length o)) as [-> | Hi].
        -- rewrite lookup_app_r, Nat.sub_diag in Hl by lia. simpl in Hl. by simplify_eq.
        -- exfalso. apply (Hlast (length o) a0 v0); [|by rewrite lookup_app_r, Nat.sub_diag by lia|done].
           apply lookup_lt_Some in Hl. rewrite length_app in Hl. simpl in Hl. lia.
    + rewrite friendlyKeyed_snoc, lookup_assign_ne by done. rewrite IH. split.
      * intros (_ & i & a & Hl & Hkey & Hlast). split; [done |].
        exists i, a. split_and!; [|done|].
        -- by apply lookup_app_l_Some.
        -- intros i' a' v' Hlt Hl'.
           destruct (decide (i' = length o)) as [-> | Hi].
           ++ rewrite lookup_app_r, Nat.sub_diag in Hl' by lia. simpl in Hl'. by simplify_eq.
           ++ apply (Hlast i' a' v' Hlt).
              rewrite lookup_app_l in Hl'; [done |].
              apply lookup_lt_Some in Hl'. rewrite length_app in Hl'. simpl in Hl'. lia.
      * intros (_ & i & a & Hl & Hkey & Hlast). split; [done |].
        destruct (decide (i = length o)) as [-> | Hi].
        -- rewrite lookup_app_r, Nat.sub_diag in Hl by lia. simpl in Hl. by simplify_eq.
        -- assert (i < length o)%nat as Hlt.
           { apply lookup_lt_Some in Hl. rewrite length_app in Hl. simpl in Hl. lia. }
           rewrite lookup_app_l in Hl by done.
           exists i, a. split_and!; [done..|].
           intros i' a' v' Hlt' Hl'. apply (Hlast i' a' v' Hlt').
           by apply lookup_app_l_Some.
Qed.

(** Every source entry leaves its key in the copy, unless the key is
    ["__proto__"]. *)
Lemma friendlyKeyed_key nm o (a : string) (v : Json) :
  (a, v) ∈ o -> friendlyKey nm a <> "__proto__" ->
  is_Some (friendlyKeyed nm o !! friendlyKey nm a).
Proof.
  induction o as [|[a0 v0] o IH] using rev_ind; intros Hin Hk.
  - by apply elem_of_nil in Hin.
  - rewrite friendlyKeyed_snoc. apply elem_of_app in Hin as [Hin | Hin].
    + apply lookup_assign_is_Some. auto.
    + apply list_elem_of_singleton in Hin as [= <- <-].
      rewrite assign_insert by (by left). rewrite lookup_insert_eq. eauto.
Qed.

Lemma friendlyKeyed_proto nm o (a : string) (v : Json) :
  friendlyKey nm a = "__proto__" -> friendlyKeyed nm o !! friendlyKey nm a = None.
Proof. intros ->. apply friendlyKeyed_no_proto. Qed.




Lemma friendlyKeyed_KeyedBy nm (source : JsObject.t) :
  KeyedBy (friendlyKey nm) source (friendlyKeyed nm source).
Proof. intros k amount. apply friendlyKeyed_lookup. Qed.


(** The two notions depend on the naming only at the keys of the source. *)
Lemma KeyedBy_ext (f g : string -> string) (source : JsObject.t) (m : gmap string Json) :
  (forall a, a ∈ JsObject.keys source -> f a = g a) ->
  KeyedBy f source m -> KeyedBy g source m.
Proof.
  intros Hext Hk k amount. rewrite (Hk k amount).
  assert (forall i a v, source !! i = Some (a, v) -> f a = g a) as Hat.
  { intros i a v Hl. apply Hext. apply list_elem_of_fmap. exists (a, v). split; [done |].
    by eapply list_elem_of_lookup_2. }
  split; intros (Hp & i & a & Hl & Hkey & Hlast); (split; [done |]); exists i, a;
    (split_and!; [done | | ]).
  - by rewrite <- (Hat _ _ _ Hl).
  - intros i' a' v' Hlt Hl'. rewrite <- (Hat _ _ _ Hl'). by eapply Hlast.
  - by rewrite (Hat _ _ _ Hl).
  - intros i' a' v' Hlt Hl'. rewrite (Hat _ _ _ Hl'). by eapply Hlast.
Qed.


End MergeFacts.

(** ** The resolution log *)

Section LogFacts.

Lemma resolutionsOf_app (a : string) (l1 l2 : list (string * Name)) :
  resolutionsOf a (l1 ++ l2) = (resolutionsOf a l1 ++ resolutionsOf a l2)%list.
Proof. apply filter_app. Qed.

Lemma resolutionsOf_none (a : string) (l : list (string * Name)) :
  a ∉ l.*1 -> resolutionsOf a l = [].
Proof.
  intros Hnot. unfold resolutionsOf. induction l as [|[b n] l IH]; [done |].
  rewrite fmap_cons, not_elem_of_cons in Hnot. destruct Hnot as [Hne Hnot].
  rewrite filter_cons_False by (intros Heq; apply Hne; by rewrite <- Heq). auto.
Qed.

(** An address that occurs once among the resolved ones has one resolution. *)
Lemma resolutionsOf_once (a : string) (l : list (string * Name)) :
  NoDup l.*1 -> a ∈ l.*1 -> exists n, resolutionsOf a l = [(a, n)].
Proof.
  induction l as [|[b n] l IH]; intros Hnd Hin.
  - by apply elem_of_nil in Hin.
  - rewrite fmap_cons in Hnd, Hin. apply NoDup_cons in Hnd as [Hb Hnd].
    unfold resolutionsOf in *. simpl in Hb, Hin.
    destruct (decide (b = a)) as [-> | Hne].
    + exists n. rewrite filter_cons_True by done. f_equal.
      by apply resolutionsOf_none.
    + rewrite filter_cons_False by done. apply IH; [done |].
      apply elem_of_cons in Hin as [? | ?]; [congruence | done].
Qed.

Lemma resolutionsOf_elem (a : string) (n : Name) (l : list (string * Name)) :
  (a, n) ∈ resolutionsOf a l <-> (a, n) ∈ l.
Proof. unfold resolutionsOf. rewrite list_elem_of_filter. simpl. tauto. Qed.

Lemma logged_fst (names : list NameResult) : (logged <$> names).*1 = iAddress <$> names.
Proof. by rewrite <- list_fmap_compose. Qed.

(** With every address resolved once, an address is filed under the key
    its resolution gives. *)
Lemma filedUnder_resolved (l : list (string * Name)) (a : string) (n : Name) :
  NoDup l.*1 -> (a, n) ∈ l -> filedUnder l a = keyFor a n.
Proof.
  intros Hnd Hin. unfold filedUnder.
  destruct (resolutionsOf_once a l Hnd) as [n' Hn'].
  { apply list_elem_of_fmap. by exists (a, n). }
  rewrite Hn'. apply resolutionsOf_elem in Hin. rewrite Hn' in Hin.
  by apply list_elem_of_singleton in Hin as [= ->].
Qed.

Lemma filedUnder_unresolved (l : list (string * Name)) (a : string) :
  a ∉ l.*1 ->
  filedUnder l a = if JsProto.member a then Name.toKey (Inherited a) else a.
Proof. intros Hnot. unfold filedUnder. by rewrite resolutionsOf_none. Qed.

End LogFacts.

(** ** One run of the orchestrator *)

Section EnrichFacts.
Context {World : Type} `{!Externals World}.
Implicit Types (vout : list Vout.t) (c : Controller World).

Lemma firstWave_addresses vout c : iAddress <$> (firstWave vout c).1 = (scan vout).1.
Proof. apply resolve_pass_addresses. Qed.

Lemma secondWave_addresses vout c :
  iAddress <$> (secondWave vout c).1 = newAddresses vout c.
Proof. apply resolve_pass_addresses. Qed.

Lemma expansion_prefix vout c : (scan vout).1 `prefix_of` (expansion vout c).2.
Proof. apply (expand_keeps (decodePass vout c).1 vout (scan vout).1). Qed.

Lemma expansion_collected vout c : Collected (expansion vout c).2.
Proof.
  apply (expand_keeps (decodePass vout c).1 vout (scan vout).1).
  apply scan_addresses_collected.
Qed.

Lemma expansion_split vout c :
  (expansion vout c).2 = ((scan vout).1 ++ newAddresses vout c)%list.
Proof.
  unfold newAddresses. destruct (expansion_prefix vout c) as [k ->].
  by rewrite drop_app_length.
Qed.

(** Every collected address is resolved once, in collection order. *)
Lemma waves_addresses vout c :
  iAddress <$> ((firstWave vout c).1 ++ (secondWave vout c).1)%list = (expansion vout c).2.
Proof.
  by rewrite fmap_app, firstWave_addresses, secondWave_addresses, expansion_split.
Qed.

Lemma bind_run {A B} (m : M A) (k : A -> M B) c :
  bind m k c = k (m c).1 (m c).2.
Proof. unfold bind. by destruct (m c). Qed.

Lemma expandAndResolve_run vout (addrs : list string) (items : list DecodedItem)
    (names : list NameResult) c :
  length names = length addrs ->
  let expanded := foldl expandItem (vout, addrs) items in
  let second := asyncMap resolveOne (drop (length addrs) expanded.2) c in
  expandAndResolve vout addrs items names c =
    ((expanded.1, (names ++ second.1)%list), second.2).
Proof.
  intros Hlen. cbv zeta. unfold expandAndResolve.
  destruct (expand_keeps items vout addrs) as (_ & _ & [k Hk] & _).
  destruct items as [|item items].
  - simpl. rewrite drop_all. simpl. unfold ret. by rewrite app_nil_r.
  - destruct (foldl expandItem (vout, addrs) (item :: items)) as [vout' addrs'].
    simpl in *. rewrite Hlen.
    destruct (length addrs <? length addrs')%nat eqn:Hlt.
    + rewrite bind_run. done.
    + apply Nat.ltb_ge in Hlt. rewrite drop_ge by done. simpl.
      unfold ret. by rewrite app_nil_r.
Qed.

(** One run of the orchestrator, stage by stage. *)
Lemma enrich_run vout c :
  enrich vout c =
    (applyNames (nameMappingOf vout c) <$> (expansion vout c).1, (secondWave vout c).2).
Proof.
  unfold enrich, nameMappingOf, secondWave, newAddresses, expansion, firstWave, decodePass.
  destruct (scan vout) as [addrs idxs]. cbn [fst snd].
  rewrite bind_run, scriptsDecoded_asyncMap.
  rewrite bind_run, namesResolved_asyncMap.
  rewrite bind_run, expandAndResolve_run by apply asyncMap_length.
  done.
Qed.

Lemma enrich_resolutions vout c :
  resolutions (enrich vout c).2 =
    (resolutions c ++ (logged <$> (firstWave vout c).1)
       ++ (logged <$> (secondWave vout c).1))%list.
Proof.
  rewrite enrich_run. simpl. unfold secondWave. rewrite resolve_pass_logs.
  unfold firstWave at 1. rewrite resolve_pass_logs.
  unfold decodePass. destruct (decode_pass_keeps vout (scan vout).2 c) as [_ ->].
  by rewrite <- app_assoc.
Qed.

Lemma enrich_calledBack vout c :
  calledBack c (enrich vout c).2
  = logged <$> ((firstWave vout c).1 ++ (secondWave vout c).1)%list.
Proof.
  unfold calledBack. by rewrite enrich_resolutions, drop_app_length, fmap_app.
Qed.

Lemma waves_NoDup vout c :
  NoDup (logged <$> ((firstWave vout c).1 ++ (secondWave vout c).1)%list).*1.
Proof. rewrite logged_fst, waves_addresses. apply expansion_collected. Qed.

(** The name mapping holds the names this run's resolutions called back. *)
Lemma nameMappingOf_lookup vout c (a : string) (n : Name) :
  nameMappingOf vout c !! a = Some n <-> (a, n) ∈ calledBack c (enrich vout c).2.
Proof.
  rewrite enrich_calledBack.
  apply buildNameMapping_lookup. rewrite waves_addresses.
  apply expansion_collected.
Qed.

Lemma nameMappingOf_resolved vout c (a : string) :
  a ∈ (expansion vout c).2 -> exists n, nameMappingOf vout c !! a = Some n.
Proof.
  rewrite <- waves_addresses. intros (r & -> & Hin)%list_elem_of_fmap.
  exists (friendlyName r). apply nameMappingOf_lookup. rewrite enrich_calledBack.
  apply list_elem_of_fmap. by exists r.
Qed.

Lemma nameMappingOf_identity vout c (a : string) (n : Name) :
  nameMappingOf vout c !! a = Some n -> isIdentityAddress a.
Proof.
  rewrite nameMappingOf_lookup, enrich_calledBack.
  intros (r & [= -> ->] & Hin)%list_elem_of_fmap.
  destruct (expansion_collected vout c) as [_ Hall].
  rewrite Forall_forall in Hall. apply Hall. rewrite <- waves_addresses.
  apply list_elem_of_fmap. by exists r.
Qed.

(** The merge pass files every address under the key the resolutions of
    the run give it. *)
Lemma friendlyKey_filedUnder vout c (a : string) :
  friendlyKey (nameMappingOf vout c) a = filedUnder (calledBack c (enrich vout c).2) a.
Proof.
  destruct (nameMappingOf vout c !! a) as [n|] eqn:Hn.
  - rewrite (friendly_keyFor _ _ _ Hn). apply nameMappingOf_lookup in Hn.
    symmetry. apply filedUnder_resolved; [|done].
    rewrite enrich_calledBack. apply waves_NoDup.
  - rewrite (friendly_unresolved _ _ Hn). symmetry. apply filedUnder_unresolved.
    intros ([a' n] & -> & Hin)%list_elem_of_fmap.
    apply nameMappingOf_lookup in Hin. simpl in Hn. congruence.
Qed.

Lemma enrich_fields vout c :
  Vout.fields <$> (enrich vout c).1 = Vout.fields <$> vout.
Proof.
  rewrite enrich_run. simpl. rewrite <- list_fmap_compose.
  rewrite (list_fmap_ext _ Vout.fields (expansion vout c).1 ) by done.
  apply (expand_keeps (decodePass vout c).1 vout (scan vout).1).
Qed.

(** *** The transformer *)

Lemma transformVin_wellFormed (transaction : RawTx.t) (options : Options) :
  wellFormed transaction -> is_Some (transformVin transaction options).
Proof.
  unfold wellFormed, transformVin. intros Hwf.
  destruct (RawTx.coinbase transaction); [|eauto].
  destruct (RawTx.inputs transaction); [by destruct Hwf | eauto].
Qed.

Lemma transform_run (transaction : RawTx.t) (options : Options) c vin :
  transformVin transaction options = Some vin ->
  let enriched := enrich (mapOutputs transaction options) c in
  transformTransaction transaction options c =
    (Some (callback None
             (finishTransformed transaction options
                (confirmationsOf transaction (bitcoind_height (world c)))
                vin enriched.1 (Date_now (world enriched.2)))),
     enriched.2).
Proof.
  intros Hvin. unfold transformTransaction, bind, readWorld. rewrite Hvin.
  simpl. destruct (enrich (mapOutputs transaction options) c) as [vout c']. done.
Qed.

Lemma transform_throws (transaction : RawTx.t) (options : Options) c :
  transformVin transaction options = None ->
  transformTransaction transaction options c = (None, c).
Proof.
  intros Hvin. unfold transformTransaction, bind, readWorld. by rewrite Hvin.
Qed.

End EnrichFacts.

(** ** The controller over the life of the process *)

Section LifetimeFacts.
Context {World : Type} `{!Externals World}.
Implicit Types (p : Process World) (c : Controller World) (a : string).

Lemma run_app p (l1 l2 : list (Event World)) : run p (l1 ++ l2) = run (run p l1) l2.
Proof. apply foldl_app. Qed.

Lemma run_snoc p (l : list (Event World)) (e : Event World) :
  run p (l ++ [e]) = step (run p l) e.
Proof. by rewrite run_app. Qed.

(** *** The sequential runs are runs of the process *)

Lemma Scheduled_refl c : Scheduled c c.
Proof. intros X. by exists []. Qed.

Lemma Scheduled_trans c1 c2 c3 : Scheduled c1 c2 -> Scheduled c2 c3 -> Scheduled c1 c3.
Proof.
  intros H12 H23 X. destruct (H12 X) as [l1 E1]. destruct (H23 X) as [l2 E2].
  exists (l1 ++ l2)%list. by rewrite run_app, E1.
Qed.

(** One resolution is its beginning and, after a miss, the answer. *)
Lemma resolution_scheduled a c : Scheduled c (getIdentityFriendlyName a c).2.
Proof.
  intros X. destruct (JsProto.getString (identityNameCache c) a) as [cached|] eqn:Hc.
  - exists [Begins a]. simpl. unfold begins. simpl. rewrite Hc.
    by rewrite (resolve_hit _ _ _ Hc).
  - exists [Begins a; Answers a]. simpl. unfold begins. simpl. rewrite Hc.
    unfold answers. simpl. rewrite bool_decide_eq_true_2 by multiset_solver.
    assert (({[+ a +]} ⊎ X) ∖ {[+ a +]} = X) as -> by multiset_solver.
    destruct (bitcoind_getIdentity a (world c)) as [[err|ident] w] eqn:Hrpc.
    + by rewrite (resolve_fail _ _ _ _ Hc Hrpc).
    + rewrite (resolve_ok _ _ _ _ Hc Hrpc). simpl.
      by rewrite (assign_miss _ _ _ Hc).
Qed.

Lemma decode_scheduled (vout : list Vout.t) (j : nat) c : Scheduled c (decodeOne vout j c).2.
Proof.
  intros X. exists [Decodes (scriptHexOf vout j)]. simpl. rewrite decodeOne_run.
  unfold decodeScript. by destruct (client_decodeScript _ _).
Qed.

Lemma asyncMap_scheduled {A B : Type} (f : A -> M B) (l : list A) c :
  (forall x c0, Scheduled c0 (f x c0).2) -> Scheduled c (asyncMap f l c).2.
Proof.
  intros Hf. revert c. induction l as [|x l IH]; intros c; [apply Scheduled_refl |].
  rewrite asyncMap_cons. simpl. eapply Scheduled_trans; [apply Hf | apply IH].
Qed.

Lemma resolveOne_scheduled a c : Scheduled c (resolveOne a c).2.
Proof. rewrite resolveOne_run. apply resolution_scheduled. Qed.

(** A transform is a sequence of events that leaves no request behind. *)
Lemma transform_scheduled (transaction : RawTx.t) (options : Options) c :
  Scheduled c (transformTransaction transaction options c).2.
Proof.
  destruct (transformVin transaction options) as [vin|] eqn:Hvin.
  - rewrite (transform_run _ _ _ _ Hvin). cbn [snd]. rewrite enrich_run. cbn [snd].
    unfold secondWave, firstWave, decodePass.
    eapply Scheduled_trans; [|apply asyncMap_scheduled, resolveOne_scheduled].
    eapply Scheduled_trans; [|apply asyncMap_scheduled, resolveOne_scheduled].
    apply asyncMap_scheduled, decode_scheduled.
  - rewrite (transform_throws _ _ _ Hvin). apply Scheduled_refl.
Qed.

(** *** What an event does to the cache and to the log *)

Lemma answers_run a p reply w :
  a ∈ inFlight p ->
  bitcoind_getIdentity a (world (controller p)) = (reply, w) ->
  answers a p =
    {| controller :=
         {| identityNameCache :=
              match reply with
              | RpcFail _ => identityNameCache (controller p)
              | RpcOk ident =>
                  JsProto.assign a (deriveFriendlyName a ident)
                    (identityNameCache (controller p))
              end;
            world := w; io := io (controller p);
            resolutions :=
              (resolutions (controller p)
                 ++ [(a, Text match reply with
                              | RpcFail _ => a
                              | RpcOk ident => deriveFriendlyName a ident
                              end)])%list |};
       inFlight := inFlight p ∖ {[+ a +]} |}.
Proof.
  intros Hin Hrpc. unfold answers. rewrite bool_decide_eq_true_2 by done.
  rewrite Hrpc. by destruct reply.
Qed.

Lemma answers_idle a p : a ∉ inFlight p -> answers a p = p.
Proof. intros Hnot. unfold answers. by rewrite bool_decide_eq_false_2. Qed.

(** The log only grows. *)
Lemma step_log p (e : Event World) :
  exists l, resolutions (controller (step p e)) = (resolutions (controller p) ++ l)%list.
Proof.
  destruct e as [a | a | hex | change]; simpl.
  - unfold begins. destruct (JsProto.getString _ _); simpl; [eauto |].
    exists []. by rewrite app_nil_r.
  - destruct (decide (a ∈ inFlight p)) as [Hin | Hnot].
    + destruct (bitcoind_getIdentity a (world (controller p))) as [reply w] eqn:Hrpc.
      rewrite (answers_run _ _ _ _ Hin Hrpc). simpl. eauto.
    + rewrite answers_idle by done. exists []. by rewrite app_nil_r.
  - unfold decodeScript. destruct (client_decodeScript _ _). simpl.
    exists []. by rewrite app_nil_r.
  - exists []. by rewrite app_nil_r.
Qed.

Lemma run_log p (events : list (Event World)) :
  exists l, resolutions (controller (run p events)) = (resolutions (controller p) ++ l)%list.
Proof.
  induction events as [|e events IH] using rev_ind.
  - exists []. by rewrite app_nil_r.
  - rewrite run_snoc. destruct IH as [l1 E1]. destruct (step_log (run p events) e) as [l2 E2].
    exists (l1 ++ l2)%list. by rewrite E2, E1, app_assoc.
Qed.

Lemma calledBack_app c c' (l : list (string * Name)) :
  resolutions c' = (resolutions c ++ l)%list -> calledBack c c' = l.
Proof. intros E. unfold calledBack. by rewrite E, drop_app_length. Qed.

(** An entry of the cache is never removed. *)
Lemma step_keeps_entries p (e : Event World) a :
  is_Some (identityNameCache (controller p) !! a) ->
  is_Some (identityNameCache (controller (step p e)) !! a).
Proof.
  intros Hs. destruct e as [b | b | hex | change]; simpl.
  - unfold begins. by destruct (JsProto.getString _ _).
  - destruct (decide (b ∈ inFlight p)) as [Hin | Hnot].
    + destruct (bitcoind_getIdentity b (world (controller p))) as [reply w] eqn:Hrpc.
      rewrite (answers_run _ _ _ _ Hin Hrpc). simpl.
      destruct reply; [done |]. by apply lookup_assign_is_Some.
    + by rewrite answers_idle.
  - unfold decodeScript. by destruct (client_decodeScript _ _).
  - done.
Qed.

(** A name the cache serves, with no request for its address in flight,
    is served after every event. *)
Lemma step_settled p (e : Event World) a (n : Name) :
  Settled a n p -> Settled a n (step p e).
Proof.
  intros [Hhit Hidle]. destruct e as [b | b | hex | change]; simpl.
  - unfold begins. destruct (JsProto.getString _ b) eqn:Hb; [done |].
    split; [done |]. simpl.
    assert (a <> b) as Hab by congruence.
    apply not_elem_of_multiplicity. apply not_elem_of_multiplicity in Hidle.
    by rewrite multiplicity_disj_union, multiplicity_singleton_ne, Hidle.
  - destruct (decide (b ∈ inFlight p)) as [Hin | Hnot]; [|by rewrite answers_idle].
    destruct (bitcoind_getIdentity b (world (controller p))) as [reply w] eqn:Hrpc.
    rewrite (answers_run _ _ _ _ Hin Hrpc).
    assert (b <> a) as Hba by (by intros ->).
    split; simpl;
      [|apply not_elem_of_multiplicity; apply not_elem_of_multiplicity in Hidle;
        rewrite multiplicity_difference; lia].
    destruct reply; [done |]. rewrite <- Hhit.
    apply getString_same. by apply lookup_assign_ne.
  - unfold decodeScript. by destruct (client_decodeScript _ _).
  - done.
Qed.

Lemma run_settled p (events : list (Event World)) a (n : Name) :
  Settled a n p -> Settled a n (run p events).
Proof.
  revert p. induction events as [|e events IH]; intros p Hs; [done |].
  simpl. by apply IH, step_settled.
Qed.

(** The requests only grow, and a settled address is not asked for. *)
Lemma step_io p (e : Event World) :
  exists l, io (controller (step p e)) = (io (controller p) ++ l)%list /\
    forall a n, Settled a n p -> IoGetIdentity a ∉ l.
Proof.
  destruct e as [b | b | hex | change]; simpl.
  - unfold begins. destruct (JsProto.getString _ b) as [cached|] eqn:Hb; simpl.
    + exists []. rewrite app_nil_r. split; [done |]. intros a n _. apply not_elem_of_nil.
    + eexists. split; [done |]. intros a n [Hhit _] Hin%list_elem_of_singleton.
      injection Hin as ->. congruence.
  - exists []. rewrite app_nil_r. split; [|intros a n _; apply not_elem_of_nil].
    destruct (decide (b ∈ inFlight p)) as [Hin | Hnot]; [|by rewrite answers_idle].
    destruct (bitcoind_getIdentity b (world (controller p))) as [reply w] eqn:Hrpc.
    by rewrite (answers_run _ _ _ _ Hin Hrpc).
  - unfold decodeScript. destruct (client_decodeScript _ _). simpl.
    eexists. split; [done |]. by intros a n _ Hin%list_elem_of_singleton.
  - exists []. rewrite app_nil_r. split; [done |]. intros a n _. apply not_elem_of_nil.
Qed.

Lemma run_settled_io p (events : list (Event World)) a (n : Name) :
  Settled a n p ->
  IoGetIdentity a ∉ drop (length (io (controller p))) (io (controller (run p events))).
Proof.
  intros Hs.
  assert (exists l, io (controller (run p events)) = (io (controller p) ++ l)%list /\
                    IoGetIdentity a ∉ l) as (l & -> & Hl).
  { induction events as [|e events IH] using rev_ind.
    - exists []. rewrite app_nil_r. split; [done | apply not_elem_of_nil].
    - destruct IH as (l1 & E1 & H1). rewrite run_snoc.
      destruct (step_io (run p events) e) as (l2 & E2 & H2).
      exists (l1 ++ l2)%list. rewrite E2, E1, app_assoc. split; [done |].
      apply not_elem_of_app. split; [done |]. apply (H2 a n). by apply run_settled. }
  by rewrite drop_app_length.
Qed.

(** Two resolutions of an address that both begin before the node has
    answered both miss the cache and both ask the node. *)
Lemma overlapping_resolutions_both_ask p a :
  JsProto.getString (identityNameCache (controller p)) a = None ->
  io (controller (run p [Begins a; Begins a]))
  = (io (controller p) ++ [IoGetIdentity a; IoGetIdentity a])%list.
Proof.
  intros Hmiss. simpl. unfold begins. simpl. rewrite Hmiss. simpl. rewrite Hmiss. simpl.
  by rewrite <- app_assoc.
Qed.

(** A miss with one request in flight stays so until something happens
    to that address. *)
Lemma step_asked p (e : Event World) a :
  about a e = false -> Asked a p -> Asked a (step p e).
Proof.
  intros Hother [Hmiss Hone]. destruct e as [b | b | hex | change]; simpl in *.
  - apply String.eqb_neq in Hother.
    unfold begins. destruct (JsProto.getString _ b) eqn:Hb; [done |].
    split; [done |]. simpl. rewrite multiplicity_disj_union, multiplicity_singleton_ne by done.
    done.
  - apply String.eqb_neq in Hother.
    destruct (decide (b ∈ inFlight p)) as [Hin | Hnot]; [|by rewrite answers_idle].
    destruct (bitcoind_getIdentity b (world (controller p))) as [reply w] eqn:Hrpc.
    rewrite (answers_run _ _ _ _ Hin Hrpc).
    split; simpl.
    + destruct reply; [done |]. rewrite <- Hmiss.
      apply getString_same. by apply lookup_assign_ne.
    + rewrite multiplicity_difference, multiplicity_singleton_ne by done. lia.
  - unfold decodeScript. by destruct (client_decodeScript _ _).
  - done.
Qed.

Lemma run_asked p (events : list (Event World)) a :
  Forall (fun e => about a e = false) events -> Asked a p -> Asked a (run p events).
Proof.
  revert p. induction events as [|e events IH]; intros p Hall Hs; [done |].
  apply Forall_cons in Hall as [He Hall]. simpl. by apply IH, step_asked.
Qed.

Lemma begins_asked p a :
  a ∉ inFlight p ->
  JsProto.getString (identityNameCache (controller p)) a = None ->
  Asked a (begins a p).
Proof.
  intros Hidle Hmiss. unfold begins. rewrite Hmiss. split; [done |]. simpl.
  rewrite multiplicity_disj_union, multiplicity_singleton.
  apply not_elem_of_multiplicity in Hidle. rewrite ?decide_True by done. lia.
Qed.

(** C1 (amended): let a resolution of an address by a controller start
    when no other resolution of that address is under way, miss the
    cache, and get from the node, while no further resolution of that
    address starts, an identity whose derived name is not empty.  Then
    that name is called back, and whatever happens afterwards on this
    controller and on the node, a resolution of that address by this
    controller calls back the same name at once, sends nothing to the
    node and leaves node and cache untouched. *)
Theorem C1_second_resolution_uses_cache (iAddress : string) p ident w'
    (during between : list (Event World)) :
  iAddress ∉ inFlight p ->
  JsProto.getString (identityNameCache (controller p)) iAddress = None ->
  Forall (fun e => about iAddress e = false) during ->
  bitcoind_getIdentity iAddress (world (controller (run (begins iAddress p) during)))
    = (RpcOk ident, w') ->
  deriveFriendlyName iAddress ident <> "" ->
  let asked := run (begins iAddress p) during in
  let first := answers iAddress asked in
  let later := run first between in
  let second := getIdentityFriendlyName iAddress (controller later) in
  calledBack (controller asked) (controller first)
    = [(iAddress, Text (deriveFriendlyName iAddress ident))] /\
  cb_value second.1 = Text (deriveFriendlyName iAddress ident) /\
  io second.2 = io (controller later) /\
  world second.2 = world (controller later) /\
  identityNameCache second.2 = identityNameCache (controller later) /\
  begins iAddress later = {| controller := second.2; inFlight := inFlight later |}.
Proof.
  intros Hidle Hmiss Hduring Hrpc Hne. cbv zeta.
  set (derived := deriveFriendlyName iAddress ident) in *.
  pose proof (run_asked _ during _ Hduring (begins_asked _ _ Hidle Hmiss)) as [Hmiss' Hone].
  set (asked := run (begins iAddress p) during) in *.
  assert (iAddress ∈ inFlight asked) as Hin by (apply elem_of_multiplicity; lia).
  rewrite (answers_run _ _ _ _ Hin Hrpc).
  set (first := {| controller := _; inFlight := inFlight asked ∖ {[+ iAddress +]} |}).
  assert (Settled iAddress (Text derived) first) as Hsettled.
  { split; simpl.
    - rewrite (assign_miss _ _ _ Hmiss'). apply getString_Text.
      by rewrite lookup_insert_eq.
    - apply not_elem_of_multiplicity.
      rewrite multiplicity_difference, multiplicity_singleton.
      rewrite ?decide_True by done. lia. }
  apply (run_settled _ between) in Hsettled as [Hhit _].
  split; [by apply calledBack_app |].
  rewrite (resolve_hit _ _ _ Hhit). simpl. split_and!; try done.
  unfold begins. by rewrite Hhit.
Qed.

End LifetimeFacts.

(** ** Numbers *)

Section NumberFacts.

Lemma length_substring (s : string) (n m : nat) :
  (n + m <= String.length s)%nat -> String.length (substring n m s) = m.
Proof.
  revert n m. induction s as [|ch s IH]; intros [|n] [|m] Hle; simpl in *;
    try done; try lia.
  - f_equal. apply (IH 0%nat). lia.
  - apply IH. lia.
  - apply IH. lia.
Qed.

Lemma length_zeros (k : nat) : String.length (JsNumber.zeros k) = k.
Proof. induction k as [|k IH]; simpl; [done | by rewrite IH]. Qed.

Lemma readDigits_uint_acc (d : Decimal.uint) (acc : positive) :
  readDigits (Z.pos acc) (NilEmpty.string_of_uint d) = Some (Z.pos (Pos.of_uint_acc d acc)).
Proof.
  revert acc. induction d; intros acc; [done | ..];
    cbn [NilEmpty.string_of_uint readDigits Pos.of_uint_acc];
    (change (digitValue _) with (Some 0) || change (digitValue _) with (Some 1)
     || change (digitValue _) with (Some 2) || change (digitValue _) with (Some 3)
     || change (digitValue _) with (Some 4) || change (digitValue _) with (Some 5)
     || change (digitValue _) with (Some 6) || change (digitValue _) with (Some 7)
     || change (digitValue _) with (Some 8) || change (digitValue _) with (Some 9));
    cbv iota; rewrite <- IHd; f_equal; lia.
Qed.

Lemma readDigits_uint (d : Decimal.uint) :
  readDigits 0 (NilEmpty.string_of_uint d) = Some (Z.of_N (Pos.of_uint d)).
Proof.
  induction d; [done | ..]; cbn [NilEmpty.string_of_uint readDigits Pos.of_uint];
    (change (digitValue _) with (Some 0) || change (digitValue _) with (Some 1)
     || change (digitValue _) with (Some 2) || change (digitValue _) with (Some 3)
     || change (digitValue _) with (Some 4) || change (digitValue _) with (Some 5)
     || change (digitValue _) with (Some 6) || change (digitValue _) with (Some 7)
     || change (digitValue _) with (Some 8) || change (digitValue _) with (Some 9));
    cbv iota; [exact IHd | ..]; apply (readDigits_uint_acc d).
Qed.

Lemma readDigits_digits (n : Z) :
  0 <= n -> readDigits 0 (JsNumber.digits n) = Some n.
Proof.
  intros Hn. unfold JsNumber.digits, NilZero.string_of_uint.
  assert (readDigits 0 (NilEmpty.string_of_uint (N.to_uint (Z.to_N n))) = Some n) as Hread.
  { rewrite readDigits_uint. change (Pos.of_uint ?d) with (N.of_uint d).
    rewrite DecimalN.Unsigned.of_to. f_equal. lia. }
  by destruct (N.to_uint (Z.to_N n)).
Qed.

Lemma readDigits_zeros (k : nat) (s : string) :
  readDigits 0 (JsNumber.zeros k ++ s) = readDigits 0 s.
Proof. induction k as [|k IH]; [done |]. simpl JsNumber.zeros. rewrite append_cons. exact IH. Qed.

Lemma scaled_nearest (f : nat) (x : float) (m : positive) (e : Z) :
  Prim2SF x = S754_finite false m e ->
  0 <= JsNumber.scaled f x /\
  Nearest (magnitudeNum m e * 10 ^ Z.of_nat f) (magnitudeDen e) (JsNumber.scaled f x).
Proof.
  intros Hx. unfold JsNumber.scaled, Nearest, magnitudeNum, magnitudeDen. rewrite Hx.
  assert (0 < 10 ^ Z.of_nat f) as Hten by (apply Z.pow_pos_nonneg; lia).
  destruct (Z.leb_spec 0 e) as [He | He].
  - rewrite (Z.max_l e 0), (Z.max_r (- e) 0) by lia. change (2 ^ 0) with 1.
    assert (0 < 2 ^ e) by (apply Z.pow_pos_nonneg; lia).
    replace (Z.pos m * 2 ^ e * 10 ^ Z.of_nat f) with (Z.pos m * 10 ^ Z.of_nat f * 2 ^ e)
      by ring.
    assert (0 <= Z.pos m * 10 ^ Z.of_nat f * 2 ^ e) by (apply Z.mul_nonneg_nonneg; nia).
    lia.
  - rewrite (Z.max_r e 0), (Z.max_l (- e) 0) by lia. change (2 ^ 0) with 1.
    rewrite Z.mul_1_r.
    set (num := Z.pos m * 10 ^ Z.of_nat f).
    assert (0 < 2 ^ (- e)) as Hd by (apply Z.pow_pos_nonneg; lia).
    assert (2 ^ (1 - e) = 2 * 2 ^ (- e)) as ->.
    { replace (1 - e) with (Z.succ (- e)) by lia. rewrite Z.pow_succ_r by lia. done. }
    set (D := 2 ^ (- e)) in *.
    assert (0 <= num) by (unfold num; nia).
    pose proof (Z.div_mod (2 * num + D) (2 * D) ltac:(lia)) as Hdm.
    pose proof (Z.mod_pos_bound (2 * num + D) (2 * D) ltac:(lia)) as Hb.
    split; [apply Z.div_pos; lia | nia].
Qed.

Lemma finite_not_nan (x : float) (s : bool) (m : positive) (e : Z) :
  Prim2SF x = S754_finite s m e -> PrimFloat.is_nan x = false.
Proof.
  intros Hx. unfold PrimFloat.is_nan. rewrite FloatAxioms.eqb_spec, Hx.
  unfold SFeqb, SFcompare. destruct s; rewrite Z.compare_refl, Pos.compare_cont_refl; done.
Qed.

Lemma finite_sign (x : float) (s : bool) (m : positive) (e : Z) :
  Prim2SF x = S754_finite s m e -> PrimFloat.ltb x 0 = s.
Proof.
  intros Hx. rewrite FloatAxioms.ltb_spec, Hx. change (Prim2SF 0) with (S754_zero false).
  by destruct s.
Qed.

Lemma finite_abs (x : float) (s : bool) (m : positive) (e : Z) :
  Prim2SF x = S754_finite s m e -> Prim2SF (PrimFloat.abs x) = S754_finite false m e.
Proof. intros Hx. by rewrite FloatAxioms.abs_spec, Hx. Qed.

Lemma nzhead_head (d : Decimal.uint) :
  match Decimal.nzhead d with Decimal.D0 _ => False | _ => True end.
Proof. induction d; simpl; done. Qed.

Lemma canonical_uint (d : Decimal.uint) :
  Decimal.unorm d = d -> canonical (NilEmpty.string_of_uint d) = true.
Proof.
  unfold Decimal.unorm. pose proof (nzhead_head d) as Hh.
  destruct d; simpl in *; try done.
  destruct (Decimal.nzhead d) eqn:Hn; try done.
  by intros [= <-].
Qed.

Lemma canonical_digits (n : Z) : canonical (JsNumber.digits n) = true.
Proof.
  unfold JsNumber.digits, NilZero.string_of_uint.
  pose proof (DecimalN.Unsigned.to_of (N.to_uint (Z.to_N n))) as Hnorm.
  rewrite DecimalN.Unsigned.of_to in Hnorm. symmetry in Hnorm.
  apply canonical_uint in Hnorm.
  by destruct (N.to_uint (Z.to_N n)).
Qed.

Lemma canonical_prefix (s : string) (k : nat) :
  canonical s = true -> (1 <= k)%nat ->
  (String.length s = 1%nat \/ exists ch rest, s = String ch rest /\ ch <> "0"%char) ->
  canonical (substring 0 k s) = true.
Proof.
  intros Hc Hk Hs. destruct s as [|ch rest]; [done |]. destruct k as [|k]; [lia |].
  simpl substring. destruct Hs as [Hone | (ch' & rest' & [= <- <-] & Hne)].
  - destruct rest; [|done]. by destruct k.
  - unfold canonical. apply orb_true_iff. right.
    apply negb_true_iff, Ascii.eqb_neq. done.
Qed.

Lemma canonical_cases (s : string) :
  canonical s = true -> s = "0" \/ exists ch rest, s = String ch rest /\ ch <> "0"%char.
Proof.
  destruct s as [|ch rest]; [done |]. unfold canonical.
  intros [Hz | Hn]%orb_true_iff.
  - left. by apply String.eqb_eq.
  - right. exists ch, rest. split; [done |]. by apply Ascii.eqb_neq, negb_true_iff.
Qed.

Lemma substring_zeros_head (j : nat) (s : string) :
  substring 0 1 (JsNumber.zeros (S j) ++ s) = "0".
Proof. simpl JsNumber.zeros. rewrite append_cons. simpl. by destruct (_ ++ _). Qed.

(** Below [1e21] the result of [toFixed] on a finite number other than
    zero is the sign, a numeral without superfluous zeros, the point and
    [f] digits; read without the point, the digits are the exact value
    times [10^f], rounded to the nearest integer. *)
Lemma toFixed_value (toString : float -> string) (f : nat) (x : float)
    (s : bool) (m : positive) (e : Z) :
  Prim2SF x = S754_finite s m e ->
  PrimFloat.leb 1e21 (PrimFloat.abs x) = false ->
  exists whole frac n,
    JsNumber.toFixed toString f x = (if s then "-" else "") ++ whole ++ "." ++ frac /\
    String.length frac = f /\
    canonical whole = true /\
    readDigits 0 (whole ++ frac) = Some n /\
    Nearest (magnitudeNum m e * 10 ^ Z.of_nat f) (magnitudeDen e) n.
Proof.
  intros Hx Hbig. unfold JsNumber.toFixed.
  rewrite (finite_not_nan _ _ _ _ Hx), Hbig, (finite_sign _ _ _ _ Hx).
  destruct (scaled_nearest f _ _ _ (finite_abs _ _ _ _ Hx)) as [Hpos Hnear].
  set (n := JsNumber.scaled f (PrimFloat.abs x)) in *.
  set (d := JsNumber.digits n).
  set (d' := if (String.length d <=? f)%nat
             then JsNumber.zeros (f + 1 - String.length d) ++ d else d).
  assert (f + 1 <= String.length d')%nat as Hlen.
  { unfold d'. destruct (Nat.leb_spec (String.length d) f).
    - rewrite length_append, length_zeros. lia.
    - lia. }
  assert (readDigits 0 d' = Some n) as Hread.
  { unfold d'. destruct (String.length d <=? f)%nat; rewrite ?readDigits_zeros;
      by apply readDigits_digits. }
  exists (substring 0 (String.length d' - f) d'), (substring (String.length d' - f) f d'), n.
  split_and!.
  - done.
  - rewrite length_substring; lia.
  - unfold d'. destruct (Nat.leb_spec (String.length d) f) as [Hle | Hgt].
    + rewrite length_append, length_zeros.
      replace (f + 1 - String.length d + String.length d - f)%nat with 1%nat by lia.
      replace (f + 1 - String.length d)%nat with (S (f - String.length d)) by lia.
      by rewrite substring_zeros_head.
    + pose proof (canonical_digits n) as Hc. fold d in Hc.
      apply canonical_prefix; [done | lia |].
      apply canonical_cases in Hc as [-> | ?]; [by left | by right].
  - pose proof (substring_split d' (String.length d' - f) ltac:(lia)) as Hsplit.
    replace (String.length d' - (String.length d' - f))%nat with f in Hsplit by lia.
    by rewrite Hsplit.
  - exact Hnear.
Qed.

Lemma toFixed_zero (toString : float -> string) (f : nat) (x : float) (s : bool) :
  Prim2SF x = S754_zero s ->
  JsNumber.toFixed toString (S f) x = "0." ++ JsNumber.zeros (S f).
Proof.
  intros Hx. unfold JsNumber.toFixed.
  assert (PrimFloat.is_nan x = false) as ->.
  { unfold PrimFloat.is_nan. by rewrite FloatAxioms.eqb_spec, Hx. }
  assert (PrimFloat.ltb x 0 = false) as ->.
  { rewrite FloatAxioms.ltb_spec, Hx. by change (Prim2SF 0) with (S754_zero false). }
  assert (Prim2SF (PrimFloat.abs x) = S754_zero false) as Habs
    by (by rewrite FloatAxioms.abs_spec, Hx).
  assert (PrimFloat.leb 1e21 (PrimFloat.abs x) = false) as ->.
  { rewrite FloatAxioms.leb_spec, Habs. by vm_compute. }
  unfold JsNumber.scaled. rewrite Habs. change (JsNumber.digits 0) with "0".
  change (String.length "0") with 1%nat.
  assert ((1 <=? S f)%nat = true) as -> by (apply Nat.leb_le; lia).
  replace (S f + 1 - 1)%nat with (S f) by lia.
  rewrite length_append, length_zeros. change (String.length "0") with 1%nat.
  replace (S f + 1 - S f)%nat with 1%nat by lia.
  simpl JsNumber.zeros at 1 2. rewrite !append_cons. cbn [substring].
  assert (forall k, JsNumber.zeros k ++ "0" = JsNumber.zeros (S k)) as Hz.
  { induction k as [|k IH]; [done |]. simpl JsNumber.zeros at 1. rewrite append_cons, IH.
    done. }
  assert (forall t, substring 0 0 t = "") as H0 by (by intros []).
  rewrite H0, Hz.
  pose proof (substring_0_all (JsNumber.zeros (S f))) as Hall.
  rewrite length_zeros in Hall. by rewrite Hall.
Qed.

End NumberFacts.

(** ** Transaction transformer *)

Section TransformerFacts.
Context {World : Type} `{!Externals World}.
Implicit Types (c : Controller World) (transaction : RawTx.t) (options : Options).

Lemma transform_vout_fields transaction options c (j : nat) (output : RawOutput.t) :
  RawTx.outputs transaction !! j = Some output ->
  exists v, (enrich (mapOutputs transaction options) c).1 !! j = Some v /\
            Vout.fields v = Vout.fields (transformOutput options output j).
Proof.
  intros Hout.
  pose proof (enrich_fields (mapOutputs transaction options) c) as Hf.
  apply (f_equal (fun l => l !! j)) in Hf. cbv beta in Hf.
  rewrite !list_lookup_fmap in Hf.
  unfold mapOutputs in Hf at 2. rewrite list_lookup_imap, Hout in Hf.
  destruct ((enrich (mapOutputs transaction options) c).1 !! j) as [v|] eqn:Hv;
    [|done].
  exists v. split; [done |]. by injection Hf.
Qed.

(** C7: with [height >= 0] the [confirmations] field is the chain height
    minus the transaction height plus one; with [height < 0] it is 0 and
    the result has no [blocktime]. *)
Theorem C7_confirmations transaction options c :
  wellFormed transaction ->
  exists T c',
    transformTransaction transaction options c = (Some (callback None T), c') /\
    (0 <= RawTx.height transaction ->
       Tx.confirmations T = bitcoind_height (world c) - RawTx.height transaction + 1) /\
    (RawTx.height transaction < 0 ->
       Tx.confirmations T = 0 /\ Tx.blocktime T = None).
Proof.
  intros Hwf. destruct (transformVin_wellFormed transaction options Hwf) as [vin Hvin].
  eexists _, _. split; [apply (transform_run _ _ _ _ Hvin) |].
  simpl. unfold confirmationsOf. split.
  - intros Hh. by rewrite (proj2 (Z.leb_le _ _) Hh).
  - intros Hh. by rewrite (proj2 (Z.leb_gt _ _) Hh).
Qed.

(** C8: a coinbase transaction gets a [vin] of exactly one element that
    carries the script of the first raw input as [coinbase] and has
    [n = 0], however many inputs the raw record has. *)
Theorem C8_coinbase_vin transaction options c (input0 : RawInput.t) (rest : list RawInput.t) :
  RawTx.coinbase transaction = true ->
  RawTx.inputs transaction = input0 :: rest ->
  exists T c',
    transformTransaction transaction options c = (Some (callback None T), c') /\
    Tx.vin T = [Vin.Coinbase (RawInput.script input0) (RawInput.sequence input0) 0].
Proof.
  intros Hcb Hin.
  assert (transformVin transaction options
          = Some [Vin.Coinbase (RawInput.script input0) (RawInput.sequence input0) 0])
    as Hvin by (unfold transformVin; by rewrite Hcb, Hin).
  eexists _, _. split; [apply (transform_run _ _ _ _ Hvin) | done].
Qed.

(** C9: every output's [value] is the string [toFixed(8)] makes of the
    double [satoshis / 1e8].  For a quotient of magnitude below 1e21 that
    string is the sign, a numeral without superfluous zeros, the point
    and exactly 8 digits, and the digits read without the point are the
    exact value of the quotient times 10^8, rounded to the nearest
    integer (upwards when halfway); for a zero quotient it is
    "0.00000000"; 123456789 gives "1.23456789".  [valueOut], [valueIn]
    and [fees] are the numbers [outputSatoshis / 1e8],
    [inputSatoshis / 1e8] and [feeSatoshis / 1e8] (100000000 gives
    [valueOut = 1]), the last two on every transaction that is not a
    coinbase. *)
Theorem C9_monetary_values transaction options c :
  wellFormed transaction ->
  exists T c',
    transformTransaction transaction options c = (Some (callback None T), c') /\
    (forall (j : nat) (output : RawOutput.t),
       RawTx.outputs transaction !! j = Some output ->
       exists v, Tx.vout T !! j = Some v /\
         let quotient := (RawOutput.satoshis output / JsNumber.e8)%float in
         let value := OutputFields.value (Vout.fields v) in
         value = toFixed8 quotient /\
         (forall (negative : bool) (m : positive) (e : Z),
            Prim2SF quotient = S754_finite negative m e ->
            PrimFloat.leb 1e21 (PrimFloat.abs quotient) = false ->
            exists (whole frac : string) (n : Z),
              value = (if negative then "-" else "") ++ whole ++ "." ++ frac /\
              String.length frac = 8%nat /\
              canonical whole = true /\
              readDigits 0 (whole ++ frac) = Some n /\
              Nearest (magnitudeNum m e * 10 ^ 8) (magnitudeDen e) n) /\
         (forall negative : bool,
            Prim2SF quotient = S754_zero negative -> value = "0.00000000") /\
         (RawOutput.satoshis output = 123456789%float -> value = "1.23456789")) /\
    Tx.valueOut T = (RawTx.outputSatoshis transaction / JsNumber.e8)%float /\
    (RawTx.outputSatoshis transaction = 100000000%float -> Tx.valueOut T = 1%float) /\
    (RawTx.coinbase transaction = false ->
       Tx.valueIn T = Some (RawTx.inputSatoshis transaction / JsNumber.e8)%float /\
       Tx.fees T = Some (RawTx.feeSatoshis transaction / JsNumber.e8)%float).
Proof.
  intros Hwf. destruct (transformVin_wellFormed transaction options Hwf) as [vin Hvin].
  eexists _, _. split; [apply (transform_run _ _ _ _ Hvin) |].
  cbv zeta. cbn [Tx.vout Tx.valueOut Tx.valueIn Tx.fees finishTransformed]. split_and!.
  - intros j output Hout.
    destruct (transform_vout_fields transaction options c j output Hout)
      as (v & Hv & Hf).
    exists v. split; [done |]. rewrite Hf. cbn [OutputFields.value Vout.fields transformOutput].
    split_and!.
    + done.
    + intros negative m e Hq Hbig. by apply (toFixed_value _ 8 _ negative m e).
    + intros negative Hq. by apply (toFixed_zero _ 7 _ negative).
    + intros ->. by vm_compute.
  - done.
  - intros ->. by vm_compute.
  - intros ->. done.
Qed.

End TransformerFacts.

(** ** Orchestrator *)

Section OrchestratorFacts.
Context {World : Type} `{!Externals World}.
Implicit Types (vout : list Vout.t) (c : Controller World)
               (transaction : RawTx.t) (options : Options).

Lemma itemFor_idx vout pre j c : idx (itemFor vout pre j c) = j.
Proof. unfold itemFor. by rewrite decodeOne_run. Qed.

Lemma itemFor_type vout pre j c : type (itemFor vout pre j c) = decodeTypeOf vout j.
Proof. unfold itemFor. by rewrite decodeOne_run. Qed.

Lemma itemFor_decoded vout pre j c :
  decoded (itemFor vout pre j c) =
    match (client_decodeScript (scriptHexOf vout j) (worldBefore vout pre c)).1 with
    | RpcFail _ => None
    | RpcOk d => result d
    end.
Proof. unfold itemFor. by rewrite decodeOne_run. Qed.

Lemma decodePass_split vout c (pre post : list nat) (j : nat) :
  (scan vout).2 = (pre ++ j :: post)%list ->
  exists ipre ipost,
    (decodePass vout c).1 = (ipre ++ itemFor vout pre j c :: ipost)%list /\
    ipre = (asyncMap (decodeOne vout) pre c).1 /\
    idx <$> ipre = pre /\ idx <$> ipost = post.
Proof.
  intros Hsplit. unfold decodePass. rewrite Hsplit, asyncMap_app, asyncMap_cons.
  eexists _, _. split; [reflexivity |]. split_and!; [done | ..];
    apply decode_pass_idx.
Qed.

(** The output of a flagged index after the expansion: its one decoded
    item applied to it, with every address collected so far. *)
Lemma expansion_at vout c (pre post : list nat) (j : nat) :
  (scan vout).2 = (pre ++ j :: post)%list ->
  exists v collected,
    vout !! j = Some v /\ flagged v /\
    (scan vout).1 `prefix_of` collected /\
    (expansion vout c).1 !! j
      = Some (expandOutput (itemFor vout pre j c) (v, collected)).1 /\
    (expandOutput (itemFor vout pre j c) (v, collected)).2
      `prefix_of` (expansion vout c).2.
Proof.
  intros Hsplit.
  destruct (decodePass_split vout c pre post j Hsplit) as (ipre & ipost & Hitems & _ & Hpre & Hpost).
  pose proof (scan_indices_NoDup vout) as Hnd. rewrite Hsplit in Hnd.
  apply NoDup_app in Hnd as (_ & Hnotpre & Hnd). apply NoDup_cons in Hnd as [Hnotpost _].
  assert (j ∈ (scan vout).2) as Hj by (rewrite Hsplit; apply elem_of_app; right; left).
  apply scan_indices_flagged in Hj as (v & Hv & Hf).
  exists v, (foldl expandItem (vout, (scan vout).1) ipre).2.
  split_and!; [done | done | apply (expand_keeps ipre vout (scan vout).1) | ..].
  all: unfold expansion; rewrite Hitems.
  all: pose proof (expand_at ipre ipost (itemFor vout pre j c) vout (scan vout).1 v) as Hat.
  all: rewrite itemFor_idx, Hpre, Hpost in Hat.
  all: apply Hat; [intros Hin; apply (Hnotpre j Hin); left | done | done].
Qed.

Lemma enrich_lookup vout c (j : nat) (v : Vout.t) :
  (expansion vout c).1 !! j = Some v ->
  (enrich vout c).1 !! j = Some (applyNames (nameMappingOf vout c) v).
Proof. intros Hv. rewrite enrich_run. simpl. by rewrite list_lookup_fmap, Hv. Qed.

Lemma mapOutputs_plain transaction options (j : nat) (v : Vout.t) :
  mapOutputs transaction options !! j = Some v ->
  Vout.feepool v = None /\ Vout.acceptednotarization v = None /\
  Vout.p2shAddress v = None /\ Vout.isP2SH v = false.
Proof.
  unfold mapOutputs. rewrite list_lookup_imap.
  destruct (RawTx.outputs transaction !! j); [|done]. by intros [= <-].
Qed.

(** C6: when the [decodeScript] call for a flagged output fails, the
    transform still calls back without an error and that output has no
    [feepool], no [acceptednotarization] and no [p2shAddress]. *)
Theorem C6_decode_failure transaction options c (j : nat) (pre post : list nat)
    (err : RpcError) (w' : World) :
  wellFormed transaction ->
  let vout := mapOutputs transaction options in
  (scan vout).2 = (pre ++ j :: post)%list ->
  client_decodeScript (scriptHexOf vout j) (worldBefore vout pre c) = (RpcFail err, w') ->
  exists T c' v,
    transformTransaction transaction options c = (Some (callback None T), c') /\
    Tx.vout T !! j = Some v /\
    Vout.feepool v = None /\
    Vout.acceptednotarization v = None /\
    Vout.p2shAddress v = None.
Proof.
  intros Hwf vout Hsplit Hfail.
  destruct (transformVin_wellFormed transaction options Hwf) as [vin Hvin].
  destruct (expansion_at vout c pre post j Hsplit) as (v & a & Hv & _ & _ & Hexp & _).
  rewrite expandOutput_null in Hexp by (by rewrite itemFor_decoded, Hfail).
  apply enrich_lookup in Hexp.
  destruct (mapOutputs_plain _ _ _ _ Hv) as (Hfp & Han & Hp & _).
  eexists _, _, _. split; [apply (transform_run _ _ _ _ Hvin) |].
  split; [exact Hexp |]. simpl. by rewrite Hfp, Han, Hp.
Qed.


(** C2 (amended): when the script of a flagged fee-pool output decodes and
    its [currencyvalues] has an identity address that the scan did not
    collect, that address is resolved exactly once in this transform, in
    the second wave, and the output's [currencyvaluesFriendly] has the
    name that resolution called back as a key, or the address itself
    when that name is empty; only the name "__proto__" is no key. *)
Theorem C2_fee_pool_second_wave transaction options c (j : nat) (pre post : list nat)
    (d : Decoded.t) (fp : FeePool) (cv : JsObject.t) (a : string) (w' : World) :
  wellFormed transaction ->
  let vout := mapOutputs transaction options in
  (scan vout).2 = (pre ++ j :: post)%list ->
  decodeTypeOf vout j = Some DecodeType.feepool ->
  client_decodeScript (scriptHexOf vout j) (worldBefore vout pre c)
    = (RpcOk {| result := Some d |}, w') ->
  Decoded.feepool d = Some fp ->
  currencyvalues fp = Some cv ->
  a ∈ JsObject.keys cv ->
  isIdentityAddress a ->
  a ∉ (scan vout).1 ->
  exists T c' wave1 wave2 n v fp' m,
    transformTransaction transaction options c = (Some (callback None T), c') /\
    resolutions c' = (resolutions c ++ wave1 ++ wave2)%list /\
    wave1.*1 = (scan vout).1 /\
    resolutionsOf a wave1 = [] /\
    resolutionsOf a wave2 = [(a, n)] /\
    Tx.vout T !! j = Some v /\
    Vout.feepool v = Some fp' /\
    currencyvaluesFriendly fp' = Some m /\
    (is_Some (m !! keyFor a n) <-> n <> Text "__proto__").
Proof.
  intros Hwf vout Hsplit Htype Hok Hfp Hcv Hkey Hia Hnew.
  destruct (transformVin_wellFormed transaction options Hwf) as [vin Hvin].
  destruct (expansion_at vout c pre post j Hsplit) as (v & col & Hv & _ & _ & Hexp & Hpre).
  assert (expandOutput (itemFor vout pre j c) (v, col)
          = (set_feepool fp v, foldl pushNew col (JsObject.keys cv))) as Heq.
  { apply (expandOutput_feepool _ _ _ d fp cv);
      [by rewrite itemFor_type | by rewrite itemFor_decoded, Hok | done | done]. }
  rewrite Heq in Hexp, Hpre. cbn [fst snd] in Hexp, Hpre. apply enrich_lookup in Hexp.
  (* the address is among the collected ones, hence resolved in the second wave *)
  assert (a ∈ (expansion vout c).2) as Hin.
  { eapply elem_of_prefix; [|exact Hpre]. by apply pushAll_elem. }
  assert (a ∈ newAddresses vout c) as Hin2.
  { rewrite expansion_split in Hin. apply elem_of_app in Hin as [? | ?]; [by destruct Hnew | done]. }
  pose proof (expansion_collected vout c) as [Hnd _].
  rewrite expansion_split in Hnd. apply NoDup_app in Hnd as (_ & _ & Hnd2).
  destruct (resolutionsOf_once a (logged <$> (secondWave vout c).1)) as [n Hn].
  { by rewrite logged_fst, secondWave_addresses. }
  { by rewrite logged_fst, secondWave_addresses. }
  assert (nameMappingOf vout c !! a = Some n) as Hnm.
  { apply nameMappingOf_lookup. rewrite enrich_calledBack, fmap_app. apply elem_of_app. right.
    apply resolutionsOf_elem. rewrite Hn. by left. }
  apply list_elem_of_fmap in Hkey as ([a' amount] & -> & Hentry).
  simpl in Hnm, Hn, Hin, Hin2, Hnew, Hia.
  eexists _, _, (logged <$> (firstWave vout c).1), (logged <$> (secondWave vout c).1),
    n, _, _, _.
  split; [apply (transform_run _ _ _ _ Hvin) |].
  split; [apply enrich_resolutions |].
  split; [by rewrite logged_fst, firstWave_addresses |].
  split; [apply resolutionsOf_none; by rewrite logged_fst, firstWave_addresses |].
  split; [exact Hn |].
  split; [exact Hexp |].
  simpl. rewrite Hcv. split; [reflexivity |]. split; [reflexivity |].
  rewrite <- (keyFor_proto _ n Hia), <- (friendly_keyFor _ _ _ Hnm). split.
  - intros [x Hx] Hk. by rewrite friendlyKeyed_proto in Hx.
  - by eapply friendlyKeyed_key.
Qed.

End OrchestratorFacts.


(** ** Friendly-keyed mappings *)

Section MergeTheorems.
Context {World : Type} `{!Externals World}.
Implicit Types (vout : list Vout.t) (c : Controller World)
               (transaction : RawTx.t) (options : Options).

(** The cross-chain import of an output goes through the expansion unchanged. *)
Lemma expansion_crosschainimport vout c (j : nat) (v : Vout.t) :
  vout !! j = Some v ->
  exists v', (expansion vout c).1 !! j = Some v' /\
             Vout.crosschainimport v' = Vout.crosschainimport v.
Proof.
  intros Hv.
  destruct (expand_keeps (decodePass vout c).1 vout (scan vout).1) as (_ & Hc & _).
  apply (f_equal (fun l => l !! j)) in Hc. cbv beta in Hc.
  rewrite !list_lookup_fmap, Hv in Hc. fold (expansion vout c) in Hc.
  destruct ((expansion vout c).1 !! j) as [v'|]; [|done].
  exists v'. split; [done |]. by injection Hc.
Qed.

(** What the orchestrator makes of an output with a [valuein] mapping. *)
Lemma enrich_valuein transaction options c (j : nat) (output : RawOutput.t)
    (cci : CrossChainImport) (vi : JsObject.t) :
  RawTx.outputs transaction !! j = Some output ->
  RawOutput.crosschainimport output = Some cci ->
  valuein cci = Some vi ->
  let vout := mapOutputs transaction options in
  exists v,
    (enrich vout c).1 !! j = Some v /\
    Vout.crosschainimport v
    = Some {| valuein := Some vi;
              valueinFriendly := Some (friendlyKeyed (nameMappingOf vout c) vi) |} /\
    forall a, a ∈ JsObject.keys vi -> isIdentityAddress a -> a ∈ (expansion vout c).2.
Proof.
  intros Hout Hcci Hvi vout.
  assert (vout !! j = Some (transformOutput options output j)) as Hv.
  { unfold vout, mapOutputs. by rewrite list_lookup_imap, Hout. }
  destruct (expansion_crosschainimport vout c j _ Hv) as (v' & Hv' & Hsame).
  simpl in Hsame. rewrite Hcci in Hsame.
  apply enrich_lookup in Hv'.
  exists (applyNames (nameMappingOf vout c) v'). split; [exact Hv' |].
  split; [simpl; by rewrite Hsame, Hvi |].
  intros a Hkey Ha. eapply elem_of_prefix; [|apply expansion_prefix].
  eapply (scan_addresses_elem vout (transformOutput options output j));
    [by eapply list_elem_of_lookup_2 | exact Hcci | exact Hvi | done | done].
Qed.


(** C5 (amended): an output with a [crosschainimport.valuein] mapping
    gets a [valueinFriendly] mapping that holds, under each key, the
    amount of the last-enumerated address filed under that key.  Every
    identity address of [valuein] is resolved once in the transform; an
    address is filed under the name its resolution called back, under
    itself when that name is empty or when it was not resolved (under
    the text of the inherited member when it names one), and nothing is
    filed under "__proto__". *)
Theorem C5_valueinFriendly transaction options c (j : nat) (output : RawOutput.t)
    (cci : CrossChainImport) (vi : JsObject.t) :
  wellFormed transaction ->
  RawTx.outputs transaction !! j = Some output ->
  RawOutput.crosschainimport output = Some cci ->
  valuein cci = Some vi ->
  exists T c' v cci' m,
    transformTransaction transaction options c = (Some (callback None T), c') /\
    Tx.vout T !! j = Some v /\
    Vout.crosschainimport v = Some cci' /\
    valuein cci' = Some vi /\
    valueinFriendly cci' = Some m /\
    let resolved := calledBack c c' in
    NoDup resolved.*1 /\
    (forall a, a ∈ JsObject.keys vi -> isIdentityAddress a -> exists n, (a, n) ∈ resolved) /\
    (forall a n, (a, n) ∈ resolved -> filedUnder resolved a = keyFor a n) /\
    (forall a, a ∉ resolved.*1 ->
       filedUnder resolved a = if JsProto.member a then Name.toKey (Inherited a) else a) /\
    KeyedBy (filedUnder resolved) vi m /\
    (forall a amount, (a, amount) ∈ vi -> filedUnder resolved a <> "__proto__" ->
       is_Some (m !! filedUnder resolved a)).
Proof.
  intros Hwf Hout Hcci Hvi.
  destruct (transformVin_wellFormed transaction options Hwf) as [vin Hvin].
  set (vout := mapOutputs transaction options).
  destruct (enrich_valuein transaction options c j output cci vi Hout Hcci Hvi)
    as (v & Hv & Hc & Hids).
  fold vout in Hv, Hc, Hids.
  eexists _, _, v, _, _.
  split; [apply (transform_run _ _ _ _ Hvin) |]. fold vout.
  split; [exact Hv |]. split; [exact Hc |]. split; [done |]. split; [done |].
  cbv zeta. cbn [snd].
  assert (NoDup (calledBack c (enrich vout c).2).*1) as Hnd
    by (rewrite enrich_calledBack; apply waves_NoDup).
  split_and!.
  - exact Hnd.
  - intros a Hkey Ha. destruct (nameMappingOf_resolved vout c a) as [n Hn]; [by apply Hids |].
    exists n. by apply nameMappingOf_lookup.
  - intros a n Hin. by apply filedUnder_resolved.
  - intros a Hnot. by apply filedUnder_unresolved.
  - eapply KeyedBy_ext; [|apply friendlyKeyed_KeyedBy].
    intros a _. apply friendlyKey_filedUnder.
  - intros a amount Hin Hk. rewrite <- friendlyKey_filedUnder in *.
    by eapply friendlyKeyed_key.
Qed.


End MergeTheorems.

(** * The properties on the concrete node *)

Local Open Scope Z_scope.

Section ResolverInstances.

Lemma C1_second_resolution_uses_cache_witness :
  let p := {| controller := Demo.fresh; inFlight := ∅ |} in
  let during := [Begins "iCCC"; NodeChanges (fun w => (w + 7)%nat);
                 Decodes (Some "c0ffee")] in
  let between := [Begins "iAAA"; Answers "iCCC"; Begins "iBBB"; Answers "iAAA";
                  NodeChanges (fun w => (w + 5)%nat); Answers "iBBB"] in
  let asked := run (begins "iAAA" p) during in
  let later := run (answers "iAAA" asked) between in
  let second := getIdentityFriendlyName "iAAA" (controller later) in
  ("iAAA" ∉ inFlight p) /\
  JsProto.getString (identityNameCache (controller p)) "iAAA" = None /\
  Forall (fun e => about "iAAA" e = false) during /\
  cb_value second.1 = Text "alice" /\
  io second.2 = io (controller later).
Proof.
  cbv zeta.
  assert ("iAAA" ∉ inFlight {| controller := Demo.fresh; inFlight := ∅ |}) as Hidle
    by apply gmultiset_not_elem_of_empty.
  assert (Forall (fun e : Event nat => about "iAAA" e = false)
            [Begins "iCCC"; NodeChanges (fun w => (w + 7)%nat); Decodes (Some "c0ffee")])
    as Hduring by (repeat constructor).
  split; [exact Hidle |]. split; [reflexivity |]. split; [exact Hduring |].
  destruct (@C1_second_resolution_uses_cache nat Demo.externals "iAAA"
              {| controller := Demo.fresh; inFlight := ∅ |}
              (Demo.identityNamed "alice.VRSC@") 9%nat
              [Begins "iCCC"; NodeChanges (fun w => (w + 7)%nat); Decodes (Some "c0ffee")]
              [Begins "iAAA"; Answers "iCCC"; Begins "iBBB"; Answers "iAAA";
               NodeChanges (fun w => (w + 5)%nat); Answers "iBBB"]
              Hidle eq_refl Hduring)
    as (_ & Hname & Hio & _).
  - by vm_compute.
  - vm_compute. discriminate.
  - split; [exact Hname | exact Hio].
Defined.

(** The wording of section 8 fails for the identity registered as "@":
    its derived name is empty, the cache entry is never used, and the
    second resolution sends the lookup again. *)
Lemma C1_counterexample : ~ cache_idempotence_as_stated Demo.externals.
Proof.
  intros Hclaim.
  destruct (Hclaim "iEEE" Demo.fresh (Demo.identityNamed "@") 1%nat eq_refl eq_refl)
    as [Hio _].
  vm_compute in Hio. discriminate.
Qed.

Lemma C3_friendly_name_derivation_witness :
  JsProto.getString (identityNameCache Demo.fresh) "iAAA" = None /\
  bitcoind_getIdentity "iAAA" (world Demo.fresh) = (Demo.registered "alice.VRSC@", 1%nat) /\
  exists resolved mid,
    cb_value (getIdentityFriendlyName "iAAA" Demo.fresh).1 = Text resolved /\
    StripOne "@" "alice.VRSC@" mid /\
    StripOne ".VRSC" mid resolved.
Proof.
  split; [reflexivity |]. split; [reflexivity |].
  destruct (@C3_friendly_name_derivation nat Demo.externals "iAAA" Demo.fresh
              (Demo.identityNamed "alice.VRSC@") 1%nat eq_refl eq_refl)
    as (resolved & Hcb & Hstrip & _).
  destruct (proj1 (Hstrip "alice.VRSC@" eq_refl ltac:(discriminate))) as (mid & H1 & H2).
  exists resolved, mid. by split_and!.
Defined.

Lemma C4_failure_not_cached_success_cached_witness :
  JsProto.getString (identityNameCache Demo.fresh) "iBBB" = None /\
  (bitcoind_getIdentity "iBBB" (world Demo.fresh)).1 = RpcFail Demo.notFound /\
  let '(r, c') := getIdentityFriendlyName "iBBB" Demo.fresh in
  cb_err r = None /\ cb_value r = Text "iBBB" /\
  identityNameCache c' = identityNameCache Demo.fresh.
Proof.
  split; [reflexivity |]. split; [reflexivity |].
  pose proof (@C4_failure_not_cached_success_cached nat Demo.externals "iBBB"
                Demo.fresh eq_refl) as Hq.
  destruct (getIdentityFriendlyName "iBBB" Demo.fresh) as [r c'].
  destruct Hq as (Herr & Hvalue & Hcache & _). by split_and!.
Defined.

Lemma C7_confirmations_witness :
  wellFormed Demo.unconfirmedTx /\
  exists T c',
    transformTransaction Demo.unconfirmedTx Demo.options Demo.fresh
      = (Some (callback None T), c') /\
    Tx.confirmations T = 0 /\ Tx.blocktime T = None.
Proof.
  assert (wellFormed Demo.unconfirmedTx) as Hwf by (intros Hcb; discriminate Hcb).
  split; [exact Hwf |].
  destruct (@C7_confirmations nat Demo.externals Demo.unconfirmedTx Demo.options
              Demo.fresh Hwf) as (T & c' & Hrun & _ & Hneg).
  exists T, c'. split; [exact Hrun |]. apply Hneg. reflexivity.
Defined.

Lemma C8_coinbase_vin_witness :
  RawTx.coinbase Demo.coinbaseTx = true /\
  RawTx.inputs Demo.coinbaseTx = [Demo.input 0; Demo.input 1] /\
  exists T c',
    transformTransaction Demo.coinbaseTx Demo.options Demo.fresh
      = (Some (callback None T), c') /\
    Tx.vin T = [Vin.Coinbase (Some "51") 4294967295 0].
Proof.
  split; [reflexivity |]. split; [reflexivity |].
  apply (@C8_coinbase_vin nat Demo.externals Demo.coinbaseTx Demo.options Demo.fresh
           (Demo.input 0) [Demo.input 1]); reflexivity.
Defined.

Lemma C9_monetary_values_witness :
  wellFormed Demo.coinbaseTx /\
  exists T c' v whole frac,
    transformTransaction Demo.coinbaseTx Demo.options Demo.fresh
      = (Some (callback None T), c') /\
    Tx.vout T !! 0%nat = Some v /\
    OutputFields.value (Vout.fields v) = whole ++ "." ++ frac /\
    String.length frac = 8%nat /\
    readDigits 0 (whole ++ frac) = Some 123456789 /\
    OutputFields.value (Vout.fields v) = "1.23456789" /\
    Tx.valueOut T = 1%float.
Proof.
  assert (wellFormed Demo.coinbaseTx) as Hwf by (intros _; discriminate).
  split; [exact Hwf |].
  destruct (@C9_monetary_values nat Demo.externals Demo.coinbaseTx Demo.options
              Demo.fresh Hwf) as (T & c' & Hrun & Hout & _ & Hone & _).
  destruct (Hout 0%nat (Demo.output 123456789) eq_refl) as (v & Hv & _ & Hpin & _ & Hvalue).
  destruct (Hpin false 5559999489367579%positive (-52) eq_refl eq_refl)
    as (whole & frac & n & Hshape & Hfrac & _ & Hread & Hnear).
  assert (n = 123456789) as ->.
  { unfold Nearest, magnitudeNum, magnitudeDen in Hnear.
    change (Z.max (-52) 0) with 0 in Hnear. change (Z.max (- -52) 0) with 52 in Hnear.
    change (2 ^ 0) with 1 in Hnear. change (2 ^ 52) with 4503599627370496 in Hnear.
    change (10 ^ 8) with 100000000 in Hnear. lia. }
  exists T, c', v, whole, frac. split; [exact Hrun |]. split; [exact Hv |].
  split; [exact Hshape |]. split; [exact Hfrac |]. split; [exact Hread |].
  split; [exact (Hvalue eq_refl) | exact (Hone eq_refl)].
Defined.

Lemma C6_decode_failure_witness :
  wellFormed Demo.failedDecodeTx /\
  (scan (mapOutputs Demo.failedDecodeTx Demo.options)).2 = [1%nat] /\
  exists T c' v,
    transformTransaction Demo.failedDecodeTx Demo.options Demo.fresh
      = (Some (callback None T), c') /\
    Tx.vout T !! 1%nat = Some v /\
    Vout.feepool v = None /\
    Vout.acceptednotarization v = None /\
    Vout.p2shAddress v = None.
Proof.
  assert (wellFormed Demo.failedDecodeTx) as Hwf by (intros Hcb; discriminate Hcb).
  split; [exact Hwf |]. split; [by vm_compute |].
  apply (@C6_decode_failure nat Demo.externals Demo.failedDecodeTx Demo.options
           Demo.fresh 1%nat [] [] {| message := "TX decode failed" |} 1%nat Hwf);
    by vm_compute.
Defined.

Lemma C2_fee_pool_second_wave_witness :
  wellFormed Demo.feePoolTx /\
  (scan (mapOutputs Demo.feePoolTx Demo.options)) = ([], [1%nat]) /\
  exists T c' wave2 v fp' m,
    transformTransaction Demo.feePoolTx Demo.options Demo.fresh
      = (Some (callback None T), c') /\
    resolutions c' = wave2 /\
    resolutionsOf "iDDD" wave2 = [("iDDD", Text "dave")] /\
    Tx.vout T !! 1%nat = Some v /\
    Vout.feepool v = Some fp' /\
    currencyvaluesFriendly fp' = Some m /\
    is_Some (m !! "dave").
Proof.
  assert (wellFormed Demo.feePoolTx) as Hwf by (intros Hcb; discriminate Hcb).
  split; [exact Hwf |]. split; [by vm_compute |].
  destruct (@C2_fee_pool_second_wave nat Demo.externals Demo.feePoolTx Demo.options
              Demo.fresh 1%nat [] []
              {| Decoded.feepool := Some
                   {| currencyvalues := Some [("iDDD", JNumber 7); ("iAAA", JNumber 9)];
                      currencyvaluesFriendly := None |};
                 Decoded.acceptednotarization := None;
                 Decoded.p2sh := None |}
              {| currencyvalues := Some [("iDDD", JNumber 7); ("iAAA", JNumber 9)];
                 currencyvaluesFriendly := None |}
              [("iDDD", JNumber 7); ("iAAA", JNumber 9)] "iDDD" 1%nat Hwf)
    as (T & c' & wave1 & wave2 & n & v & fp' & m & Hrun & Hres & Hw1 & _ & Hw2 & Hv & Hfp & Hm & Hkey).
  - by vm_compute.
  - by vm_compute.
  - by vm_compute.
  - reflexivity.
  - reflexivity.
  - left.
  - reflexivity.
  - vm_compute. intros Hin. inversion Hin.
  - assert (wave1 = []) as -> by (apply fmap_nil_inv in Hw1; exact Hw1).
    simpl in Hres.
    exists T, c', wave2, v, fp', m. split; [exact Hrun |]. split; [exact Hres |].
    assert (n = Text "dave") as ->.
    { assert (resolutions c' = [("iDDD", Text "dave"); ("iAAA", Text "alice")]) as Hc'.
      { change c' with (Some (callback None T), c').2. rewrite <- Hrun. by vm_compute. }
      rewrite <- Hres, Hc' in Hw2. vm_compute in Hw2. by injection Hw2. }
    split_and!; [done..|]. by apply Hkey.
Defined.
End ResolverInstances.

Section MergeInstances.

(** The example of section 8, run: iAAA resolves to "alice", the lookup
    of iBBB fails. *)
Example valueinFriendly_example :
  (fun r => (fun cb => (fun v => prop (Vout.crosschainimport v) valueinFriendly)
                         <$> Tx.vout (cb_value cb))
            <$> r.1)
    (transformTransaction Demo.importTx Demo.options Demo.fresh)
  = Some [Some {[ "alice" := JNumber 100; "iBBB" := JNumber 50 ]}].
Proof. by vm_compute. Qed.

Lemma C5_valueinFriendly_witness :
  wellFormed Demo.importTx /\
  exists T c' v cci' m,
    transformTransaction Demo.importTx Demo.options Demo.fresh
      = (Some (callback None T), c') /\
    Tx.vout T !! 0%nat = Some v /\
    Vout.crosschainimport v = Some cci' /\
    valueinFriendly cci' = Some m /\
    m !! "alice" = Some (JNumber 100) /\
    m !! "iBBB" = Some (JNumber 50).
Proof.
  assert (wellFormed Demo.importTx) as Hwf by (intros Hcb; discriminate Hcb).
  split; [exact Hwf |].
  destruct (@C5_valueinFriendly nat Demo.externals Demo.importTx Demo.options Demo.fresh
              0%nat (Demo.importOutput [("iAAA", JNumber 100); ("iBBB", JNumber 50)])
              {| valuein := Some [("iAAA", JNumber 100); ("iBBB", JNumber 50)];
                 valueinFriendly := None |}
              [("iAAA", JNumber 100); ("iBBB", JNumber 50)]
              Hwf eq_refl eq_refl eq_refl)
    as (T & c' & v & cci' & m & Hrun & Hv & Hcci & _ & Hm & Hnames).
  cbv zeta in Hnames. destruct Hnames as (_ & _ & _ & _ & Hkeyed & _).
  assert (calledBack Demo.fresh c' = [("iAAA", Text "alice"); ("iBBB", Text "iBBB")]) as Hc'.
  { change c' with (Some (callback None T), c').2. rewrite <- Hrun. by vm_compute. }
  rewrite Hc' in Hkeyed.
  exists T, c', v, cci', m. split_and!; [done ..| |].
  - apply Hkeyed. split; [done |]. exists 0%nat, "iAAA". split_and!; [done | done |].
    intros [|[|i']] a' amount' Hlt Hl; [lia | | done].
    injection Hl as <- _. by vm_compute.
  - apply Hkeyed. split; [done |]. exists 1%nat, "iBBB". split_and!; [done | done |].
    intros [|[|i']] a' amount' Hlt Hl; [lia | lia | done].
Defined.

(** The wording of the parallel mapping fails when two addresses have
    the same name: iAAA and iCCC are both registered as alice, and the
    amount of iAAA is in no entry of [valueinFriendly]. *)
Lemma C5_counterexample : ~ valueinFriendly_as_stated Demo.externals.
Proof.
  intros Hclaim.
  assert (wellFormed Demo.sameNameTx) as Hwf by (intros Hcb; discriminate Hcb).
  destruct (Hclaim Demo.sameNameTx Demo.options Demo.fresh 0%nat
              (Demo.importOutput [("iAAA", JNumber 100); ("iCCC", JNumber 50)])
              {| valuein := Some [("iAAA", JNumber 100); ("iCCC", JNumber 50)];
                 valueinFriendly := None |}
              [("iAAA", JNumber 100); ("iCCC", JNumber 50)]
              Hwf eq_refl eq_refl eq_refl)
    as (T & c' & v & cci' & m & Hrun & Hv & Hcci & Hm & Hall).
  assert (calledBack Demo.fresh c' = [("iAAA", Text "alice"); ("iCCC", Text "alice")]) as Hc'.
  { change c' with (Some (callback None T), c').2. rewrite <- Hrun. by vm_compute. }
  assert (prop (prop (prop (transformTransaction Demo.sameNameTx Demo.options
                              Demo.fresh).1
                           (fun cb => Tx.vout (cb_value cb) !! 0%nat))
                     Vout.crosschainimport)
               valueinFriendly
          = Some {[ "alice" := JNumber 50 ]}) as Hfiled by (by vm_compute).
  rewrite Hrun in Hfiled. cbn [fst prop cb_value callback] in Hfiled.
  rewrite Hv in Hfiled. cbn [prop] in Hfiled. rewrite Hcci in Hfiled.
  cbn [prop] in Hfiled. rewrite Hm in Hfiled. injection Hfiled as ->.
  destruct (Hall "iAAA" (JNumber 100)) as [Hnamed _]; [left |].
  specialize (Hnamed (Text "alice")). rewrite Hc' in Hnamed.
  specialize (Hnamed ltac:(left)). by vm_compute in Hnamed.
Qed.





(** The fee-pool wording of section 8 fails for the identity registered
    as "@": it is resolved once, in the second wave, to the empty name,
    and the merge pass files its amount under the address. *)
Lemma C2_counterexample : ~ fee_pool_second_wave_as_stated Demo.externals.
Proof.
  intros Hclaim.
  assert (wellFormed Demo.emptyNameTx) as Hwf by (intros Hcb; discriminate Hcb).
  destruct (Hclaim Demo.emptyNameTx Demo.options Demo.fresh 0%nat [] []
              {| Decoded.feepool := Some
                   {| currencyvalues := Some [("iEEE", JNumber 7)];
                      currencyvaluesFriendly := None |};
                 Decoded.acceptednotarization := None;
                 Decoded.p2sh := None |}
              {| currencyvalues := Some [("iEEE", JNumber 7)];
                 currencyvaluesFriendly := None |}
              [("iEEE", JNumber 7)] "iEEE" 1%nat Hwf)
    as (T & c' & wave1 & wave2 & n & v & fp' & m
        & Hrun & Hres & Hw1 & _ & Hw2 & Hv & Hfp & Hm & Hkey).
  - by vm_compute.
  - by vm_compute.
  - by vm_compute.
  - reflexivity.
  - reflexivity.
  - left.
  - reflexivity.
  - vm_compute. intros Hin. inversion Hin.
  - assert (wave1 = []) as -> by (apply fmap_nil_inv in Hw1; exact Hw1).
    simpl in Hres.
    assert (resolutions c' = [("iEEE", Text "")]) as Hc'.
    { change c' with (Some (callback None T), c').2. rewrite <- Hrun. by vm_compute. }
    rewrite <- Hres, Hc' in Hw2. vm_compute in Hw2. injection Hw2 as <-.
    assert (prop (prop (prop (transformTransaction Demo.emptyNameTx Demo.options
                                Demo.fresh).1
                             (fun cb => Tx.vout (cb_value cb) !! 0%nat))
                       Vout.feepool)
                 currencyvaluesFriendly
            = Some {[ "iEEE" := JNumber 7 ]}) as Hfiled by (by vm_compute).
    rewrite Hrun in Hfiled. cbn [fst prop cb_value callback] in Hfiled.
    rewrite Hv in Hfiled. cbn [prop] in Hfiled. rewrite Hfp in Hfiled.
    cbn [prop] in Hfiled. rewrite Hm in Hfiled. injection Hfiled as ->.
    vm_compute in Hkey. by destruct Hkey.
Qed.
End MergeInstances.

(** * Further properties *)

(** ** More on the output mapper *)

Section OutputMapperFacts.
Context {World : Type} `{!Externals World}.
Implicit Types (options : Options) (output : RawOutput.t) (index : nat).

(** X1: an output is flagged for decoding exactly when it has a declared
    type, and then [scriptHex] is its non-empty script; the type says why:
    [feepool] and [acceptednotarization] are the registered fee-pool and
    notarization addresses, [opreturn] is an OP_RETURN script without an
    address. *)
Theorem X1_flag_type_script options output index :
  let f := Vout.fields (transformOutput options output index) in
  (OutputFields.needsScriptDecode f = true <-> is_Some (OutputFields.scriptDecodeType f)) /\
  (OutputFields.needsScriptDecode f = true ->
     exists s, OutputFields.scriptHex f = Some s /\ s <> "" /\
               RawOutput.script output = Some s) /\
  (OutputFields.needsScriptDecode f = false -> OutputFields.scriptHex f = None) /\
  (OutputFields.scriptDecodeType f = Some DecodeType.feepool ->
     OutputFields.originalProtocolAddress f = Some FEE_POOL_ADDRESS /\
     is_Some (PROTOCOL_ADDRESSES_DATA !! FEE_POOL_ADDRESS)) /\
  (OutputFields.scriptDecodeType f = Some DecodeType.acceptednotarization ->
     OutputFields.originalProtocolAddress f = Some NOTARIZATION_ADDRESS /\
     is_Some (PROTOCOL_ADDRESSES_DATA !! NOTARIZATION_ADDRESS)) /\
  (OutputFields.scriptDecodeType f = Some DecodeType.opreturn ->
     JsString.truthy (RawOutput.address output) = None /\
     exists asm, RawOutput.scriptAsm output = Some asm /\
                 JsString.startsWith asm "OP_RETURN" = true).
Proof.
  cbv zeta. unfold transformOutput.
  cbn [Vout.fields OutputFields.needsScriptDecode OutputFields.scriptDecodeType
       OutputFields.scriptHex OutputFields.originalProtocolAddress].
  set (hasScript := is_truthy (RawOutput.script output)).
  assert (hasScript = true ->
          exists s, RawOutput.script output = Some s /\ s <> "") as Hscript.
  { unfold hasScript, is_truthy. intros [s Hs]%bool_decide_eq_true.
    apply truthy_Some in Hs. eauto. }
  set (outputAddress := outputAddressOf output).
  set (protocol := prop outputAddress protocolInfo).
  destruct hasScript eqn:Hhas.
  2:{ rewrite !andb_false_r. simpl. split_and!; try done.
      all: try (split; [done | by intros [? ?]]). }
  destruct (Hscript eq_refl) as (s & Hs & Hne). rewrite !andb_true_r.
  set (isOp := match JsString.truthy (RawOutput.scriptAsm output) with
               | Some asm => JsString.startsWith asm "OP_RETURN"
               | None => false
               end && negb (is_truthy (RawOutput.address output))).
  assert (isOp = true ->
          JsString.truthy (RawOutput.address output) = None /\
          exists asm, RawOutput.scriptAsm output = Some asm /\
                      JsString.startsWith asm "OP_RETURN" = true) as Hop.
  { unfold isOp, is_truthy. intros [Hasm Haddr]%andb_true_iff. split.
    - apply negb_true_iff, bool_decide_eq_false in Haddr.
      destruct (JsString.truthy (RawOutput.address output)); [|done].
      destruct Haddr. eauto.
    - destruct (JsString.truthy (RawOutput.scriptAsm output)) as [asm|] eqn:E; [|done].
      apply truthy_Some in E as [E _]. eauto. }
  assert (forall a, JsProto.member a = false ->
            bool_decide (is_Some protocol) && bool_decide (outputAddress = Some a) = true ->
            (if bool_decide (is_Some protocol) then outputAddress else None) = Some a /\
            is_Some (PROTOCOL_ADDRESSES_DATA !! a)) as Hproto.
  { intros a Hown [Hp Ha]%andb_true_iff. rewrite Hp. apply bool_decide_eq_true in Hp, Ha.
    split; [done |]. unfold protocol in Hp. rewrite Ha in Hp. simpl in Hp.
    unfold protocolInfo in Hp. rewrite Hown in Hp.
    destruct (PROTOCOL_ADDRESSES_DATA !! a); [eauto | by destruct Hp]. }
  assert (NOTARIZATION_ADDRESS <> FEE_POOL_ADDRESS) as Hdiff by done.
  destruct (bool_decide (is_Some protocol) && bool_decide (outputAddress = Some NOTARIZATION_ADDRESS)) eqn:Hn;
    destruct (bool_decide (is_Some protocol) && bool_decide (outputAddress = Some FEE_POOL_ADDRESS)) eqn:Hf;
    destruct isOp eqn:Hi; simpl;
    split_and!; try done; try (by eauto); try (split; [done | by intros [? ?]]);
    try (split; [eauto | done]).
  all: try (intros _; by apply Hproto).
  all: try (intros _; by apply Hop).
Qed.

Lemma protocolInfo_is_Some (a : string) :
  is_Some (protocolInfo a) <->
  is_Some (PROTOCOL_ADDRESSES_DATA !! a) \/ JsProto.member a = true.
Proof.
  unfold protocolInfo. destruct (PROTOCOL_ADDRESSES_DATA !! a) as [entry|].
  - split; eauto.
  - destruct (JsProto.member a); split.
    + intros _. by right.
    + intros _. eauto.
    + by intros [? ?].
    + by intros [[? ?] | ?].
Qed.



End OutputMapperFacts.

(** ** More on the transformer *)

Section TransformerShape.
Context {World : Type} `{!Externals World}.
Implicit Types (c : Controller World) (transaction : RawTx.t) (options : Options).

Lemma enrich_length (vout : list Vout.t) c : length (enrich vout c).1 = length vout.
Proof.
  pose proof (f_equal length (enrich_fields vout c)) as Hlen.
  by rewrite !length_fmap in Hlen.
Qed.

(** X3: [vout] has one element per raw output, in order: the j-th carries
    [n = j] and the script of the j-th raw output, whatever the enrichment
    did; and on a transaction that is not a coinbase [vin] has one element
    per raw input, the i-th with [n = i] and the i-th input's sequence. *)
Theorem X3_vin_vout_aligned transaction options c :
  wellFormed transaction ->
  exists T c',
    transformTransaction transaction options c = (Some (callback None T), c') /\
    length (Tx.vout T) = length (RawTx.outputs transaction) /\
    (forall (j : nat) (v : Vout.t), Tx.vout T !! j = Some v ->
       exists output, RawTx.outputs transaction !! j = Some output /\
         OutputFields.n (Vout.fields v) = j /\
         spk_hex (OutputFields.scriptPubKey (Vout.fields v)) = RawOutput.script output) /\
    (RawTx.coinbase transaction = false ->
       length (Tx.vin T) = length (RawTx.inputs transaction) /\
       forall (i : nat) (input : RawInput.t), RawTx.inputs transaction !! i = Some input ->
         exists s, Tx.vin T !! i = Some (Vin.Spend s) /\ Vin.n s = i /\
                   Vin.sequence s = RawInput.sequence input /\
                   Vin.txid s = RawInput.prevTxId input).
Proof.
  intros Hwf. destruct (transformVin_wellFormed transaction options Hwf) as [vin Hvin].
  eexists _, _. split; [apply (transform_run _ _ _ _ Hvin) |].
  cbn [Tx.vout Tx.vin finishTransformed]. split_and!.
  - rewrite enrich_length. unfold mapOutputs. by rewrite length_imap.
  - intros j v Hv.
    assert (j < length (RawTx.outputs transaction))%nat as Hj.
    { apply lookup_lt_Some in Hv. rewrite enrich_length in Hv.
      unfold mapOutputs in Hv. by rewrite length_imap in Hv. }
    destruct (lookup_lt_is_Some_2 _ _ Hj) as [output Hout].
    destruct (transform_vout_fields transaction options c j output Hout) as (v' & Hv' & Hf).
    rewrite Hv in Hv'. injection Hv' as <-. exists output. by rewrite Hf.
  - intros Hcb. unfold transformVin in Hvin. rewrite Hcb in Hvin. injection Hvin as <-.
    split; [by rewrite length_imap |].
    intros i input Hin. rewrite list_lookup_imap, Hin. simpl. eauto.
Qed.

(** X4: [blocktime] is present exactly when [confirmations] is not 0, and
    then it is [time]; so a transaction whose height is one above the
    height the node reports has a block but 0 confirmations and no
    [blocktime], and every other transaction with a height has one. *)
Theorem X4_blocktime transaction options c :
  wellFormed transaction ->
  exists T c',
    transformTransaction transaction options c = (Some (callback None T), c') /\
    (Tx.confirmations T = 0 <-> Tx.blocktime T = None) /\
    (forall b, Tx.blocktime T = Some b -> b = Tx.time T) /\
    (forall t, RawTx.blockTimestamp transaction = Some t -> t <> 0 -> Tx.time T = t) /\
    (0 <= RawTx.height transaction ->
       (Tx.blocktime T = None <->
        RawTx.height transaction = bitcoind_height (world c) + 1)).
Proof.
  intros Hwf. destruct (transformVin_wellFormed transaction options Hwf) as [vin Hvin].
  eexists _, _. split; [apply (transform_run _ _ _ _ Hvin) |].
  cbn [Tx.confirmations Tx.blocktime Tx.time finishTransformed]. split_and!.
  - destruct (Z.eqb_spec (confirmationsOf transaction (bitcoind_height (world c))) 0);
      split; done.
  - intros b. destruct (_ =? 0); [done | by intros [= <-]].
  - intros t -> Ht. by destruct t.
  - intros Hh. unfold confirmationsOf. rewrite (proj2 (Z.leb_le _ _) Hh).
    destruct (Z.eqb_spec (bitcoind_height (world c) - RawTx.height transaction + 1) 0);
      split; intros; try done; lia.
Qed.

End TransformerShape.

(** ** Declared types and decode results *)

Section TypedFacts.
Context {World : Type} `{!Externals World}.
Implicit Types (c : Controller World) (transaction : RawTx.t) (options : Options).

Lemma expandOutput_typed (item : DecodedItem) (v : Vout.t) (a : list string) :
  type item = OutputFields.scriptDecodeType (Vout.fields v) ->
  Typed v -> Typed (expandOutput item (v, a)).1.
Proof.
  unfold Typed, expandOutput. intros Htype (Hfp & Han & Hp & Hflag).
  rewrite <- Htype in *.
  destruct (type item) as [[]|]; destruct (decoded item) as [d|]; simpl;
    rewrite <- ?Htype; try (split_and!; assumption).
  - destruct (JsString.truthy (Decoded.p2sh d)); simpl; rewrite <- ?Htype;
      [|split_and!; assumption].
    split_and!; done.
  - destruct (Decoded.feepool d) as [fp|]; simpl; rewrite <- ?Htype;
      [|split_and!; assumption].
    destruct (currencyvalues fp); simpl; rewrite <- ?Htype; split_and!; done.
  - destruct (Decoded.acceptednotarization d); simpl; rewrite <- ?Htype; split_and!; done.
Qed.

Lemma applyNames_typed (nm : gmap string Name) (v : Vout.t) :
  Typed v -> Typed (applyNames nm v).
Proof.
  unfold Typed. intros (Hfp & Han & Hp & Hflag). simpl. split_and!; [| |done|done].
  - intros Hs. apply Hfp. destruct (Vout.feepool v); [done | by destruct Hs].
  - intros Hs. apply Han. destruct (Vout.acceptednotarization v); [done | by destruct Hs].
Qed.

Lemma transformOutput_typed options (output : RawOutput.t) (index : nat) :
  Typed (transformOutput options output index).
Proof.
  unfold Typed. simpl. split_and!; try (by intros [? ?]). split; [done | by intros [? ?]].
Qed.

Lemma decode_pass_types (vout : list Vout.t) (indices : list nat) c :
  Forall (fun item => type item = decodeTypeOf vout (idx item))
         (asyncMap (decodeOne vout) indices c).1.
Proof.
  revert c. induction indices as [|j indices IH]; intros c; [by constructor |].
  rewrite asyncMap_cons. simpl. constructor; [by rewrite decodeOne_run | apply IH].
Qed.

Lemma expand_typed (declared : list OutputFields.t) (items : list DecodedItem)
    (vouts : list Vout.t) (a : list string) :
  Vout.fields <$> vouts = declared ->
  Forall (fun item => forall f, declared !! idx item = Some f ->
                        type item = OutputFields.scriptDecodeType f) items ->
  Forall Typed vouts ->
  Forall Typed (foldl expandItem (vouts, a) items).1.
Proof.
  revert vouts a. induction items as [|item items IH]; intros vouts a Hdecl Hitems Hall;
    [done |].
  apply Forall_cons in Hitems as [Hitem Hitems]. cbn [foldl].
  destruct (vouts !! idx item) as [v|] eqn:Hv.
  - rewrite (expandItem_run _ _ _ _ Hv).
    pose proof (expandItem_keeps vouts a item) as Hk.
    rewrite (expandItem_run _ _ _ _ Hv) in Hk. cbv zeta in Hk. cbn [fst snd] in Hk.
    destruct Hk as (Hf & _). apply IH; [by rewrite Hf | done |].
    apply Forall_insert; [done |]. apply expandOutput_typed.
    + apply Hitem. by rewrite <- Hdecl, list_lookup_fmap, Hv.
    + by eapply Forall_lookup_1.
  - rewrite (expandItem_skip _ _ _ Hv). by apply IH.
Qed.

(** X5: in every transformed output each of [feepool],
    [acceptednotarization] and [p2shAddress] sits only on an output
    declared for it ([isP2SH] exactly with [p2shAddress]), so no output
    carries two of them. *)
Theorem X5_decode_results_follow_type transaction options c :
  wellFormed transaction ->
  exists T c',
    transformTransaction transaction options c = (Some (callback None T), c') /\
    Forall Typed (Tx.vout T) /\
    (forall v, v ∈ Tx.vout T ->
       ~ (is_Some (Vout.feepool v) /\ is_Some (Vout.acceptednotarization v)) /\
       ~ (is_Some (Vout.feepool v) /\ is_Some (Vout.p2shAddress v)) /\
       ~ (is_Some (Vout.acceptednotarization v) /\ is_Some (Vout.p2shAddress v))).
Proof.
  intros Hwf. destruct (transformVin_wellFormed transaction options Hwf) as [vin Hvin].
  eexists _, _. split; [apply (transform_run _ _ _ _ Hvin) |].
  cbn [Tx.vout finishTransformed].
  assert (Forall Typed (enrich (mapOutputs transaction options) c).1) as Hall.
  { rewrite enrich_run. cbn [fst]. apply Forall_fmap.
    eapply Forall_impl; [|intros v Hv; apply (applyNames_typed _ v Hv)].
    apply (expand_typed (Vout.fields <$> mapOutputs transaction options)); [done | |].
    - eapply Forall_impl; [apply decode_pass_types |].
      intros item Ht f Hf. rewrite Ht. unfold decodeTypeOf.
      rewrite list_lookup_fmap in Hf.
      destruct (mapOutputs transaction options !! idx item); [|done].
      by injection Hf as <-.
    - apply Forall_forall. intros v (j & output & -> & _)%elem_of_lookup_imap.
      apply transformOutput_typed. }
  split; [exact Hall |].
  intros v Hv. rewrite Forall_forall in Hall. destruct (Hall v Hv) as (Hfp & Han & Hp & _).
  split_and!; intros [H1 H2]; [specialize (Hfp H1); specialize (Han H2)
                              | specialize (Hfp H1); specialize (Hp H2)
                              | specialize (Han H1); specialize (Hp H2)]; congruence.
Qed.

End TypedFacts.

(** ** What a transform sends to the node *)

Section RequestFacts.
Context {World : Type} `{!Externals World}.
Implicit Types (c : Controller World) (vout : list Vout.t).

Lemma resolve_io (a : string) c :
  io (getIdentityFriendlyName a c).2 =
    (io c ++ if needsLookup (identityNameCache c) a then [IoGetIdentity a] else [])%list.
Proof.
  unfold needsLookup. resolution_cases a c; simpl; [by rewrite app_nil_r | done | done].
Qed.

Lemma resolve_cache_other (a b : string) c :
  a <> b ->
  identityNameCache (getIdentityFriendlyName a c).2 !! b = identityNameCache c !! b.
Proof.
  intros Hab. resolution_cases a c; simpl; [done | done |]. by rewrite lookup_insert_ne.
Qed.

Lemma resolve_pass_cache_other (l : list string) (b : string) c :
  b ∉ l ->
  identityNameCache (asyncMap resolveOne l c).2 !! b = identityNameCache c !! b.
Proof.
  revert c. induction l as [|a l IH]; intros c Hb; [done |].
  apply not_elem_of_cons in Hb as [Hab Hb].
  rewrite asyncMap_cons. cbn [snd]. rewrite IH by done.
  rewrite resolveOne_run. cbn [snd]. by apply resolve_cache_other.
Qed.

Lemma needsLookup_ext (m1 m2 : gmap string string) (l : list string) :
  (forall a, a ∈ l -> m1 !! a = m2 !! a) ->
  List.filter (needsLookup m1) l = List.filter (needsLookup m2) l.
Proof.
  intros Hagree. apply List.filter_ext_in. intros a Ha%list_elem_of_In.
  unfold needsLookup. by rewrite (getString_same m2 m1 a) by auto.
Qed.

Lemma resolve_pass_io (l : list string) c :
  NoDup l ->
  io (asyncMap resolveOne l c).2 =
    (io c ++ (IoGetIdentity <$> List.filter (needsLookup (identityNameCache c)) l))%list.
Proof.
  revert c. induction l as [|a l IH]; intros c Hnd; [by rewrite app_nil_r |].
  apply NoDup_cons in Hnd as [Ha Hnd].
  rewrite asyncMap_cons. cbn [snd]. rewrite IH by done.
  rewrite resolveOne_run. cbn [snd]. rewrite resolve_io.
  rewrite (needsLookup_ext _ (identityNameCache c) l).
  - cbn [List.filter]. destruct (needsLookup (identityNameCache c) a); simpl.
    + by rewrite <- app_assoc.
    + by rewrite app_nil_r.
  - intros b Hb. apply resolve_cache_other. intros ->. done.
Qed.

Lemma decode_pass_io vout (l : list nat) c :
  io (asyncMap (decodeOne vout) l c).2 =
    (io c ++ (IoDecodeScript <$> (scriptHexOf vout <$> l)))%list.
Proof.
  revert c. induction l as [|j l IH]; intros c; [by rewrite app_nil_r |].
  rewrite asyncMap_cons. cbn [snd]. rewrite IH, decodeOne_run. simpl.
  by rewrite <- app_assoc.
Qed.

Lemma enrich_io vout c :
  io (enrich vout c).2 =
    (io c ++ (IoDecodeScript <$> (scriptHexOf vout <$> (scan vout).2))
          ++ (IoGetIdentity <$>
                List.filter (needsLookup (identityNameCache c)) (expansion vout c).2))%list.
Proof.
  rewrite enrich_run. cbn [snd].
  destruct (expansion_collected vout c) as [Hnd _].
  rewrite expansion_split in Hnd |- *. apply NoDup_app in Hnd as (Hnd1 & Hdisj & Hnd2).
  unfold secondWave. rewrite resolve_pass_io by done.
  unfold firstWave at 1. rewrite resolve_pass_io by apply scan_addresses_collected.
  unfold decodePass at 1. rewrite decode_pass_io.
  rewrite List.filter_app, fmap_app, <- !app_assoc. do 2 f_equal.
  destruct (decode_pass_keeps vout (scan vout).2 c) as [Hc _].
  unfold decodePass at 1. rewrite Hc. f_equal. f_equal.
  apply needsLookup_ext. intros b Hb. unfold firstWave.
  rewrite resolve_pass_cache_other.
  - unfold decodePass. by rewrite Hc.
  - intros Hin. by apply (Hdisj b).
Qed.

(** *** The flagged outputs, in output order *)

Lemma flaggedAt_app_l vout (v : Vout.t) (j : nat) :
  (j < length vout)%nat -> flaggedAt (vout ++ [v]) j = flaggedAt vout j.
Proof. intros Hlt. unfold flaggedAt. by rewrite lookup_app_l. Qed.

Lemma scan_flagged vout :
  (scan vout).2 = List.filter (flaggedAt vout) (seq 0 (length vout)).
Proof.
  rewrite scan_indices. induction vout as [|v vout IH] using rev_ind; [done |].
  rewrite imap_app, filter_app, fmap_app, IH.
  rewrite length_app, Nat.add_comm. cbn [length Nat.add]. rewrite seq_S, List.filter_app.
  f_equal.
  - apply List.filter_ext_in. intros j Hj%List.in_seq. symmetry. apply flaggedAt_app_l. lia.
  - cbn [imap List.filter Nat.add]. rewrite Nat.add_0_r.
    unfold flaggedAt. rewrite lookup_app_r, Nat.sub_diag by lia. cbn [lookup list_lookup].
    rewrite filter_cons, filter_nil. unfold flagged. cbn [snd].
    destruct (OutputFields.needsScriptDecode (Vout.fields v)) eqn:Hf.
    + by rewrite decide_True.
    + by rewrite decide_False.
Qed.

(** *** The collected addresses, in collection order *)

Lemma firstIdentities_ext (s1 s2 l : list string) :
  (forall a, a ∈ s1 <-> a ∈ s2) -> firstIdentities s1 l = firstIdentities s2 l.
Proof.
  revert s1 s2. induction l as [|a l IH]; intros s1 s2 Hsame; [done |].
  cbn [firstIdentities].
  assert (bool_decide (a ∉ s1) = bool_decide (a ∉ s2)) as ->
    by (apply bool_decide_ext; by rewrite Hsame).
  destruct (_ && _); [f_equal |]; apply IH; [|done].
  intros b. rewrite !elem_of_cons. by rewrite Hsame.
Qed.

Lemma pushAll_firstIdentities (l acc : list string) :
  foldl pushNew acc l = (acc ++ firstIdentities acc l)%list.
Proof.
  revert acc. induction l as [|a l IH]; intros acc; [by rewrite app_nil_r |].
  cbn [foldl firstIdentities]. rewrite IH. unfold pushNew.
  destruct (_ && _); [|done].
  rewrite <- app_assoc. cbn [app]. do 2 f_equal.
  apply firstIdentities_ext. intros b. rewrite elem_of_app, !elem_of_cons, elem_of_nil.
  tauto.
Qed.

Lemma collect_keys vout (acc : list string) :
  foldl collectValuein acc vout = foldl pushNew acc (concat (valueinKeys <$> vout)).
Proof.
  revert acc. induction vout as [|v vout IH]; intros acc; [done |].
  cbn [foldl fmap list_fmap concat]. rewrite foldl_app, IH. f_equal.
  unfold collectValuein, valueinKeys. by destruct (prop _ _).
Qed.

Lemma expandOutput_keys (item : DecodedItem) (v : Vout.t) (acc : list string) :
  (expandOutput item (v, acc)).2 = foldl pushNew acc (decodedKeys item).
Proof.
  unfold expandOutput, decodedKeys.
  destruct (type item) as [[]|]; simpl;
    destruct (prop (decoded item) Decoded.feepool) as [fp|];
    destruct (prop (decoded item) Decoded.acceptednotarization) as [an|]; simpl;
    try destruct (currencyvalues fp); try destruct (JsString.truthy (currencyid an));
    done.
Qed.

Lemma expand_keys (items : list DecodedItem) (vouts : list Vout.t) (acc : list string) :
  Forall (fun item => (idx item < length vouts)%nat) items ->
  (foldl expandItem (vouts, acc) items).2
  = foldl pushNew acc (concat (decodedKeys <$> items)).
Proof.
  revert vouts acc. induction items as [|item items IH]; intros vouts acc Hall; [done |].
  apply Forall_cons in Hall as [Hitem Hall].
  cbn [foldl fmap list_fmap concat]. rewrite foldl_app.
  destruct (lookup_lt_is_Some_2 vouts (idx item) Hitem) as [v Hv].
  rewrite (expandItem_run _ _ _ _ Hv), <- (expandOutput_keys item v acc). apply IH.
  by rewrite length_insert.
Qed.

Lemma expansion_keys vout c :
  (expansion vout c).2
  = firstIdentities []
      (concat (valueinKeys <$> vout) ++ concat (decodedKeys <$> (decodePass vout c).1)).
Proof.
  unfold expansion. rewrite expand_keys.
  - rewrite scan_addresses, collect_keys, <- foldl_app.
    by rewrite pushAll_firstIdentities.
  - apply Forall_forall. intros item Hitem.
    assert (idx item ∈ (scan vout).2) as Hin.
    { unfold decodePass in Hitem. rewrite <- (decode_pass_idx vout (scan vout).2 c).
      apply list_elem_of_fmap. eauto. }
    apply scan_indices_flagged in Hin as (v & Hv & _). by eapply lookup_lt_Some.
Qed.

(** X6: the requests of one transform, in order: one [decodeScript] per
    flagged output, in output order, with that output's script; then one
    [getIdentity] per collected address for which the cache test fails
    when the transform begins, in collection order; nothing else.  The
    collected addresses are the identity addresses among the keys of the
    outputs' [valuein], in output order, and then among the addresses the
    decoded items name, in the order of the flagged outputs, each where it
    occurs first. *)
Theorem X6_requests_of_a_transform (transaction : RawTx.t) (options : Options) c :
  wellFormed transaction ->
  let vout := mapOutputs transaction options in
  let flaggedOutputs := List.filter (flaggedAt vout) (seq 0 (length vout)) in
  let items := (asyncMap (decodeOne vout) flaggedOutputs c).1 in
  let collected :=
    firstIdentities []
      (concat (valueinKeys <$> vout) ++ concat (decodedKeys <$> items)) in
  exists T c',
    transformTransaction transaction options c = (Some (callback None T), c') /\
    idx <$> items = flaggedOutputs /\
    io c' =
      (io c ++ (IoDecodeScript <$> (scriptHexOf vout <$> flaggedOutputs))
            ++ (IoGetIdentity <$>
                  List.filter (needsLookup (identityNameCache c)) collected))%list.
Proof.
  intros Hwf vout. destruct (transformVin_wellFormed transaction options Hwf) as [vin Hvin].
  cbv zeta. eexists _, _. split; [apply (transform_run _ _ _ _ Hvin) |].
  fold vout. rewrite <- (scan_flagged vout). split; [apply decode_pass_idx |].
  cbn [snd]. rewrite enrich_io. by rewrite expansion_keys.
Qed.

(** X7: a record marked coinbase that has no input makes the transform
    throw at [transaction.inputs[0].script]: the callback is never
    called, nothing has been sent to the node and the cache is as it was. *)
Theorem X7_coinbase_without_input_throws (transaction : RawTx.t) (options : Options) c :
  RawTx.coinbase transaction = true -> RawTx.inputs transaction = [] ->
  transformTransaction transaction options c = (None, c).
Proof.
  intros Hcb Hin. unfold transformTransaction, transformVin, bind, readWorld, ret.
  by rewrite Hcb, Hin.
Qed.

End RequestFacts.

(** ** The name cache over the life of the controller *)

Section CacheFacts.
Context {World : Type} `{!Externals World}.
Implicit Types (p : Process World) (a : string).

Lemma run_keeps_entries p (events : list (Event World)) a :
  is_Some (identityNameCache (controller p) !! a) ->
  is_Some (identityNameCache (controller (run p events)) !! a).
Proof.
  revert p. induction events as [|e events IH]; intros p Hs; [done |].
  simpl. by apply IH, step_keeps_entries.
Qed.

(** What an event writes into the cache it has called back. *)
Lemma step_new_entries p (e : Event World) a (n : string) :
  identityNameCache (controller (step p e)) !! a = Some n ->
  identityNameCache (controller p) !! a = Some n \/
  (a, Text n) ∈ calledBack (controller p) (controller (step p e)).
Proof.
  destruct e as [b | b | hex | change]; simpl.
  - unfold begins. destruct (JsProto.getString _ _); simpl; by left.
  - destruct (decide (b ∈ inFlight p)) as [Hin | Hnot]; [|rewrite answers_idle by done; by left].
    destruct (bitcoind_getIdentity b (world (controller p))) as [reply w] eqn:Hrpc.
    rewrite (answers_run _ _ _ _ Hin Hrpc). unfold calledBack. simpl.
    rewrite drop_app_length. destruct reply as [err | ident]; [by left |].
    destruct (decide (b = a)) as [-> | Hne].
    + unfold JsProto.assign. destruct (_ && _); [by left |].
      rewrite lookup_insert_eq. intros [= <-]. right. by left.
    + rewrite lookup_assign_ne by done. by left.
  - unfold decodeScript. destruct (client_decodeScript _ _). by left.
  - by left.
Qed.

(** X8: over any sequence of events the cache of a controller only
    grows: no entry is ever removed; a name the cache serves while no
    request for its address is in flight is served ever after, and no
    request for that address is sent again; and a name that is in the
    cache afterwards was there before or was called back, in the
    meantime, by a resolution of that very address. *)
Theorem X8_cache_only_grows (events : list (Event World)) p (a : string) :
  let p' := run p events in
  (is_Some (identityNameCache (controller p) !! a) ->
   is_Some (identityNameCache (controller p') !! a)) /\
  (forall n : Name,
     JsProto.getString (identityNameCache (controller p)) a = Some n ->
     a ∉ inFlight p ->
     JsProto.getString (identityNameCache (controller p')) a = Some n /\
     (a ∉ inFlight p') /\
     IoGetIdentity a ∉ drop (length (io (controller p))) (io (controller p'))) /\
  (forall n : string,
     identityNameCache (controller p') !! a = Some n ->
     identityNameCache (controller p) !! a = Some n \/
     (a, Text n) ∈ calledBack (controller p) (controller p')).
Proof.
  cbv zeta. split_and!.
  - apply run_keeps_entries.
  - intros n Hhit Hidle.
    destruct (run_settled p events a n (conj Hhit Hidle)) as [Hhit' Hidle'].
    split; [done |]. split; [done |]. by apply (run_settled_io p events a n).
  - induction events as [|e events IH] using rev_ind; [by left |].
    intros n. rewrite run_snoc. intros [Hold | Hnew]%step_new_entries.
    + destruct (IH n Hold) as [? | Hin]; [by left | right].
      destruct (run_log p events) as [l1 E1].
      destruct (step_log (run p events) e) as [l2 E2].
      rewrite (calledBack_app _ _ l1 E1) in Hin.
      rewrite (calledBack_app _ _ (l1 ++ l2)%list) by (by rewrite E2, E1, app_assoc).
      apply elem_of_app. by left.
    + right.
      destruct (run_log p events) as [l1 E1].
      destruct (step_log (run p events) e) as [l2 E2].
      rewrite (calledBack_app _ _ l2 E2) in Hnew.
      rewrite (calledBack_app _ _ (l1 ++ l2)%list) by (by rewrite E2, E1, app_assoc).
      apply elem_of_app. by right.
Qed.

End CacheFacts.

(** ** Detailed transactions *)

Section JsonFacts.

(** Induction over a JSON value and the values inside it. *)
Lemma Json_induction (P : Json -> Prop) :
  P JNull -> (forall b, P (JBool b)) -> (forall x, P (JNumber x)) ->
  (forall s, P (JString s)) ->
  (forall items, Forall P items -> P (JArray items)) ->
  (forall entries, Forall (fun e => P e.2) entries -> P (JObject entries)) ->
  forall j, P j.
Proof.
  intros Hnull Hbool Hnum Hstr Harr Hobj. fix IH 1. intros [| b | x | s | items | entries].
  - exact Hnull.
  - apply Hbool.
  - apply Hnum.
  - apply Hstr.
  - apply Harr. induction items as [|item items IHitems]; constructor; [apply IH | exact IHitems].
  - apply Hobj. induction entries as [|[key value] entries IHentries]; constructor;
      [apply IH | exact IHentries].
Qed.

Lemma nullFree_array_cons (item : Json) (rest : list Json) :
  nullFree (JArray (item :: rest)) = nullFree item && nullFree (JArray rest).
Proof. reflexivity. Qed.

Lemma nullFree_object_cons (key : string) (value : Json) (rest : list (string * Json)) :
  nullFree (JObject ((key, value) :: rest))
  = negb (isNull value) && nullFree value && nullFree (JObject rest).
Proof. reflexivity. Qed.

Lemma isNull_true (value : Json) : isNull value = true -> value = JNull.
Proof. by destruct value. Qed.

Lemma cleanItems_spec (items : list Json) :
  Forall (fun item =>
            (removeNullValues item = None <-> ownsKey "hasOwnProperty" item = true) /\
            (forall r, removeNullValues item = Some r -> Cleaned item r)) items ->
  (cleanItems removeNullValues items = None <->
     existsb (ownsKey "hasOwnProperty") items = true) /\
  (forall rs, cleanItems removeNullValues items = Some rs ->
     length rs = length items /\
     (forall i, items !! i = Some JNull -> rs !! i = Some JNull) /\
     Cleaned (JArray items) (JArray rs)).
Proof.
  induction 1 as [|item rest [Hn Hs] _ [IHn IHs]].
  - split; [done |]. intros rs [= <-]. by split_and!.
  - cbn [cleanItems existsb].
    destruct (removeNullValues item) as [r|] eqn:Hr.
    2:{ rewrite (proj1 Hn eq_refl). by split. }
    destruct (Hs r eq_refl) as (Hr1 & Hr2 & Hr3 & Hr4).
    assert (ownsKey "hasOwnProperty" item = false) as ->.
    { destruct (ownsKey "hasOwnProperty" item); [|done]. by pose proof (proj2 Hn eq_refl). }
    cbn [orb].
    destruct (cleanItems removeNullValues rest) as [rs'|] eqn:Hrest.
    2:{ split; [|done]. split; [intros _; by apply IHn | done]. }
    split; [split; [done | by intros ?%IHn] |].
    intros rs [= <-]. destruct (IHs rs' eq_refl) as (Hlen & Hnulls & H1 & H2 & H3 & H4).
    split; [simpl; by rewrite Hlen |]. split.
    { intros [|i] Hi; simpl in *; [|by apply Hnulls].
      injection Hi as ->. by injection Hr as <-. }
    unfold Cleaned. rewrite !nullFree_array_cons. cbn [ownsKey existsb] in *.
    rewrite Hr1, Hr2, Hr3, H1, H2, H3. split_and!; try done. split.
    + intros [= -> ->].
      destruct (proj1 Hr4 eq_refl) as [-> ->]. destruct (proj1 H4 eq_refl) as [? ?]. done.
    + intros [[Ha Hb]%andb_prop [Hc Hd]%orb_false_iff].
      assert (r = item) as -> by (by apply Hr4).
      assert (JArray rs' = JArray rest) as [= ->] by (by apply H4). done.
Qed.

Lemma cleanEntries_spec (entries : list (string * Json)) :
  Forall (fun e =>
            (removeNullValues e.2 = None <-> ownsKey "hasOwnProperty" e.2 = true) /\
            (forall r, removeNullValues e.2 = Some r -> Cleaned e.2 r)) entries ->
  (cleanEntries removeNullValues entries = None <->
     existsb (fun e => ownsKey "hasOwnProperty" e.2) entries = true) /\
  (forall rs, cleanEntries removeNullValues entries = Some rs ->
     (length rs <= length entries)%nat /\
     (forall k, hasOwn k entries = false -> hasOwn k rs = false) /\
     hasOwn "__proto__" rs = false /\
     nullFree (JObject rs) = true /\
     existsb (fun e => ownsKey "__proto__" e.2) rs = false /\
     existsb (fun e => ownsKey "hasOwnProperty" e.2) rs = false /\
     (rs = entries <->
        nullFree (JObject entries) = true /\
        hasOwn "__proto__" entries = false /\
        existsb (fun e => ownsKey "__proto__" e.2) entries = false)).
Proof.
  induction 1 as [|[key value] rest [Hn Hs] _ [IHn IHs]].
  - split; [done |]. intros rs [= <-]. by split_and!.
  - cbn [snd] in Hn, Hs. cbn [cleanEntries existsb snd]. unfold hasOwn in *.
    cbn [existsb fst]. rewrite nullFree_object_cons.
    destruct (isNull value) eqn:Hnull.
    { apply isNull_true in Hnull as ->. cbn [ownsKey orb negb andb].
      split; [done |]. intros rs Hrs.
      destruct (IHs rs Hrs) as (Hlen & Hkeys & Hp & H1 & H2 & H3 & H4).
      split_and!; try done.
      - cbn [length]. lia.
      - intros k [_ Hk]%orb_false_iff. by apply Hkeys.
      - split; [|by intros [? _]]. intros ->. cbn [length] in Hlen. lia. }
    cbn [negb andb].
    destruct (removeNullValues value) as [r|] eqn:Hr.
    2:{ rewrite (proj1 Hn eq_refl). by split. }
    destruct (Hs r eq_refl) as (Hr1 & Hr2 & Hr3 & Hr4).
    assert (ownsKey "hasOwnProperty" value = false) as ->.
    { destruct (ownsKey "hasOwnProperty" value); [|done]. by pose proof (proj2 Hn eq_refl). }
    cbn [orb].
    destruct (cleanEntries removeNullValues rest) as [rs'|] eqn:Hrest.
    2:{ split; [|done]. split; [intros _; by apply IHn | done]. }
    split; [split; [done | by intros ?%IHn] |].
    intros rs [= <-].
    destruct (IHs rs' eq_refl) as (Hlen & Hkeys & Hp & H1 & H2 & H3 & H4).
    destruct (String.eqb_spec key "__proto__") as [-> | Hkey].
    + split_and!; try done.
      * cbn [length]. lia.
      * intros k [_ Hk]%orb_false_iff. by apply Hkeys.
      * split; [|by intros (_ & ? & _)]. intros ->. cbn [length] in Hlen. lia.
    + apply String.eqb_neq in Hkey.
      split_and!.
      * cbn [length]. lia.
      * intros k [Hk1 Hk2]%orb_false_iff. cbn [existsb fst]. rewrite Hk1. by apply Hkeys.
      * cbn [existsb fst]. by rewrite Hkey.
      * rewrite nullFree_object_cons, Hr1, H1.
        assert (isNull r = false) as ->; [|done].
        destruct r; try done. exfalso.
        destruct value; try done; simpl in Hr;
          try (by destruct (cleanItems _ _)); try (by destruct (hasOwn _ _), (cleanEntries _ _)).
      * cbn [existsb snd]. by rewrite Hr2, H2.
      * cbn [existsb snd]. by rewrite Hr3, H3.
      * rewrite ?Hkey. cbn [orb]. split.
        -- intros [= -> ->]. destruct (proj1 Hr4 eq_refl) as [-> ->].
           by destruct (proj1 H4 eq_refl) as (-> & -> & ->).
        -- intros ([Ha Hb]%andb_prop & Hc & [Hd He]%orb_false_iff).
           assert (r = value) as -> by (by apply Hr4).
           assert (rs' = rest) as -> by (by apply H4). done.
Qed.

Lemma removeNullValues_spec (j : Json) :
  (removeNullValues j = None <-> ownsKey "hasOwnProperty" j = true) /\
  (forall r, removeNullValues j = Some r -> Cleaned j r).
Proof.
  induction j as [| b | x | s | items IH | entries IH] using Json_induction;
    try (split; [done | by intros r [= <-]]).
  - destruct (cleanItems_spec items IH) as [Hnone Hsome]. cbn [removeNullValues ownsKey].
    destruct (cleanItems removeNullValues items) as [rs|]; simpl.
    + split; [split; [done | by intros ?%Hnone] |].
      intros r [= <-]. by apply Hsome.
    + split; [|done]. split; [intros _; by apply Hnone | done].
  - destruct (cleanEntries_spec entries IH) as [Hnone Hsome]. cbn [removeNullValues ownsKey].
    destruct (hasOwn "hasOwnProperty" entries) eqn:Hown; [by split |]. cbn [orb].
    destruct (cleanEntries removeNullValues entries) as [rs|]; simpl.
    + split; [split; [done | by intros ?%Hnone] |].
      intros r [= <-].
      destruct (Hsome rs eq_refl) as (Hlen & Hkeys & Hp & H1 & H2 & H3 & H4).
      unfold Cleaned. cbn [ownsKey]. rewrite Hp, H2, H3, (Hkeys _ Hown).
      split_and!; try done. split.
      * intros [= ->]. destruct (proj1 H4 eq_refl) as (? & -> & ->). done.
      * intros [Ha [Hb Hc]%orb_false_iff]. f_equal. by apply H4.
    + split; [|done]. split; [intros _; by apply Hnone | done].
Qed.

(** X9: [removeNullValues] throws exactly when some object inside its
    argument has a property [hasOwnProperty] of its own.  When it
    returns, the result has no [null]-valued property and no property
    "__proto__" in any object at any depth; it is the argument itself
    exactly when the argument had neither; and applied to its result it
    returns the result.  [null] elements of arrays stay, and arrays keep
    their length. *)
Theorem X9_removeNullValues (j : Json) :
  (removeNullValues j = None <-> ownsKey "hasOwnProperty" j = true) /\
  (forall r, removeNullValues j = Some r ->
     nullFree r = true /\
     ownsKey "__proto__" r = false /\
     (r = j <-> nullFree j = true /\ ownsKey "__proto__" j = false) /\
     removeNullValues r = Some r) /\
  (forall items r, j = JArray items -> removeNullValues j = Some r ->
     exists cleaned, r = JArray cleaned /\
       length cleaned = length items /\
       forall i, items !! i = Some JNull -> cleaned !! i = Some JNull).
Proof.
  destruct (removeNullValues_spec j) as [Hnone Hsome]. split_and!.
  - exact Hnone.
  - intros r Hr. destruct (Hsome r Hr) as (H1 & H2 & H3 & H4). split_and!; try done.
    destruct (removeNullValues_spec r) as [Hnone' Hsome'].
    destruct (removeNullValues r) as [r'|] eqn:Hr'.
    + f_equal. by apply (Hsome' r' eq_refl).
    + rewrite (proj1 Hnone' eq_refl) in H3. done.
  - intros items r -> Hr. cbn [removeNullValues] in Hr.
    destruct (cleanItems removeNullValues items) as [rs|] eqn:Hrs; [|done].
    injection Hr as <-. exists rs. split; [done |].
    assert (Forall (fun item =>
              (removeNullValues item = None <-> ownsKey "hasOwnProperty" item = true) /\
              (forall r, removeNullValues item = Some r -> Cleaned item r)) items) as Hall.
    { apply Forall_forall. intros item _. apply removeNullValues_spec. }
    destruct (cleanItems_spec items Hall) as [_ Hsome'].
    by destruct (Hsome' rs Hrs) as (? & ? & _).
Qed.

(** An object with a property "__proto__" loses it, together with its
    [null]-valued properties. *)
Example removeNullValues_drops_proto :
  removeNullValues (JObject [("__proto__", JObject []); ("a", JNull); ("b", JBool true)])
  = Some (JObject [("b", JBool true)]).
Proof. reflexivity. Qed.

End JsonFacts.

(** ** Splitting the address list *)

Section SplitFacts.






End SplitFacts.

(** ** The address checks *)

Section AddressFacts.
Context {World : Type} `{!Externals World} `{!Services World}.
Implicit Types (self : AddressController.t) (addresses : list string).

Lemma checkEach_Next self addresses :
  checkEach self addresses = Next <-> Forall (acceptable self) addresses.
Proof.
  induction addresses as [|a addresses IH]; [done |].
  simpl. rewrite Forall_cons. unfold acceptable at 1.
  destruct (isBlocked self a); [by intuition congruence |].
  destruct (Address_error a); [by intuition congruence |]. by intuition.
Qed.

Lemma checkEach_first self (pre post : list string) (a : string) :
  Forall (acceptable self) pre ->
  checkEach self (pre ++ a :: post) =
    if isBlocked self a
    then Responded (Status400 "This address cannot be queried as it causes performance issues")
    else match Address_error a with
         | Some e_message =>
             Responded (HandleErrors {| NodeError.message := "Invalid address: " ++ e_message;
                                        NodeError.code := Some 1 |})
         | None => checkEach self post
         end.
Proof.
  induction 1 as [|b pre [Hb He] _ IH]; [done |].
  simpl. by rewrite Hb, He.
Qed.


(** X10: [check] calls [next()] exactly when there is a first address,
    it is not empty, and every address is neither blocked nor rejected
    by [bitcore.Address]; otherwise the first address that fails decides
    the answer, and for that address the block list is consulted before
    the address is parsed. *)
Theorem X10_check self addresses :
  (check self addresses = Next <->
     (exists first rest, addresses = first :: rest /\ first <> "") /\
     Forall (acceptable self) addresses) /\
  (forall (pre post : list string) (a : string),
     addresses = (pre ++ a :: post)%list -> head addresses <> Some "" ->
     Forall (acceptable self) pre ->
     (isBlocked self a = true ->
        check self addresses =
          Responded
            (Status400 "This address cannot be queried as it causes performance issues")) /\
     (isBlocked self a = false -> forall e_message, Address_error a = Some e_message ->
        check self addresses =
          Responded (HandleErrors {| NodeError.message := "Invalid address: " ++ e_message;
                                     NodeError.code := Some 1 |}))).
Proof.
  split.
  - unfold check. destruct addresses as [|first rest].
    + split; [done | by intros [(? & ? & [=] & _) _]].
    + destruct (String.eqb_spec first "") as [-> | Hne].
      * split; [done | by intros [(? & ? & [= <- _] & ?) _]].
      * rewrite checkEach_Next. split; [by eauto | by intros [_ ?]].
  - intros pre post a -> Hhead Hpre.
    assert (check self (pre ++ a :: post) = checkEach self (pre ++ a :: post)) as ->.
    { unfold check. destruct (pre ++ a :: post)%list as [|first rest] eqn:Heq.
      - by destruct pre.
      - simpl in Hhead. destruct (String.eqb_spec first ""); [congruence | done]. }
    rewrite (checkEach_first _ _ _ _ Hpre).
    split; [by intros -> | by intros -> m ->].
Qed.


(** X12: when the address controller and the transaction controller
    have read the same registry, an output that [transformOutput] marks
    as a protocol address is addressed either to a key of the registry,
    and then that address cannot be queried ([checkAddr] answers 400 for
    it, and no list that contains it passes [check]), or to a name that
    only [Object.prototype] has, which the registry does not block:
    unless the block list has it, [checkAddr] answers what the address
    test of bitcore says. *)
Theorem X12_protocol_addresses_refused self (options : Options) (output : RawOutput.t)
    (index : nat) :
  (forall a, a ∈ AddressController.protocolAddresses self <->
             is_Some (PROTOCOL_ADDRESSES_DATA !! a)) ->
  let f := Vout.fields (transformOutput options output index) in
  OutputFields.isProtocolAddress f = true ->
  exists a,
    outputAddressOf output = Some a /\
    OutputFields.originalProtocolAddress f = Some a /\
    a <> "" /\
    (is_Some (PROTOCOL_ADDRESSES_DATA !! a) ->
       checkAddr self a =
         Responded (Status400 "This address cannot be queried as it causes performance issues") /\
       forall addresses, a ∈ addresses -> check self addresses <> Next) /\
    (PROTOCOL_ADDRESSES_DATA !! a = None ->
       JsProto.member a = true /\
       (a ∉ AddressController.blockedAddresses self ->
        checkAddr self a =
          match Address_error a with
          | Some e_message =>
              Responded (HandleErrors {| NodeError.message := "Invalid address: " ++ e_message;
                                         NodeError.code := Some 1 |})
          | None => Next
          end)).
Proof.
  intros Hsame f. unfold f, transformOutput. cbn [Vout.fields OutputFields.isProtocolAddress
    OutputFields.originalProtocolAddress].
  intros Hproto. rewrite Hproto. apply bool_decide_eq_true in Hproto.
  assert (exists a, outputAddressOf output = Some a /\ a <> "" /\
                    is_Some (protocolInfo a)) as (a & Ha & Hne & Hreg).
  { destruct (outputAddressOf output) as [a|] eqn:Hout; [|by destruct Hproto].
    exists a. split_and!; [done | | done].
    unfold outputAddressOf in Hout.
    destruct (JsString.truthy (RawOutput.address output)) as [b|] eqn:Hb.
    - injection Hout as ->. apply truthy_Some in Hb. by destruct Hb.
    - apply truthy_Some in Hout. by destruct Hout. }
  exists a. split_and!; [done | done | done | |].
  - intros Hown.
    assert (isBlocked self a = true) as Hblocked.
    { unfold isBlocked. apply orb_true_iff. right. apply bool_decide_eq_true. by apply Hsame. }
    split.
    + unfold checkAddr, check. destruct (String.eqb_spec a ""); [done |].
      simpl. by rewrite Hblocked.
    + intros addresses Hin Hnext. unfold check in Hnext.
      destruct addresses as [|first rest]; [done |].
      destruct (String.eqb first ""); [done |].
      apply checkEach_Next in Hnext. rewrite Forall_forall in Hnext.
      destruct (Hnext a Hin) as [Hfree _]. congruence.
  - intros Hnone. apply protocolInfo_is_Some in Hreg as [[? Hown] | Hm]; [congruence |].
    split; [done |]. intros Hfree.
    assert (isBlocked self a = false) as Hblocked.
    { unfold isBlocked. apply orb_false_iff.
      split; apply bool_decide_eq_false; [done |].
      intros [? Hown]%Hsame. congruence. }
    unfold checkAddr, check. destruct (String.eqb_spec a ""); [done |].
    simpl. rewrite Hblocked. by destruct (Address_error a).
Qed.

(** X13: behind [checkAddr] a sub-query handler never takes its
    blocked branch: whenever the handler runs, the address is not
    blocked, not empty and valid, the node is asked for the summary,
    and the answer is the node's error or the requested amount; when
    the check answers, the node is not asked. *)
Theorem X13_subquery_behind_check self (param : Param.t) (addr : string) (w : World) :
  match addrRoute self (fun a => addressSummarySubQuery self a param) addr w with
  | (inl response, w') => w' = w /\ checkAddr self addr = Responded response
  | (inr answer, w') =>
      isBlocked self addr = false /\ Address_error addr = None /\ addr <> "" /\
      w' = (node_getAddressSummary addr w).2 /\
      answer =
        match (node_getAddressSummary addr w).1 with
        | NodeFail err => SubQueryErrors err
        | NodeOk summary =>
            Jsonp match param with
                  | Param.balanceSat => Summary.balance summary
                  | Param.totalReceivedSat => Summary.totalReceived summary
                  | Param.totalSentSat => Summary.totalSpent summary
                  | Param.unconfirmedBalanceSat => Summary.unconfirmedBalance summary
                  end
        end
  end.
Proof.
  unfold addrRoute. destruct (checkAddr self addr) as [response|] eqn:Hcheck; [done |].
  unfold checkAddr, check in Hcheck.
  destruct (String.eqb_spec addr "") as [-> | Hne]; [done |].
  apply checkEach_Next, Forall_cons in Hcheck as [[Hfree Hvalid] _].
  unfold addressSummarySubQuery, getAddressSummary. rewrite Hfree.
  destruct (node_getAddressSummary addr w) as [[err|summary] w']; [done |].
  by split_and!.
Qed.

(** X14: for one and the same height the UTXO view and the transaction
    view report the same number of confirmations, except at height 0,
    where the transaction view counts from the genesis block and the
    UTXO view reports 0 and no height. *)
Theorem X14_utxo_confirmations (height : Z) (utxoArg : Utxo.arg) (transaction : RawTx.t) :
  Utxo.arg_height utxoArg = Some (RawTx.height transaction) ->
  (RawTx.height transaction <> 0 ->
     Utxo.confirmations (transformUtxo height utxoArg) = confirmationsOf transaction height) /\
  (RawTx.height transaction = 0 ->
     Utxo.confirmations (transformUtxo height utxoArg) = 0 /\
     Utxo.height (transformUtxo height utxoArg) = None /\
     confirmationsOf transaction height = height + 1).
Proof.
  intros Hh. unfold transformUtxo, confirmationsOf. simpl. rewrite Hh. split.
  - intros Hne. destruct (Z.ltb_spec 0 (RawTx.height transaction)),
      (Z.leb_spec 0 (RawTx.height transaction)); lia.
  - intros ->. simpl. split_and!; [done | done | lia].
Qed.

End AddressFacts.

(** ** Pages of a block *)

Section PageFacts.

Lemma slice_forward {A : Type} (arr : list A) (start stop : Z) :
  0 <= start -> 0 <= stop ->
  Js.slice arr start stop =
    take (Z.to_nat stop - Z.to_nat start) (drop (Z.to_nat start) arr).
Proof.
  intros Hstart Hstop. unfold Js.slice.
  destruct (Z.ltb_spec start 0); [lia |]. destruct (Z.ltb_spec stop 0); [lia |].
  destruct (decide (length arr <= Z.to_nat start)%nat) as [Hout | Hin].
  - rewrite (drop_ge arr (Z.to_nat start)) by done.
    rewrite drop_ge by lia. by rewrite !take_nil.
  - replace (Z.to_nat (Z.min start (Z.of_nat (length arr)))) with (Z.to_nat start) by lia.
    destruct (decide (Z.to_nat stop <= length arr)%nat) as [Hle | Hgt].
    + f_equal. lia.
    + rewrite !take_ge; [done | |]; rewrite length_drop; lia.
Qed.

Lemma pageOf_forward (txids : list string) (page : Z) :
  0 <= page ->
  pageOf txids page = take 10 (drop (10 * Z.to_nat page) txids).
Proof.
  intros Hpage. unfold pageOf, pageLength. rewrite slice_forward by lia.
  f_equal; [lia |]. f_equal. lia.
Qed.

Lemma pages_concat (txids : list string) (k : nat) :
  mjoin ((fun i : nat => pageOf txids (Z.of_nat i)) <$> seq 0 k) = take (10 * k) txids.
Proof.
  induction k as [|k IH]; [done |].
  rewrite seq_S, fmap_app, join_app, IH. simpl. rewrite app_nil_r.
  rewrite pageOf_forward by lia. rewrite Nat2Z.id, take_take_drop. f_equal. lia.
Qed.

(** X15: the pages of a block.  A page has at most ten ids; pages 0,
    1, ... are the consecutive runs of ten; the pages below [pagesTotal]
    are not empty and together give every id once, in order; every
    page from [pagesTotal] on is empty.  Page -1 is always empty, while
    page -2 of a block with more than ten transactions is not. *)
Theorem X15_pages (txids : list string) :
  let pagesTotal := pagesTotalOf txids in
  (forall page, (length (pageOf txids page) <= 10)%nat) /\
  (forall page, 0 <= page ->
     pageOf txids page = take 10 (drop (10 * Z.to_nat page) txids)) /\
  mjoin ((fun i : nat => pageOf txids (Z.of_nat i)) <$> seq 0 (Z.to_nat pagesTotal)) = txids /\
  (forall page, 0 <= page < pagesTotal -> pageOf txids page <> []) /\
  (forall page, pagesTotal <= page -> pageOf txids page = []) /\
  pageOf txids (-1) = [] /\
  ((10 < length txids)%nat -> pageOf txids (-2) <> []).
Proof.
  cbv zeta. unfold pagesTotalOf, Js.ceil_div, pageLength.
  assert (0 <= (Z.of_nat (length txids) + 10 - 1) / 10) as Htotal
    by (apply Z.div_pos; lia).
  assert (Z.of_nat (length txids) <= 10 * ((Z.of_nat (length txids) + 10 - 1) / 10)
          < Z.of_nat (length txids) + 10) as Hceil.
  { pose proof (Z.div_mod (Z.of_nat (length txids) + 10 - 1) 10).
    pose proof (Z.mod_pos_bound (Z.of_nat (length txids) + 10 - 1) 10). lia. }
  split_and!.
  - intros page. unfold pageOf, Js.slice, pageLength. rewrite length_take, length_drop.
    destruct (Z.ltb_spec (page * 10) 0), (Z.ltb_spec (page * 10 + 10) 0); lia.
  - apply pageOf_forward.
  - rewrite pages_concat. apply take_ge. lia.
  - intros page Hpage Hnil. apply (f_equal length) in Hnil.
    rewrite pageOf_forward, length_take, length_drop in Hnil by lia. cbn [length] in Hnil. lia.
  - intros page Hpage. rewrite pageOf_forward by lia.
    rewrite drop_ge; [done | lia].
  - unfold pageOf, pageLength. change (-1 * 10) with (-10). change (-10 + 10) with 0.
    unfold Js.slice. change (-10 <? 0) with true. change (0 <? 0) with false. cbv iota.
    replace (Z.to_nat _) with 0%nat by lia. done.
  - intros Hlen Hnil. apply (f_equal length) in Hnil.
    unfold pageOf, pageLength in Hnil.
    change (-2 * 10) with (-20) in Hnil. change (-20 + 10) with (-10) in Hnil.
    unfold Js.slice in Hnil.
    change (-20 <? 0) with true in Hnil. change (-10 <? 0) with true in Hnil.
    rewrite length_take, length_drop in Hnil. cbn [length] in Hnil. lia.
Qed.

End PageFacts.

(** ** Listing the transactions of a block *)

Section ListFacts.
Context {World : Type} `{!Externals World} `{!Services World}.
Implicit Types (c : Controller World).

Lemma mapSeries_cons {A B : Type} (f : A -> M (Step B)) (a : A) (l : list A) c :
  mapSeries f (a :: l) c =
    match (f a c).1 with
    | Threw => (Threw, (f a c).2)
    | Stopped err => (Stopped err, (f a c).2)
    | Went b =>
        match (mapSeries f l (f a c).2).1 with
        | Threw => (Threw, (mapSeries f l (f a c).2).2)
        | Stopped err => (Stopped err, (mapSeries f l (f a c).2).2)
        | Went bs => (Went (b :: bs), (mapSeries f l (f a c).2).2)
        end
    end.
Proof.
  simpl. unfold bind, ret. destruct (f a c) as [[| err | b] c1]; [done | done |].
  simpl. by destruct (mapSeries f l c1) as [[| err | bs] c2].
Qed.

Lemma mapSeries_stops {A B : Type} (f : A -> M (Step B)) (pre post : list A) (t : A)
    c (finished : list B) cpre (err : Failure) ct :
  mapSeries f pre c = (Went finished, cpre) ->
  f t cpre = (Stopped err, ct) ->
  mapSeries f (pre ++ t :: post) c = (Stopped err, ct).
Proof.
  revert c finished. induction pre as [|a pre IH]; intros c finished Hpre Ht.
  - injection Hpre as _ <-. simpl app. rewrite mapSeries_cons, Ht. done.
  - simpl app. rewrite mapSeries_cons in Hpre |- *.
    destruct (f a c) as [[| e | b] c1]; simpl in *; [done | done |].
    destruct (mapSeries f pre c1) as [[| e | bs] c2] eqn:Hrest; simpl in *; [done | done |].
    injection Hpre as _ <-. by rewrite (IH c1 bs Hrest Ht).
Qed.

Lemma mapSeries_went {A B : Type} (f : A -> M (Step B)) (R : A -> B -> Prop) (l : list A)
    c (finished : list B) c' :
  (forall a c0 b, (f a c0).1 = Went b -> R a b) ->
  mapSeries f l c = (Went finished, c') -> Forall2 R l finished.
Proof.
  intros Hf. revert c finished. induction l as [|a l IH]; intros c finished Hrun.
  - injection Hrun as <- _. constructor.
  - rewrite mapSeries_cons in Hrun.
    destruct (f a c) as [[| e | b] c1] eqn:Ha; simpl in *; [done | done |].
    destruct (mapSeries f l c1) as [[| e | bs] c2] eqn:Hrest; simpl in *; [done | done |].
    injection Hrun as <- <-. constructor; [|by eapply IH].
    apply (Hf a c). by rewrite Ha.
Qed.

Lemma query_run {A : Type} (ask : World -> A * World) c :
  query ask c = ((ask (world c)).1, withWorld c (ask (world c)).2).
Proof. unfold query. by destruct (ask (world c)). Qed.

Lemma listOne_fails (txid : string) c (err : NodeError.t) (w' : World) :
  node_getDetailedTransaction txid (world c) = (NodeFail err, w') ->
  listOne txid c = (Stopped (NodeFailure err), withWorld c w').
Proof. intros Hnode. unfold listOne. rewrite bind_run, query_run, Hnode. done. Qed.

Lemma listOne_went (txid : string) c (T : Tx.t) c' :
  listOne txid c = (Went T, c') ->
  exists transaction w,
    node_getDetailedTransaction txid (world c) = (NodeOk transaction, w) /\
    wellFormed transaction /\
    transformTransaction transaction noOptions (withWorld c w)
      = (Some (callback None T), c').
Proof.
  unfold listOne. rewrite bind_run, query_run. cbn [fst snd].
  destruct (node_getDetailedTransaction txid (world c)) as [[err|transaction] w]; [done |].
  cbn [fst snd]. rewrite bind_run.
  destruct (transformVin transaction noOptions) as [vin|] eqn:Hvin.
  - rewrite (transform_run _ _ _ _ Hvin). cbn [fst snd cb_err callback].
    intros [= <- <-]. exists transaction, w.
    split_and!; [done | | by rewrite (transform_run _ _ _ _ Hvin)].
    unfold wellFormed, transformVin in *. intros Hcb. rewrite Hcb in Hvin.
    by destruct (RawTx.inputs transaction).
  - unfold transformTransaction, bind, readWorld. rewrite Hvin. done.
Qed.

Lemma mapSeries_listed (txids : list string) c (txs : list Tx.t) c' :
  mapSeries listOne txids c = (Went txs, c') -> Listed c txids txs c'.
Proof.
  revert c txs. induction txids as [|txid txids IH]; intros c txs Hrun.
  - injection Hrun as <- <-. constructor.
  - rewrite mapSeries_cons in Hrun.
    destruct (listOne txid c) as [[| e | T] c1] eqn:Hone; simpl in *; [done | done |].
    destruct (mapSeries listOne txids c1) as [[| e | rest] c2] eqn:Hrest; simpl in *;
      [done | done |].
    injection Hrun as <- <-.
    apply listOne_went in Hone as (transaction & w & Hnode & Hwf & Htransform).
    econstructor; eauto.
Qed.

Lemma Listed_length c (txids : list string) (txs : list Tx.t) c' :
  Listed c txids txs c' -> length txs = length txids.
Proof. induction 1; simpl; congruence. Qed.

(** X16: when a transaction of the page cannot be fetched, [list]
    answers with that error, whatever its code; the transactions before
    it have been fetched and transformed, the ones after it are never
    asked for. *)
Theorem X16_list_stops_at_first_failure (blockHash : string) (page : Z) c
    (block : BlockOverview) (w1 : World) (pre post : list string) (t : string)
    (finished : list Tx.t) cpre (err : NodeError.t) (w' : World) :
  node_getBlockOverview blockHash (world c) = (NodeOk block, w1) ->
  pageOf (block_txids block) page = (pre ++ t :: post)%list ->
  mapSeries listOne pre (withWorld c w1) = (Went finished, cpre) ->
  node_getDetailedTransaction t (world cpre) = (NodeFail err, w') ->
  listBlock blockHash page c =
    (Some (ListErrors (Some (NodeFailure err))), withWorld cpre w').
Proof.
  intros Hblock Hpage Hpre Ht. unfold listBlock.
  rewrite bind_run, query_run, Hblock. cbn [fst snd]. rewrite bind_run, Hpage.
  by rewrite (mapSeries_stops _ _ _ _ _ _ _ _ _ Hpre (listOne_fails _ _ _ _ Ht)).
Qed.

(** X17: when [list] answers with transactions, [pagesTotal] is the
    number of pages of the block and [txs] has one transaction for every
    id of the page, in order, at most ten: each is the transform, by the
    controller as it is by then, of the well-formed transaction that the
    node returns for that id when it is asked, one id after the other;
    the controller ends as the last transform leaves it. *)
Theorem X17_list_answer (blockHash : string) (page : Z) c (block : BlockOverview)
    (w1 : World) (pagesTotal : Z) (txs : list Tx.t) c' :
  node_getBlockOverview blockHash (world c) = (NodeOk block, w1) ->
  listBlock blockHash page c = (Some (ListJsonp pagesTotal txs), c') ->
  pagesTotal = pagesTotalOf (block_txids block) /\
  (length txs <= 10)%nat /\
  Listed (withWorld c w1) (pageOf (block_txids block) page) txs c'.
Proof.
  intros Hblock. unfold listBlock.
  rewrite bind_run, query_run, Hblock. cbn [fst snd]. rewrite bind_run.
  destruct (mapSeries listOne (pageOf (block_txids block) page) (withWorld c w1))
    as [[| e | transformed] c2] eqn:Hrun; simpl; [done | done |].
  intros [= <- <- <-]. apply mapSeries_listed in Hrun.
  split_and!; [done | | done].
  rewrite (Listed_length _ _ _ _ Hrun).
  unfold pageOf, Js.slice, pageLength. rewrite length_take, length_drop.
  destruct (Z.ltb_spec (page * 10) 0), (Z.ltb_spec (page * 10 + 10) 0); lia.
Qed.

Lemma mapSeries_stopped {A B : Type} (f : A -> M (Step B)) (l : list A) c
    (err : Failure) c' :
  mapSeries f l c = (Stopped err, c') ->
  exists a c0, a ∈ l /\ (f a c0).1 = Stopped err.
Proof.
  revert c. induction l as [|a l IH]; intros c Hrun; [done |].
  rewrite mapSeries_cons in Hrun.
  destruct (f a c) as [[| e | b] c1] eqn:Ha; simpl in *; [done | |].
  - injection Hrun as -> _. exists a, c. split; [by left | by rewrite Ha].
  - destruct (mapSeries f l c1) as [[| e | bs] c2] eqn:Hrest; simpl in *; [done | | done].
    injection Hrun as -> <-. destruct (IH c1 Hrest) as (a' & c0 & Hin & Hstop).
    exists a', c0. split; [by right | done].
Qed.

Lemma listOne_stopped (txid : string) c (failure : Failure) :
  (listOne txid c).1 = Stopped failure ->
  exists err, failure = NodeFailure err /\
              (node_getDetailedTransaction txid (world c)).1 = NodeFail err.
Proof.
  unfold listOne. rewrite bind_run, query_run. cbn [fst snd].
  destruct (node_getDetailedTransaction txid (world c)) as [[err|transaction] w].
  - intros [= <-]. by exists err.
  - cbn [fst snd]. rewrite bind_run.
    destruct (transformVin transaction noOptions) as [vin|] eqn:Hvin.
    + by rewrite (transform_run _ _ _ _ Hvin).
    + unfold transformTransaction, bind, readWorld. by rewrite Hvin.
Qed.

(** X21: an error that [list] reports for a block always comes from
    the node: it is the error of [getBlockOverview] (with a code other
    than -5) or of [getDetailedTransaction] for an id of the page.
    Failed identity lookups and failed script decodes never fail a
    listing. *)
Theorem X21_list_errors_come_from_node (blockHash : string) (page : Z) c
    (failure : Failure) c' :
  listBlock blockHash page c = (Some (ListErrors (Some failure)), c') ->
  exists err, failure = NodeFailure err /\
    ((node_getBlockOverview blockHash (world c)).1 = NodeFail err /\
       NodeError.code err <> Some (-5) \/
     exists block txid w,
       (node_getBlockOverview blockHash (world c)).1 = NodeOk block /\
       txid ∈ pageOf (block_txids block) page /\
       (node_getDetailedTransaction txid w).1 = NodeFail err).
Proof.
  unfold listBlock. rewrite bind_run, query_run.
  destruct (node_getBlockOverview blockHash (world c)) as [[err|block] w1]; cbn [fst snd].
  - destruct (decide (NodeError.code err = Some (-5))) as [Hcode | Hcode].
    + by rewrite bool_decide_eq_true_2.
    + rewrite bool_decide_eq_false_2 by done. intros [= <- _]. exists err. by auto.
  - rewrite bind_run.
    destruct (mapSeries listOne (pageOf (block_txids block) page) (withWorld c w1))
      as [[| e | transformed] c2] eqn:Hrun; simpl; [done | | done].
    intros [= <- _]. apply mapSeries_stopped in Hrun as (txid & c0 & Hin & Hstop).
    apply listOne_stopped in Hstop as (err & -> & Hnode).
    exists err. split; [done |]. right. by exists block, txid, (world c0).
Qed.

End ListFacts.

(** ** Subscriptions *)

Section SubscriptionFacts.
Implicit Types (inv : list Emitter) (emitter : Emitter).

Lemma indexOf_None inv emitter : Js.indexOf emitter inv = None <-> emitter ∉ inv.
Proof.
  induction inv as [|e inv IH]; simpl.
  - split; [intros _; apply not_elem_of_nil | done].
  - rewrite not_elem_of_cons. destruct (decide (e = emitter)) as [-> | Hne].
    + split; [done | by intros [? _]].
    + rewrite fmap_None, IH. split; [by auto | by intros [_ ?]].
Qed.

Lemma subscribe_elem inv emitter (e : Emitter) :
  e ∈ subscribe inv emitter <-> e = emitter \/ e ∈ inv.
Proof.
  unfold subscribe. destruct (Js.indexOf emitter inv) as [i|] eqn:Hi.
  - split; [by auto |]. intros [-> | Hin]; [|done].
    destruct (decide (emitter ∈ inv)) as [Hin | Hout]; [done |].
    apply indexOf_None in Hout. congruence.
  - rewrite elem_of_app, list_elem_of_singleton. tauto.
Qed.

Lemma subscribe_NoDup inv emitter : NoDup inv -> NoDup (subscribe inv emitter).
Proof.
  intros Hnd. unfold subscribe. destruct (Js.indexOf emitter inv) as [i|] eqn:Hi; [done |].
  apply indexOf_None in Hi. apply NoDup_app. split_and!; [done | | apply NoDup_singleton].
  intros e Hin ->%list_elem_of_singleton. done.
Qed.

Lemma unsubscribe_cons inv emitter (e : Emitter) :
  unsubscribe (e :: inv) emitter =
    if decide (e = emitter) then inv else e :: unsubscribe inv emitter.
Proof.
  unfold unsubscribe. simpl. destruct (decide (e = emitter)); [done |].
  by destruct (Js.indexOf emitter inv).
Qed.

Lemma unsubscribe_elem inv emitter (e : Emitter) :
  NoDup inv -> e ∈ unsubscribe inv emitter <-> e <> emitter /\ e ∈ inv.
Proof.
  induction 1 as [|x inv Hx Hnd IH].
  { unfold unsubscribe. simpl. split; [by intros ?%elem_of_nil | by intros [_ ?%elem_of_nil]]. }
  rewrite unsubscribe_cons. destruct (decide (x = emitter)) as [-> | Hne].
  - rewrite elem_of_cons. split; [|by intros [? [? | ?]]].
    intros Hin. split; [by intros -> | by right].
  - rewrite !elem_of_cons, IH. split; [|tauto].
    intros [-> | [? ?]]; [by auto | by auto].
Qed.

Lemma unsubscribe_NoDup inv emitter : NoDup inv -> NoDup (unsubscribe inv emitter).
Proof.
  induction 1 as [|x inv Hx Hnd IH]; [apply NoDup_nil_2 |].
  rewrite unsubscribe_cons. destruct (decide (x = emitter)); [done |].
  apply NoDup_cons. split; [|done]. by intros [_ ?]%unsubscribe_elem.
Qed.

Lemma subscribedAfter_snoc emitter (events : list SubscriptionEvent)
    (event : SubscriptionEvent) :
  subscribedAfter emitter (events ++ [event]) =
    match event with
    | Subscribes e => if decide (e = emitter) then true else subscribedAfter emitter events
    | Unsubscribes e => if decide (e = emitter) then false else subscribedAfter emitter events
    end.
Proof. unfold subscribedAfter. by rewrite foldl_app. Qed.

(** X18: starting from no subscriptions, after any sequence of
    [subscribe] and [unsubscribe] calls no emitter is listed twice, an
    emitter is listed exactly when its last call was [subscribe], and a
    block event goes once to each listed emitter and to nobody else. *)
Theorem X18_subscriptions (events : list SubscriptionEvent) (hashHex : string) :
  let inv := foldl applyEvent [] events in
  NoDup inv /\
  (forall emitter, emitter ∈ inv <-> subscribedAfter emitter events = true) /\
  NoDup (blockEventHandler inv hashHex) /\
  (forall emitter payload,
     (emitter, payload) ∈ blockEventHandler inv hashHex <->
     subscribedAfter emitter events = true /\ payload = hashHex).
Proof.
  cbv zeta.
  assert (NoDup (foldl applyEvent [] events) /\
          forall emitter, emitter ∈ foldl applyEvent [] events <->
                          subscribedAfter emitter events = true) as [Hnd Hin].
  { induction events as [|event events [IHnd IHin]] using rev_ind.
    - split; [apply NoDup_nil_2 |]. intros emitter. simpl. split; [by intros ?%elem_of_nil | done].
    - rewrite foldl_app. cbn [foldl]. destruct event as [e | e]; cbn [applyEvent].
      + split; [by apply subscribe_NoDup |]. intros emitter.
        rewrite subscribe_elem, IHin, subscribedAfter_snoc.
        destruct (decide (e = emitter)) as [-> | Hne].
        * split; [done | by left].
        * split; [intros [-> | ?]; done | by right].
      + split; [by apply unsubscribe_NoDup |]. intros emitter.
        rewrite unsubscribe_elem, IHin, subscribedAfter_snoc by done.
        destruct (decide (e = emitter)) as [-> | Hne].
        * split; [by intros [? _] | done].
        * split; [by intros [_ ?] | by split]. }
  split_and!; [done | done | |].
  - unfold blockEventHandler. apply NoDup_fmap_2; [by intros e1 e2 [= ->] | done].
  - intros emitter payload. unfold blockEventHandler. rewrite list_elem_of_fmap, <- Hin. split.
    + by intros (e & [= -> ->] & ?).
    + intros [? ->]. by exists emitter.
Qed.

End SubscriptionFacts.

(** ** Escaping *)

(** Runs the replacements over the characters that are known. *)
Ltac escape_steps :=
  repeat (progress (rewrite ?append_cons, ?append_nil_l; cbn [Js.replaceAll];
                    simpl Ascii.eqb; cbv iota)).

Section EscapeFacts.

Lemma escapeHtml_each (json : string) : escapeHtml json = escapeEach json.
Proof.
  unfold escapeHtml. induction json as [|ch json IH]; [done |].
  cbn [Js.replaceAll escapeEach]. unfold escapeChar.
  destruct (Ascii.eqb_spec ch "&") as [-> | Hamp]; [by escape_steps; rewrite IH |].
  cbn [Js.replaceAll].
  destruct (Ascii.eqb_spec ch "<") as [-> | Hlt]; [by escape_steps; rewrite IH |].
  cbn [Js.replaceAll].
  destruct (Ascii.eqb_spec ch ">") as [-> | Hgt]; [by escape_steps; rewrite IH |].
  escape_steps. by rewrite IH.
Qed.

Lemma escapeChar_inj (x y : ascii) (a b : string) :
  escapeChar x ++ a = escapeChar y ++ b -> x = y /\ a = b.
Proof.
  unfold escapeChar.
  destruct (Ascii.eqb_spec x "&") as [-> | Hxa];
    [|destruct (Ascii.eqb_spec x "<") as [-> | Hxl];
      [|destruct (Ascii.eqb_spec x ">") as [-> | Hxg]]];
  (destruct (Ascii.eqb_spec y "&") as [-> | Hya];
    [|destruct (Ascii.eqb_spec y "<") as [-> | Hyl];
      [|destruct (Ascii.eqb_spec y ">") as [-> | Hyg]]]);
  rewrite ?append_cons, ?append_nil_l; intros Heq; by simplify_eq.
Qed.

Lemma escapeEach_inj (a b : string) : escapeEach a = escapeEach b -> a = b.
Proof.
  revert b. induction a as [|x a IH]; intros [|y b]; cbn [escapeEach].
  - done.
  - unfold escapeChar.
    destruct (Ascii.eqb y "&"), (Ascii.eqb y "<"), (Ascii.eqb y ">"); intros [=].
  - unfold escapeChar.
    destruct (Ascii.eqb x "&"), (Ascii.eqb x "<"), (Ascii.eqb x ">"); intros [=].
  - intros [-> ->%IH]%escapeChar_inj. done.
Qed.

Lemma escapeEach_clean (s : string) :
  occurs "<" (escapeEach s) = false /\ occurs ">" (escapeEach s) = false.
Proof.
  induction s as [|ch s [IHlt IHgt]]; [done |]. simpl. unfold escapeChar.
  destruct (Ascii.eqb_spec ch "&") as [-> | Hamp]; [by rewrite !append_cons |].
  destruct (Ascii.eqb_spec ch "<") as [-> | Hlt]; [by rewrite !append_cons |].
  destruct (Ascii.eqb_spec ch ">") as [-> | Hgt]; [by rewrite !append_cons |].
  rewrite append_cons. simpl.
  destruct (Ascii.eqb_spec ch "<"), (Ascii.eqb_spec ch ">"); done.
Qed.

(** X20: the three replacements escape every character once, as if in
    a single pass (the ampersands they insert are not escaped again);
    the text they produce has no "<" and no ">"; and two different JSON
    texts never give the same escaped text. *)
Theorem X20_escapeHtml (json : string) :
  escapeHtml json = escapeEach json /\
  occurs "<" (escapeHtml json) = false /\
  occurs ">" (escapeHtml json) = false /\
  (forall other, escapeHtml other = escapeHtml json -> other = json).
Proof.
  rewrite escapeHtml_each. destruct (escapeEach_clean json) as [Hlt Hgt].
  split_and!; [done | done | done |].
  intros other. rewrite escapeHtml_each. apply escapeEach_inj.
Qed.

End EscapeFacts.

(** * The further properties on the concrete node *)

Section TransformerInstances.


Lemma X3_vin_vout_aligned_witness :
  wellFormed Demo.feePoolTx /\
  exists T c',
    transformTransaction Demo.feePoolTx Demo.options Demo.fresh
      = (Some (callback None T), c') /\
    length (Tx.vout T) = 2%nat /\ length (Tx.vin T) = 1%nat.
Proof.
  assert (wellFormed Demo.feePoolTx) as Hwf by (intros Hcb; discriminate Hcb).
  split; [exact Hwf |].
  destruct (@X3_vin_vout_aligned nat Demo.externals Demo.feePoolTx Demo.options
              Demo.fresh Hwf) as (T & c' & Hrun & Hout & _ & Hin).
  exists T, c'. split; [exact Hrun |]. split; [exact Hout | exact (proj1 (Hin eq_refl))].
Defined.

Lemma X4_blocktime_witness :
  wellFormed Demo.feePoolTx /\
  exists T c',
    transformTransaction Demo.feePoolTx Demo.options Demo.fresh
      = (Some (callback None T), c') /\
    Tx.time T = 1600000000 /\
    (Tx.blocktime T = None <-> 100 = 105 + 1).
Proof.
  assert (wellFormed Demo.feePoolTx) as Hwf by (intros Hcb; discriminate Hcb).
  split; [exact Hwf |].
  destruct (@X4_blocktime nat Demo.externals Demo.feePoolTx Demo.options
              Demo.fresh Hwf) as (T & c' & Hrun & _ & _ & Htime & Hblock).
  exists T, c'. split; [exact Hrun |].
  split; [apply (Htime 1600000000); [reflexivity | discriminate] |].
  apply Hblock. discriminate.
Defined.

Lemma X5_decode_results_follow_type_witness :
  wellFormed Demo.feePoolTx /\
  exists T c',
    transformTransaction Demo.feePoolTx Demo.options Demo.fresh
      = (Some (callback None T), c') /\
    Forall Typed (Tx.vout T).
Proof.
  assert (wellFormed Demo.feePoolTx) as Hwf by (intros Hcb; discriminate Hcb).
  split; [exact Hwf |].
  destruct (@X5_decode_results_follow_type nat Demo.externals Demo.feePoolTx Demo.options
              Demo.fresh Hwf) as (T & c' & Hrun & Hall & _).
  exists T, c'. split; [exact Hrun | exact Hall].
Defined.

Lemma X6_requests_of_a_transform_witness :
  wellFormed Demo.feePoolTx /\
  exists T c',
    transformTransaction Demo.feePoolTx Demo.options Demo.fresh
      = (Some (callback None T), c') /\
    io c' = [IoDecodeScript (Some "c0ffee"); IoGetIdentity "iDDD"; IoGetIdentity "iAAA"].
Proof.
  assert (wellFormed Demo.feePoolTx) as Hwf by (intros Hcb; discriminate Hcb).
  split; [exact Hwf |].
  destruct (@X6_requests_of_a_transform nat Demo.externals Demo.feePoolTx Demo.options
              Demo.fresh Hwf) as (T & c' & Hrun & _ & Hio).
  exists T, c'. split; [exact Hrun |]. rewrite Hio. by vm_compute.
Defined.

Lemma X7_coinbase_without_input_throws_witness :
  RawTx.coinbase DemoNode.brokenCoinbaseTx = true /\
  RawTx.inputs DemoNode.brokenCoinbaseTx = [] /\
  transformTransaction DemoNode.brokenCoinbaseTx Demo.options Demo.fresh = (None, Demo.fresh).
Proof.
  split; [reflexivity |]. split; [reflexivity |].
  exact (@X7_coinbase_without_input_throws nat Demo.externals DemoNode.brokenCoinbaseTx
           Demo.options Demo.fresh eq_refl eq_refl).
Defined.

End TransformerInstances.

Section HandlerInstances.

Lemma demo_registry_shared (a : string) :
  a ∈ AddressController.protocolAddresses DemoNode.addresses <->
  is_Some (@PROTOCOL_ADDRESSES_DATA nat Demo.externals !! a).
Proof.
  cbn [AddressController.protocolAddresses DemoNode.addresses PROTOCOL_ADDRESSES_DATA
       Demo.externals].
  rewrite !elem_of_cons, lookup_insert_is_Some, lookup_singleton_is_Some.
  unfold FEE_POOL_ADDRESS, NOTARIZATION_ADDRESS. split.
  - intros [-> | [-> | []%elem_of_nil]]; [by left | right; by split].
  - intros [<- | [_ <-]]; [by left | right; by left].
Qed.

Lemma X12_protocol_addresses_refused_witness :
  (forall a, a ∈ AddressController.protocolAddresses DemoNode.addresses <->
             is_Some (@PROTOCOL_ADDRESSES_DATA nat Demo.externals !! a)) /\
  OutputFields.isProtocolAddress
    (Vout.fields (transformOutput Demo.options (Demo.outputTo FEE_POOL_ADDRESS "c0ffee") 1))
    = true /\
  checkAddr DemoNode.addresses FEE_POOL_ADDRESS =
    Responded (Status400 "This address cannot be queried as it causes performance issues") /\
  forall addresses,
    FEE_POOL_ADDRESS ∈ addresses -> check DemoNode.addresses addresses <> Next.
Proof.
  split; [exact demo_registry_shared |]. split; [reflexivity |].
  destruct (@X12_protocol_addresses_refused nat Demo.externals DemoNode.services
              DemoNode.addresses Demo.options (Demo.outputTo FEE_POOL_ADDRESS "c0ffee") 1%nat
              demo_registry_shared eq_refl)
    as (a & Ha & _ & _ & Hown & _).
  injection Ha as <-. apply Hown. apply demo_registry_shared. by left.
Defined.

Lemma X14_utxo_confirmations_witness :
  Utxo.arg_height (DemoNode.utxo 100) = Some (RawTx.height Demo.feePoolTx) /\
  Utxo.confirmations (transformUtxo 105 (DemoNode.utxo 100)) =
    confirmationsOf Demo.feePoolTx 105.
Proof.
  split; [reflexivity |].
  apply (X14_utxo_confirmations 105 (DemoNode.utxo 100) Demo.feePoolTx eq_refl).
  discriminate.
Defined.

Lemma X16_list_stops_at_first_failure_witness :
  let run := mapSeries listOne ["f00d"] (withWorld Demo.fresh 1%nat) in
  node_getBlockOverview "b10c" (world Demo.fresh)
    = (NodeOk {| block_txids := ["f00d"; "dead"; "beef"] |}, 1%nat) /\
  pageOf ["f00d"; "dead"; "beef"] 0 = ["f00d"; "dead"; "beef"] /\
  (exists finished, run = (Went finished, run.2)) /\
  node_getDetailedTransaction "dead" (world run.2)
    = (NodeFail DemoNode.missing, S (world run.2)) /\
  listBlock "b10c" 0 Demo.fresh =
    (Some (ListErrors (Some (NodeFailure DemoNode.missing))),
     withWorld run.2 (S (world run.2))).
Proof.
  cbv zeta. split; [reflexivity |]. split; [reflexivity |].
  destruct (mapSeries listOne ["f00d"] (withWorld Demo.fresh 1%nat))
    as [[| failure | finished] cpre] eqn:Hrun;
    [apply (f_equal fst) in Hrun; vm_compute in Hrun; discriminate Hrun
    |apply (f_equal fst) in Hrun; vm_compute in Hrun; discriminate Hrun |].
  split; [by exists finished |]. split; [reflexivity |].
  exact (@X16_list_stops_at_first_failure nat Demo.externals DemoNode.services
           "b10c" 0 Demo.fresh {| block_txids := ["f00d"; "dead"; "beef"] |} 1%nat
           ["f00d"] ["beef"] "dead" finished cpre DemoNode.missing (S (world cpre))
           eq_refl eq_refl Hrun eq_refl).
Defined.

Lemma X17_list_answer_witness :
  node_getBlockOverview "b10d" (world Demo.fresh)
    = (NodeOk {| block_txids := ["f00d"; "beef"] |}, 1%nat) /\
  exists pagesTotal txs c',
    listBlock "b10d" 0 Demo.fresh = (Some (ListJsonp pagesTotal txs), c') /\
    pagesTotal = 1 /\ length txs = 2%nat.
Proof.
  split; [reflexivity |].
  destruct (listBlock "b10d" 0 Demo.fresh) as [[[failure | pagesTotal txs]|] c'] eqn:Hrun;
    [apply (f_equal fst) in Hrun; vm_compute in Hrun; discriminate Hrun | |
     apply (f_equal fst) in Hrun; vm_compute in Hrun; discriminate Hrun].
  destruct (@X17_list_answer nat Demo.externals DemoNode.services "b10d" 0 Demo.fresh
              {| block_txids := ["f00d"; "beef"] |} 1%nat pagesTotal txs c' eq_refl Hrun)
    as (Htotal & _ & Hall).
  exists pagesTotal, txs, c'. split; [reflexivity |]. split; [exact Htotal |].
  exact (Listed_length _ _ _ _ Hall).
Defined.

Lemma X21_list_errors_come_from_node_witness :
  exists c',
    listBlock "b10c" 0 Demo.fresh =
      (Some (ListErrors (Some (NodeFailure DemoNode.missing))), c') /\
    exists err, NodeFailure DemoNode.missing = NodeFailure err /\
      ((node_getBlockOverview "b10c" (world Demo.fresh)).1 = NodeFail err /\
         NodeError.code err <> Some (-5) \/
       exists block txid w,
         (node_getBlockOverview "b10c" (world Demo.fresh)).1 = NodeOk block /\
         txid ∈ pageOf (block_txids block) 0 /\
         (node_getDetailedTransaction txid w).1 = NodeFail err).
Proof.
  destruct (listBlock "b10c" 0 Demo.fresh) as [response c'] eqn:Hrun.
  assert (response = Some (ListErrors (Some (NodeFailure DemoNode.missing)))) as ->
    by (apply (f_equal fst) in Hrun; vm_compute in Hrun; by rewrite <- Hrun).
  exists c'. split; [reflexivity |].
  exact (@X21_list_errors_come_from_node nat Demo.externals DemoNode.services
           "b10c" 0 Demo.fresh (NodeFailure DemoNode.missing) c' Hrun).
Defined.

End HandlerInstances.
